(** * FormatPacker: a shallow embedding of the cyclic frame packer

    The development follows the Python sources:
    - [point_object.py]: [PointObject] and [GroupObjectList];
    - [FormatPacker.py]: the packer's constructor, [_validate_objects],
      [_build_model], [_solve], [pack] and the table builder
      [_to_dataframes].

    Python integers are unbounded, hence [Z]; [//] and [%] are floor
    division and its remainder, which is what [Z.div] and [Z.modulo]
    compute for every sign of the divisor; a zero divisor raises
    [ZeroDivisionError] and is modelled explicitly.  The solver's 64-bit
    range is not modelled.

    Python objects are shared by reference: a [PointObject] handed to a
    group or to a packer is the very object the caller still holds.  The
    embedding therefore keeps the points in a store indexed by locations
    and lets groups and packers hold locations. *)

From stdpp Require Import base numbers strings pretty functions sets sorting list.

Open Scope Z_scope.

(** ** Exceptions and results *)

Inductive exn :=
| ZeroDivisionError
| IndexError
| StopIteration
| TypeError
| ValueError (msg : string)
| FramePackingError (msg : string).

Inductive result (A : Type) :=
| Ok (a : A)
| Raise (e : exn).
Arguments Ok {A} a.
Arguments Raise {A} e.

#[export] Instance result_ret : MRet result := fun A a => Ok a.
#[export] Instance result_bind : MBind result := fun A B f r =>
  match r with
  | Ok a => f a
  | Raise e => Raise e
  end.

Definition is_Ok {A} (r : result A) : bool :=
  match r with Ok _ => true | Raise _ => false end.

(** ** point_object.py *)

(** Solver variables are handles into the model's variable table. *)
Definition var := nat.

(** A location of the object store. *)
Definition loc := nat.

Record PointObject := mkPointObject {
  Name : string;
  Size : Z;
  Period : Z;
  Start_Frame : option Z;
  Offset : option Z;
  start_unit : option var;
  phase_vars : list var
}.

(** [offset * 8 if offset is not None else None] *)
Definition to_bits (offset : option Z) : option Z :=
  match offset with
  | Some b => Some (b * 8)
  | None => None
  end.

(** [PointObject.__init__] *)
Definition PointObject_init (name : string) (size period : Z)
    (start_frame offset : option Z) : PointObject :=
  {| Name := name;
     Size := size;
     Period := period;
     Start_Frame := start_frame;
     Offset := to_bits offset;
     start_unit := None;
     phase_vars := [] |}.

(** The object store: every location denotes an object. *)
Abbreviation heap := (loc -> PointObject).

(** The three attribute assignments [p.Period = ..; p.Start_Frame = ..;
    p.Offset = ..] that both the group constructor and the packer
    constructor perform on a member. *)
Definition assign_shared (period : Z) (start_frame offset : option Z)
    (p : PointObject) : PointObject :=
  {| Name := Name p;
     Size := Size p;
     Period := period;
     Start_Frame := start_frame;
     Offset := offset;
     start_unit := start_unit p;
     phase_vars := phase_vars p |}.

Module GroupObjectList.
(** A group is a Python list of points (its [points]) carrying four
    attributes of its own. *)
Record t := mk {
  Name : string;
  Period : Z;
  Start_Frame : option Z;
  Offset : option Z;
  points : list loc
}.
End GroupObjectList.

(** The loop [for p in points: ...] of [GroupObjectList.__init__]. *)
Fixpoint group_assign (period : Z) (start_frame offset : option Z)
    (points : list loc) (h : heap) : heap :=
  match points with
  | [] => h
  | p :: rest =>
      group_assign period start_frame offset rest
        (<[p := assign_shared period start_frame (to_bits offset) (h p)]> h)
  end.

(** [GroupObjectList.__init__(period, *points, name, start_frame, offset)]:
    returns the store after the constructor ran, and the new group. *)
Definition GroupObjectList_init (h : heap) (period : Z) (points : list loc)
    (name : string) (start_frame offset : option Z)
    : heap * GroupObjectList.t :=
  (group_assign period start_frame offset points h,
   GroupObjectList.mk name period start_frame (to_bits offset) points).

(** ** FormatPacker.py: the constructor *)

(** An element of the packer's input list. *)
Inductive item :=
| IPoint (p : loc)
| IGroup (g : GroupObjectList.t).

Record FormatPacker := mkFormatPacker {
  objects : list loc;
  _groups : list GroupObjectList.t;
  FRAME_SIZE : Z;
  FRAME_SIZE_BITS : Z;
  NUM_FRAMES : Z;
  ALIGNMENT : Z;
  UNIT : Z;
  CAP : Z
}.

(** [for i, p in enumerate(obj): ...] of the constructor, from index [i]. *)
Fixpoint propagate_from (i : nat) (g : GroupObjectList.t) (ps : list loc)
    (h : heap) : heap :=
  match ps with
  | [] => h
  | p :: rest =>
      propagate_from (S i) g rest
        (<[p := assign_shared (GroupObjectList.Period g)
                  (GroupObjectList.Start_Frame g)
                  (if decide (i = 0%nat) then GroupObjectList.Offset g else None)
                  (h p)]> h)
  end.

Definition propagate (g : GroupObjectList.t) (h : heap) : heap :=
  propagate_from 0 g (GroupObjectList.points g) h.

(** [for obj in objects: ...]: the store, [self.objects] and
    [self._groups] after the walk. *)
Fixpoint add_objects (items : list item) (h : heap) (objs : list loc)
    (grps : list GroupObjectList.t)
    : heap * list loc * list GroupObjectList.t :=
  match items with
  | [] => (h, objs, grps)
  | IGroup g :: rest =>
      add_objects rest (propagate g h) (objs ++ GroupObjectList.points g)
        (grps ++ [g])
  | IPoint p :: rest => add_objects rest h (objs ++ [p]) grps
  end.

(** [obj.Offset for obj in self.objects if obj.Offset]: an offset of 0 is
    falsy and left out, like an absent one. *)
Definition defined_offset (o : PointObject) : option Z :=
  match Offset o with
  | Some b => if decide (b = 0) then None else Some b
  | None => None
  end.

(** [math.gcd] of a sequence of arguments: their non-negative gcd, 0 for
    no argument. *)
Definition gcd_all (args : list Z) : Z := foldr Z.gcd 0 args.

(** Python's [a // b]. *)
Definition floordiv (a b : Z) : result Z :=
  if decide (b = 0) then Raise ZeroDivisionError else Ok (a / b).

(** Python's [a % b]. *)
Definition pymod (a b : Z) : result Z :=
  if decide (b = 0) then Raise ZeroDivisionError else Ok (a mod b).

(** [FormatPacker.__init__]; the sets of sizes and offsets are given to
    [gcd] as lists, which computes the same number. The solver parameters
    and the output path play no part in what follows. *)
Definition FormatPacker_init (h : heap) (items : list item)
    (frame_size num_frames : Z) : result (heap * FormatPacker) :=
  let '(h1, objs, grps) := add_objects items h [] [] in
  let bits := frame_size * 8 in
  let unique_sizes := map (fun p => Size (h1 p)) objs in
  let defined_offsets_b := omap (fun p => defined_offset (h1 p)) objs in
  let unit := gcd_all (unique_sizes ++ defined_offsets_b ++ [bits]) in
  cap ← floordiv bits unit;
  Ok (h1, {| objects := objs;
             _groups := grps;
             FRAME_SIZE := frame_size;
             FRAME_SIZE_BITS := bits;
             NUM_FRAMES := num_frames;
             ALIGNMENT := 8;
             UNIT := unit;
             CAP := cap |}).

(** ** [_validate_objects] *)

Definition start_frame_message (name : string) (start_frame last : Z) : string :=
  "Invalid Start_Frame: Object " +:+ name +:+ " has invalid Start_Frame="
  +:+ pretty start_frame +:+ "; must be between 0 and " +:+ pretty last +:+ ".".

Definition offset_message (name : string) (size offset frame_size : Z) : string :=
  "Invalid Offset: Object " +:+ name +:+ " (size=" +:+ pretty size
  +:+ ") at offset=" +:+ pretty offset +:+ " would overflow a "
  +:+ pretty frame_size +:+ "-byte frame.".

Definition bad_start_frame (pk : FormatPacker) (o : PointObject) : bool :=
  match Start_Frame o with
  | Some sf => bool_decide (sf < 0 ∨ sf > NUM_FRAMES pk - 1)
  | None => false
  end.

Definition bad_offset (pk : FormatPacker) (o : PointObject) : bool :=
  match Offset o with
  | Some off => bool_decide (off < 0 ∨ off + Size o > FRAME_SIZE_BITS pk)
  | None => false
  end.

Definition validate_object (pk : FormatPacker) (o : PointObject) : result unit :=
  if bad_start_frame pk o then
    Raise (ValueError (start_frame_message (Name o)
                         (default 0 (Start_Frame o)) (NUM_FRAMES pk - 1)))
  else if bad_offset pk o then
    Raise (ValueError (offset_message (Name o) (Size o)
                         (default 0 (Offset o)) (FRAME_SIZE pk)))
  else Ok ().

Fixpoint validate_all (pk : FormatPacker) (h : heap) (ps : list loc)
    : result unit :=
  match ps with
  | [] => Ok ()
  | p :: rest => _ ← validate_object pk (h p); validate_all pk h rest
  end.

Definition _validate_objects (pk : FormatPacker) (h : heap) : result unit :=
  validate_all pk h (objects pk).

(** ** The constraint model

    The packer talks to a CP-SAT solver through a model object.  The
    embedding keeps what the packer emits: the variable table (one integer
    domain per variable, in creation order), the constraints, the objective
    and the hints.  Variable names given to the solver are labels only and
    are left out. *)

(** [NewIntervalVar(sb, sz, sb + sz, ..)] or, with a presence literal,
    [NewOptionalIntervalVar(sb, sz, sb + sz, pv, ..)]: the interval
    [[sb, sb + sz)] with a variable start and a constant size. *)
Record IntervalVar := mkIntervalVar {
  iv_start : var;
  iv_size : Z;
  iv_presence : option var
}.

Inductive Constraint :=
| EqConst (x : var) (c : Z)             (* Add(x == c) *)
| EqVar (x y : var)                     (* Add(x == y) *)
| EqOffset (x y : var) (c : Z)          (* Add(x == y + c) *)
| ExactlyOne (bs : list var)            (* AddExactlyOne(bs) *)
| NoOverlap (ivs : list IntervalVar)    (* AddNoOverlap(ivs) *)
| MaxEquality (target : var) (xs : list var). (* AddMaxEquality(target, xs) *)

Inductive Objective :=
| Maximize (x : var)
| Minimize (x : var).

Record CpModel := mkCpModel {
  variables : list (Z * Z);
  constraints : list Constraint;
  objective : option Objective;
  hints : list (var * Z)
}.

Definition empty_model : CpModel := mkCpModel [] [] None [].

(** The library takes 64-bit integers as bounds and constants and answers
    any other with an exception of its own.  The embedding keeps the
    numbers as they are; a property that says the calls return is stated
    for numbers within that range ([in_solver_range] below). *)
Definition NewIntVar (lb ub : Z) (m : CpModel) : var * CpModel :=
  (length (variables m),
   mkCpModel (variables m ++ [(lb, ub)]) (constraints m) (objective m) (hints m)).

Definition NewBoolVar (m : CpModel) : var * CpModel := NewIntVar 0 1 m.

Definition NewConstant (c : Z) (m : CpModel) : var * CpModel := NewIntVar c c m.

Definition Add (c : Constraint) (m : CpModel) : CpModel :=
  mkCpModel (variables m) (constraints m ++ [c]) (objective m) (hints m).

Definition SetObjective (o : Objective) (m : CpModel) : CpModel :=
  mkCpModel (variables m) (constraints m) (Some o) (hints m).

Definition AddHint (x : var) (v : Z) (m : CpModel) : CpModel :=
  mkCpModel (variables m) (constraints m) (objective m) (hints m ++ [(x, v)]).

(** *** What a solution is

    An assignment gives every variable a value; [solver.Value] reads it. *)
Definition assignment := var -> Z.

(** A Boolean variable is true when its value is not 0. *)
Definition truthy (a : assignment) (b : var) : bool := negb (a b =? 0).

Definition present (a : assignment) (iv : IntervalVar) : bool :=
  match iv_presence iv with
  | Some b => truthy a b
  | None => true
  end.

(** Two intervals do not overlap when one ends before the other starts. *)
Definition apart (a : assignment) (i j : IntervalVar) : bool :=
  (a (iv_start i) + iv_size i <=? a (iv_start j))
  || (a (iv_start j) + iv_size j <=? a (iv_start i)).

Fixpoint no_overlap (a : assignment) (ivs : list IntervalVar) : bool :=
  match ivs with
  | [] => true
  | i :: rest =>
      forallb (fun j => negb (present a i && present a j) || apart a i j) rest
      && no_overlap a rest
  end.

(** [MaxEquality target xs] says that [target] is the largest of the
    values of [xs]: it is one of them and none exceeds it.  Over an empty
    [xs] there is no largest value and the constraint cannot hold; CP-SAT
    likewise finds a model with such a constraint infeasible.  The
    intervals of [NoOverlap] are compared pairwise, those that are present
    only. *)
Definition holds (a : assignment) (c : Constraint) : bool :=
  match c with
  | EqConst x c => a x =? c
  | EqVar x y => a x =? a y
  | EqOffset x y c => a x =? a y + c
  | ExactlyOne bs => (length (filter (fun b => truthy a b = true) bs) =? 1)%nat
  | NoOverlap ivs => no_overlap a ivs
  | MaxEquality t xs =>
      existsb (fun x => a x =? a t) xs && forallb (fun x => a x <=? a t) xs
  end.

Fixpoint in_domains (a : assignment) (x : var) (doms : list (Z * Z)) : bool :=
  match doms with
  | [] => true
  | (lb, ub) :: rest => (lb <=? a x) && (a x <=? ub) && in_domains a (S x) rest
  end.

(** [a] is a solution of [m]: every variable lies in its domain and every
    constraint holds. *)
Definition satisfies (a : assignment) (m : CpModel) : bool :=
  in_domains a 0%nat (variables m) && forallb (holds a) (constraints m).

(** ** [_build_model] *)

Definition set_solver_vars (su : var) (pvs : list var) (p : PointObject)
    : PointObject :=
  {| Name := Name p;
     Size := Size p;
     Period := Period p;
     Start_Frame := Start_Frame p;
     Offset := Offset p;
     start_unit := Some su;
     phase_vars := pvs |}.

(** Using an object's [start_unit] in an expression while it still is
    [None] is a type error.  Step 1 of [_build_model] gives a start
    variable to every object of [self.objects], members of groups
    included, so this error is not raised in a run of [pack]. *)
Definition get_start_unit (o : PointObject) : result var :=
  match start_unit o with
  | Some x => Ok x
  | None => Raise TypeError
  end.

(** [[NewBoolVar(..) for s in range(n)]] *)
Fixpoint new_bool_vars (n : nat) (m : CpModel) : list var * CpModel :=
  match n with
  | O => ([], m)
  | S k =>
      let '(b, m1) := NewBoolVar m in
      let '(bs, m2) := new_bool_vars k m1 in
      (b :: bs, m2)
  end.

(** Step 1, one object: its [start_unit], the pin of its offset and its
    phase variables. *)
Definition declare_point (pk : FormatPacker) (p : loc) (h : heap) (m : CpModel)
    : result (heap * CpModel) :=
  let o := h p in
  sz ← floordiv (Size o) (UNIT pk);
  let '(su, m1) := NewIntVar 0 (CAP pk - sz) m in
  m2 ← match Offset o with
       | Some off => q ← floordiv off (UNIT pk); Ok (Add (EqConst su q) m1)
       | None => Ok m1
       end;
  let '(pvs, m3) :=
    if decide (Start_Frame o = None ∧ Period o > 1) then
      let '(bs, m') := new_bool_vars (Z.to_nat (Period o)) m2 in
      (bs, Add (ExactlyOne bs) m')
    else ([], m2) in
  Ok (<[p := set_solver_vars su pvs o]> h, m3).

Fixpoint declare_points (pk : FormatPacker) (ps : list loc) (h : heap)
    (m : CpModel) : result (heap * CpModel) :=
  match ps with
  | [] => Ok (h, m)
  | p :: rest =>
      '(h1, m1) ← declare_point pk p h m;
      declare_points pk rest h1 m1
  end.

(** Step 2.1: [for s in range(P1.Period): Add(P2.phase_vars[s] ==
    P1.phase_vars[s])]. *)
Fixpoint equate_phases (ss : list nat) (pv1 pv2 : list var) (m : CpModel)
    : result CpModel :=
  match ss with
  | [] => Ok m
  | s :: rest =>
      match pv2 !! s, pv1 !! s with
      | Some b2, Some b1 => equate_phases rest pv1 pv2 (Add (EqVar b2 b1) m)
      | _, _ => Raise IndexError
      end
  end.

(** Step 2, one consecutive pair [P1, P2] of a group. *)
Definition link (pk : FormatPacker) (P1 P2 : PointObject) (m : CpModel)
    : result CpModel :=
  m1 ← match phase_vars P1, phase_vars P2 with
       | _ :: _, _ :: _ =>
           equate_phases (seq 0 (Z.to_nat (Period P1)))
             (phase_vars P1) (phase_vars P2) m
       | _, _ => Ok m
       end;
  su2 ← get_start_unit P2;
  su1 ← get_start_unit P1;
  q ← floordiv (Size P1) (UNIT pk);
  Ok (Add (EqOffset su2 su1 q) m1).

(** [for i in range(len(grp)-1): P1, P2 = grp[i], grp[i+1]; ...] *)
Fixpoint chain (pk : FormatPacker) (h : heap) (ps : list loc) (m : CpModel)
    : result CpModel :=
  match ps with
  | p1 :: (p2 :: _) as rest =>
      m1 ← link pk (h p1) (h p2) m;
      chain pk h rest m1
  | _ => Ok m
  end.

Fixpoint chain_groups (pk : FormatPacker) (h : heap)
    (gs : list GroupObjectList.t) (m : CpModel) : result CpModel :=
  match gs with
  | [] => Ok m
  | g :: rest =>
      m1 ← chain pk h (GroupObjectList.points g) m;
      chain_groups pk h rest m1
  end.

(** [sf or 0] *)
Definition or_zero (sf : option Z) : Z := default 0 sf.

(** Step 3, the optional intervals of an object with phase variables:
    [for s, pv in enumerate(obj.phase_vars): if frame % p == s: ...]. *)
Fixpoint optional_intervals (sb : var) (sz frame p : Z) (s : nat)
    (pvs : list var) : result (list IntervalVar) :=
  match pvs with
  | [] => Ok []
  | pv :: rest =>
      r ← pymod frame p;
      tl ← optional_intervals sb sz frame p (S s) rest;
      Ok (if decide (r = Z.of_nat s)
          then mkIntervalVar sb sz (Some pv) :: tl else tl)
  end.

(** Step 3, the intervals one object contributes to one frame. *)
Definition object_intervals (pk : FormatPacker) (o : PointObject) (frame : Z)
    : result (list IntervalVar) :=
  sz ← floordiv (Size o) (UNIT pk);
  sb ← get_start_unit o;
  if decide (Start_Frame o ≠ None ∨ Period o = 1) then
    let sf := or_zero (Start_Frame o) in
    if decide (frame >= sf) then
      r ← pymod (frame - sf) (Period o);
      Ok (if decide (r = 0) then [mkIntervalVar sb sz None] else [])
    else Ok []
  else optional_intervals sb sz frame (Period o) 0 (phase_vars o).

Fixpoint frame_intervals (pk : FormatPacker) (h : heap) (ps : list loc)
    (frame : Z) : result (list IntervalVar) :=
  match ps with
  | [] => Ok []
  | p :: rest =>
      ivs ← object_intervals pk (h p) frame;
      tl ← frame_intervals pk h rest frame;
      Ok (ivs ++ tl)
  end.

(** [for frame in range(self.NUM_FRAMES): ...; AddNoOverlap(intervals)] *)
Fixpoint add_frames (pk : FormatPacker) (h : heap) (frames : list Z)
    (m : CpModel) : result CpModel :=
  match frames with
  | [] => Ok m
  | frame :: rest =>
      ivs ← frame_intervals pk h (objects pk) frame;
      add_frames pk h rest (Add (NoOverlap ivs) m)
  end.

(** [range(n)] as the list of its values. *)
Definition range (n : Z) : list Z := seqZ 0 n.

(** Step 4: [sum(obj.Size * (NUM_FRAMES // obj.Period) for obj in objects)] *)
Fixpoint total_util_expr (pk : FormatPacker) (h : heap) (ps : list loc)
    : result Z :=
  match ps with
  | [] => Ok 0
  | p :: rest =>
      q ← floordiv (NUM_FRAMES pk) (Period (h p));
      s ← total_util_expr pk h rest;
      Ok (Size (h p) * q + s)
  end.

(** Step 5.1: one [end_..] variable per object, tied to its start. *)
Fixpoint end_units (pk : FormatPacker) (h : heap) (ps : list loc)
    (m : CpModel) : result (list var * CpModel) :=
  match ps with
  | [] => Ok ([], m)
  | p :: rest =>
      let '(eb, m1) := NewIntVar 0 (CAP pk) m in
      su ← get_start_unit (h p);
      q ← floordiv (Size (h p)) (UNIT pk);
      '(ebs, m2) ← end_units pk h rest (Add (EqOffset eb su q) m1);
      Ok (eb :: ebs, m2)
  end.

(** What [_build_model] leaves in the packer: the model and the two
    objective variables. *)
Record BuiltModel := mkBuiltModel {
  model : CpModel;
  total_util : var;
  max_end : var
}.

Definition _build_model (pk : FormatPacker) (h : heap)
    : result (heap * BuiltModel) :=
  '(h1, m1) ← declare_points pk (objects pk) h empty_model;
  m2 ← chain_groups pk h1 (_groups pk) m1;
  m3 ← add_frames pk h1 (range (NUM_FRAMES pk)) m2;
  u ← total_util_expr pk h1 (objects pk);
  let '(tu, m4) := NewConstant u m3 in
  '(end_unit, m5) ← end_units pk h1 (objects pk) m4;
  let '(me, m6) := NewIntVar 0 (CAP pk) m5 in
  Ok (h1, mkBuiltModel (Add (MaxEquality me end_unit) m6) tu me).

(** ** [_solve] and [pack]

    The solver is outside the repository.  It is a parameter of the
    embedding: a function from the model it is given to a status and the
    values [solver.Value] will report. *)

Inductive CpSolverStatus :=
| UNKNOWN
| MODEL_INVALID
| FEASIBLE
| INFEASIBLE
| OPTIMAL.

Definition CpSolver := CpModel -> CpSolverStatus * assignment.

Definition found_solution (st : CpSolverStatus) : bool :=
  match st with
  | OPTIMAL | FEASIBLE => true
  | _ => false
  end.

(** [for pv in obj.phase_vars: AddHint(pv, Value(pv))] *)
Definition hint_all (a : assignment) (xs : list var) (m : CpModel) : CpModel :=
  foldl (fun m x => AddHint x (a x) m) m xs.

(** [for obj in self.objects: AddHint(obj.start_unit, ..); ...] *)
Fixpoint add_hints (a : assignment) (h : heap) (ps : list loc) (m : CpModel)
    : result CpModel :=
  match ps with
  | [] => Ok m
  | p :: rest =>
      su ← get_start_unit (h p);
      add_hints a h rest (hint_all a (phase_vars (h p)) (AddHint su (a su) m))
  end.

Definition stage1_message : string :=
  "Stage 1 - No feasible packing found (maximize util)".
Definition stage2_message : string :=
  "Stage 2 - Failed to minimize max_end after fixing total_util".

(** [_solve]: returns the model as the second stage solved it and the
    values of that solve. *)
Definition _solve (Solve : CpSolver) (pk : FormatPacker) (h : heap)
    (bm : BuiltModel) : result (CpModel * assignment) :=
  let m1 := SetObjective (Maximize (total_util bm)) (model bm) in
  let '(status1, a1) := Solve m1 in
  if found_solution status1 then
    let best_util_1 := a1 (total_util bm) in
    m2 ← add_hints a1 h (objects pk) m1;
    let m3 := Add (EqConst (total_util bm) best_util_1) m2 in
    let m4 := SetObjective (Minimize (max_end bm)) m3 in
    let '(status2, a2) := Solve m4 in
    if found_solution status2 then Ok (m4, a2)
    else Raise (FramePackingError stage2_message)
  else Raise (FramePackingError stage1_message).

(** The state after a [pack()] that did not raise. *)
Record Packed := mkPacked {
  store : heap;
  solved_model : CpModel;
  Value : assignment
}.

(** [pack]: build the model, then solve. *)
Definition pack (Solve : CpSolver) (pk : FormatPacker) (h : heap)
    : result Packed :=
  '(h1, bm) ← _build_model pk h;
  '(m, a) ← _solve Solve pk h1 bm;
  Ok (mkPacked h1 m a).

(** ** [_to_dataframes]

    The tables are embedded as the data the method computes for them: the
    Schedule rows, the per-frame entries behind the FrameOrder table and
    the rows of the FrameSummary table, and the grid of the MemoryMap table.
    The Objects table (a copy of the input fields) is left out. *)

(** [next(i for i, pv in enumerate(obj.phase_vars) if Value(pv))], counting
    from [i]. *)
Fixpoint first_true (a : assignment) (i : nat) (pvs : list var) : result nat :=
  match pvs with
  | [] => Raise StopIteration
  | pv :: rest => if truthy a pv then Ok i else first_true a (S i) rest
  end.

(** The [in_frame] flag, computed the same way for each table. *)
Definition in_frame (a : assignment) (o : PointObject) (frame : Z)
    : result bool :=
  match phase_vars o with
  | _ :: _ =>
      phase ← first_true a 0 (phase_vars o);
      r ← pymod frame (Period o);
      Ok (bool_decide (r = Z.of_nat phase))
  | [] =>
      let sf := or_zero (Start_Frame o) in
      if decide (frame >= sf) then
        r ← pymod (frame - sf) (Period o);
        Ok (bool_decide (r = 0))
      else Ok false
  end.

Fixpoint mapM {A B} (f : A -> result B) (l : list A) : result (list B) :=
  match l with
  | [] => Ok []
  | x :: rest => y ← f x; ys ← mapM f rest; Ok (y :: ys)
  end.

(** The Schedule table: one row per object, one cell per frame, the
    object's name where it occurs and the empty string elsewhere. *)
Definition schedule_flags (a : assignment) (o : PointObject) (frames : list Z)
    : result (list bool) :=
  mapM (in_frame a o) frames.

Definition schedule_row (a : assignment) (o : PointObject) (frames : list Z)
    : result (list string) :=
  flags ← schedule_flags a o frames;
  Ok (map (fun b : bool => if b then Name o else "") flags).

Definition schedule_df (pk : FormatPacker) (pd : Packed)
    : result (list (list string)) :=
  mapM (fun p => schedule_row (Value pd) (store pd p) (range (NUM_FRAMES pk)))
    (objects pk).

(** [start_bit = self.solver.Value(obj.start_unit) * self.UNIT] *)
Definition start_bit (pk : FormatPacker) (a : assignment) (o : PointObject)
    : result Z :=
  su ← get_start_unit o;
  Ok (a su * UNIT pk).

(** Step 4, the entries of one frame before sorting. *)
Fixpoint frame_entries (pk : FormatPacker) (a : assignment) (h : heap)
    (ps : list loc) (frame : Z) : result (list (string * Z)) :=
  match ps with
  | [] => Ok []
  | p :: rest =>
      sb ← start_bit pk a (h p);
      b ← in_frame a (h p) frame;
      tl ← frame_entries pk a h rest frame;
      Ok (if b : bool then (Name (h p), sb) :: tl else tl)
  end.

(** [list.sort(key=..)] and [sorted(.., key=..)] are stable: elements with
    equal keys keep their order.  Inserting the elements from the right,
    each before the first element whose key is not smaller, computes that
    unique result. *)
Fixpoint insert_by {A} (key : A -> Z) (x : A) (l : list A) : list A :=
  match l with
  | [] => [x]
  | y :: rest =>
      if decide (key x <= key y) then x :: y :: rest
      else y :: insert_by key x rest
  end.

Definition sort_by {A} (key : A -> Z) (l : list A) : list A :=
  foldr (insert_by key) [] l.

(** [self.framesummary]: per frame, the entries sorted by start bit. *)
Definition framesummary (pk : FormatPacker) (pd : Packed)
    : result (list (list (string * Z))) :=
  mapM (fun frame =>
          entries ← frame_entries pk (Value pd) (store pd) (objects pk) frame;
          Ok (sort_by snd entries))
       (range (NUM_FRAMES pk)).

(** [frameorder]: the names of each frame's entries. *)
Definition frameorder (pk : FormatPacker) (pd : Packed)
    : result (list (list string)) :=
  fs ← framesummary pk pd;
  Ok (map (map fst) fs).

(** Step 5.  [first_bits] is a dictionary from names to bits; Python
    dictionaries iterate in the order their keys were first inserted, so
    it is kept as an association list in that order. *)
Fixpoint record_first (name : string) (sb : Z) (d : list (string * Z))
    : list (string * Z) :=
  match d with
  | [] => [(name, sb)]
  | (k, v) :: rest =>
      if decide (k = name) then (k, Z.min v sb) :: rest
      else (k, v) :: record_first name sb rest
  end.

Definition first_bits (fs : list (list (string * Z))) : list (string * Z) :=
  foldl (fun d frame => foldl (fun d e => record_first e.1 e.2 d) d frame)
    [] fs.

(** [object_order = sorted(first_bits, key=lambda x: first_bits[x])] *)
Definition object_order (fs : list (list (string * Z))) : list string :=
  map fst (sort_by snd (first_bits fs)).

(** The cell [framesummary_df.at[name, i]]: the start bit last written for
    [name] in frame [i], if any. *)
Definition cell (name : string) (entries : list (string * Z)) : option Z :=
  foldl (fun c e => if decide (e.1 = name) then Some e.2 else c) None entries.

(** The FrameSummary table: the rows in [object_order], each with its
    label and one cell per frame. *)
Definition framesummary_df (pk : FormatPacker) (pd : Packed)
    : result (list (string * list (option Z))) :=
  fs ← framesummary pk pd;
  Ok (map (fun name => (name, map (cell name) fs)) (object_order fs)).

(** Step 3, the MemoryMap table: one row per bit of a frame and one
    column per frame, every cell the empty string at first. *)
Definition empty_memorymap (pk : FormatPacker) : list (list string) :=
  replicate (Z.to_nat (FRAME_SIZE_BITS pk))
    (replicate (Z.to_nat (NUM_FRAMES pk)) "").

(** [memorymap_df.iat[b, frame] = name].  [iat] addresses the rows by
    position, as the underlying array does: a negative [b] counts from the
    last row, and a [b] outside the rows is an [IndexError].  [frame] is
    one of [range(NUM_FRAMES)], a column of the table. *)
Definition iat_set (b frame : Z) (name : string) (grid : list (list string))
    : result (list (list string)) :=
  let n := Z.of_nat (length grid) in
  if decide (0 <= b < n) then
    Ok (alter (<[Z.to_nat frame := name]>) (Z.to_nat b) grid)
  else if decide (- n <= b < 0) then
    Ok (alter (<[Z.to_nat frame := name]>) (Z.to_nat (n + b)) grid)
  else Raise IndexError.

(** [for b in range(start_bit, start_bit + size): iat[b, frame] = name],
    over the values of the range. *)
Fixpoint write_bits (bs : list Z) (frame : Z) (name : string)
    (grid : list (list string)) : result (list (list string)) :=
  match bs with
  | [] => Ok grid
  | b :: rest =>
      grid1 ← iat_set b frame name grid;
      write_bits rest frame name grid1
  end.

(** [for frame in range(NUM_FRAMES): ...; if in_frame: ...] for one
    object. *)
Fixpoint write_frames (a : assignment) (o : PointObject) (sb : Z)
    (frames : list Z) (grid : list (list string))
    : result (list (list string)) :=
  match frames with
  | [] => Ok grid
  | frame :: rest =>
      b ← in_frame a o frame;
      grid1 ← (if b : bool
               then write_bits (seqZ sb (Size o)) frame (Name o) grid
               else Ok grid);
      write_frames a o sb rest grid1
  end.

Fixpoint write_objects (pk : FormatPacker) (a : assignment) (h : heap)
    (ps : list loc) (grid : list (list string))
    : result (list (list string)) :=
  match ps with
  | [] => Ok grid
  | p :: rest =>
      sb ← start_bit pk a (h p);
      grid1 ← write_frames a (h p) sb (range (NUM_FRAMES pk)) grid;
      write_objects pk a h rest grid1
  end.

Definition memorymap_df (pk : FormatPacker) (pd : Packed)
    : result (list (list string)) :=
  write_objects pk (Value pd) (store pd) (objects pk) (empty_memorymap pk).

(** * Notions used in the statements *)

(** ** Inputs *)

(** The points an input element stands for, and the groups of an input. *)
Definition item_points (it : item) : list loc :=
  match it with
  | IPoint p => [p]
  | IGroup g => GroupObjectList.points g
  end.

Definition all_points (items : list item) : list loc :=
  concat (map item_points items).

Definition item_groups (items : list item) : list GroupObjectList.t :=
  omap (fun it => match it with IGroup g => Some g | IPoint _ => None end) items.

(** ** Models and solvers *)

(** [m'] has all the constraints of [m]. *)
Definition grows (m m' : CpModel) : Prop := constraints m ⊆ constraints m'.

(** A solver is sound when it reports a solution only with values that
    satisfy the model it was given. *)
Definition sound (Solve : CpSolver) : Prop :=
  ∀ m st a, Solve m = (st, a) -> found_solution st = true ->
            satisfies a m = true.

(** A solver that reports a solution only after checking it: it offers
    [candidate] and answers [INFEASIBLE] when that does not satisfy the
    model. *)
Definition checking_solver (candidate : assignment) : CpSolver :=
  fun m => if satisfies candidate m then (FEASIBLE, candidate)
           else (INFEASIBLE, candidate).

(** A computation that does not end in a [ValueError]. *)
Definition no_ValueError {A} (r : result A) : Prop :=
  ∀ msg, r ≠ Raise (ValueError msg).

(** ** The state of the objects after [_build_model] *)

(** [o'] has the input attributes of [o]. *)
Definition same_input (o o' : PointObject) : Prop :=
  Name o' = Name o ∧ Size o' = Size o ∧ Period o' = Period o ∧
  Start_Frame o' = Start_Frame o ∧ Offset o' = Offset o.

(** The points that get phase variables. *)
Definition has_phases (o : PointObject) : Prop :=
  Start_Frame o = None ∧ Period o > 1.

(** Step 1 has been carried out for [o]: it holds a start variable, the
    pin of its offset is in the model, and it holds one phase variable per
    phase, exactly one of which is to be true, or none at all. *)
Definition declared (pk : FormatPacker) (m : CpModel) (o : PointObject) : Prop :=
  ∃ su, start_unit o = Some su ∧
    (∀ off, Offset o = Some off -> EqConst su (off / UNIT pk) ∈ constraints m) ∧
    (if decide (has_phases o)
     then length (phase_vars o) = Z.to_nat (Period o) ∧
          ExactlyOne (phase_vars o) ∈ constraints m
     else phase_vars o = []).

(** Step 2 has been carried out for the consecutive members [P1], [P2]. *)
Definition linked (pk : FormatPacker) (m : CpModel) (P1 P2 : PointObject) : Prop :=
  ∃ su1 su2, start_unit P1 = Some su1 ∧ start_unit P2 = Some su2 ∧
    EqOffset su2 su1 (Size P1 / UNIT pk) ∈ constraints m ∧
    (phase_vars P1 ≠ [] -> phase_vars P2 ≠ [] ->
     ∀ s, (s < Z.to_nat (Period P1))%nat ->
       ∃ b1 b2, phase_vars P1 !! s = Some b1 ∧ phase_vars P2 !! s = Some b2 ∧
                EqVar b2 b1 ∈ constraints m).

(** ** Occurrences *)

(** The number of frames of the schedule in which an object occurs: the
    number of [in_frame] flags that are set in its row of the Schedule
    table. *)
Definition count_true (flags : list bool) : Z :=
  Z.of_nat (length (filter (fun b => b = true) flags)).

Definition occurrences (a : assignment) (o : PointObject) (num_frames : Z)
    : result Z :=
  flags ← schedule_flags a o (range num_frames);
  Ok (count_true flags).

(** The frames [c], [c + p], [c + 2p], ... *)
Definition every (c p f : Z) : bool :=
  bool_decide (f >= c ∧ (f - c) mod p = 0).

(** The count the frequency property P1 expects for an object first seen
    in frame [c]. *)
Definition expected_frequency (c p num_frames : Z) : Z :=
  if decide (c < num_frames) then 1 + (num_frames - 1 - c) / p else 0.

(** [chosen_phase(o)]: the index of the phase variable that is true, or
    the start frame (0 when unset) for an object without phase variables. *)
Definition chosen_phase (a : assignment) (o : PointObject) : result Z :=
  match phase_vars o with
  | _ :: _ => s ← first_true a 0 (phase_vars o); Ok (Z.of_nat s)
  | [] => Ok (or_zero (Start_Frame o))
  end.

(** ** Orders *)

(** Ascending keys. *)
Definition key_le {A} (key : A -> Z) (x y : A) : Prop := key x <= key y.

(** The names of a list in the order of their first appearance. *)
Definition first_seen (seen : list string) (name : string) : list string :=
  if decide (name ∈ seen) then seen else seen ++ [name].

Definition appearance (names : list string) : list string :=
  foldl first_seen [] names.

(** [b] is the least start bit recorded for [name] among the entries. *)
Definition least_bit (es : list (string * Z)) (name : string) (b : Z) : Prop :=
  (name, b) ∈ es ∧ ∀ b', (name, b') ∈ es -> b <= b'.

(** [x] comes before [y] in [l]. *)
Definition before {A} (l : list A) (x y : A) : Prop :=
  ∃ i j : nat, (i < j)%nat ∧ l !! i = Some x ∧ l !! j = Some y.

(** The index of the first frame in which [name] appears. *)
Fixpoint first_frame (name : string) (fs : list (list (string * Z)))
    : option nat :=
  match fs with
  | [] => None
  | frame :: rest =>
      if decide (name ∈ map fst frame) then Some 0%nat
      else S <$> first_frame name rest
  end.

(** One step of the loop that fills [first_bits]. *)
Definition record_entry (d : list (string * Z)) (e : string * Z)
    : list (string * Z) :=
  record_first e.1 e.2 d.

(** [first_bits[k]] *)
Fixpoint assoc (k : string) (d : list (string * Z)) : option Z :=
  match d with
  | [] => None
  | (k', v) :: rest => if decide (k' = k) then Some v else assoc k rest
  end.

(** ** The variable table *)

(** [m'] keeps the variables of [m], with their domains. *)
Definition keeps (m m' : CpModel) : Prop :=
  variables m `prefix_of` variables m'.

(** [o] holds a start variable, and the model gives it the domain
    [[0, CAP - size // UNIT]]. *)
Definition bounded (pk : FormatPacker) (m : CpModel) (o : PointObject) : Prop :=
  ∃ su, start_unit o = Some su ∧
        variables m !! su = Some (0, CAP pk - Size o / UNIT pk).

(** The end variable [eb] of [o] is tied to its start variable. *)
Definition ended (pk : FormatPacker) (m : CpModel) (o : PointObject) (eb : var)
    : Prop :=
  ∃ su, start_unit o = Some su ∧
        EqOffset eb su (Size o / UNIT pk) ∈ constraints m.

(** ** What the constructor leaves alone *)

(** [o'] is [o] up to the three attributes a group hands to its members. *)
Definition same_identity (o o' : PointObject) : Prop :=
  Name o' = Name o ∧ Size o' = Size o ∧
  start_unit o' = start_unit o ∧ phase_vars o' = phase_vars o.

(** The bits a list of objects takes when placed back to back. *)
Definition total_size (h : heap) (ps : list loc) : Z :=
  foldr (fun q s => Size (h q) + s) 0 ps.

(** ** The cells of the MemoryMap *)

(** The cell of bit [b] and frame [f], where the grid has one. *)
Definition cell_at (grid : list (list string)) (b f : nat) : option string :=
  row ← grid !! b; row !! f.

(** [o], placed at bit [sb], occupies bit [b] of frame [f]. *)
Definition covers (a : assignment) (o : PointObject) (sb f b : Z) : bool :=
  match in_frame a o f with
  | Ok true => bool_decide (sb <= b < sb + Size o)
  | _ => false
  end.

Definition occupies (pk : FormatPacker) (a : assignment) (o : PointObject)
    (f b : Z) : bool :=
  match start_bit pk a o with
  | Ok sb => covers a o sb f b
  | Raise _ => false
  end.

(** What a cell that held [old] holds after the objects of [ps] were
    written in turn: the name of the last one that occupies it. *)
Definition painted (pk : FormatPacker) (a : assignment) (h : heap)
    (ps : list loc) (f b : Z) (old : string) : string :=
  foldl (fun c p => if occupies pk a (h p) f b then Name (h p) else c) old ps.

(** ** The load of a frame *)

(** The sizes of the elements of [l] that are switched on, summed. *)
Definition load {A} (on : A -> bool) (size : A -> Z) (l : list A) : Z :=
  foldr (fun x s => (if on x then size x else 0) + s) 0 l.

(** [o] occurs in frame [f], as the tables compute it. *)
Definition occurs (a : assignment) (o : PointObject) (f : Z) : bool :=
  match in_frame a o f with
  | Ok true => true
  | _ => false
  end.

(** The bits the objects that occur in frame [f] take together. *)
Definition frame_load (a : assignment) (h : heap) (ps : list loc) (f : Z) : Z :=
  load (fun p => occurs a (h p) f) (fun p => Size (h p)) ps.

(** ** The integers of the solver library *)

Definition int64 (z : Z) : bool := (- 2 ^ 63 <=? z) && (z <? 2 ^ 63).

(** Every number [_build_model] hands to the library is a 64-bit integer:
    the capacity, each object's size and offset in units, the upper bound
    of its start variable, and the total utilization. *)
Definition in_solver_range (pk : FormatPacker) (h : heap) : Prop :=
  int64 (CAP pk) = true ∧
  (∀ p, p ∈ objects pk ->
     int64 (Size (h p) / UNIT pk) = true ∧
     int64 (CAP pk - Size (h p) / UNIT pk) = true ∧
     ∀ off, Offset (h p) = Some off -> int64 (off / UNIT pk) = true) ∧
  (∀ u, total_util_expr pk h (objects pk) = Ok u -> int64 u = true).

(** ** What [_validate_objects] checks *)

(** A start frame, where set, is one of the frames [0 .. NUM_FRAMES-1]. *)
Definition valid_start_frame (pk : FormatPacker) (o : PointObject) : Prop :=
  ∀ sf, Start_Frame o = Some sf -> 0 <= sf <= NUM_FRAMES pk - 1.

(** An offset, where set, leaves the object within the bits of a frame. *)
Definition valid_offset (pk : FormatPacker) (o : PointObject) : Prop :=
  ∀ off, Offset o = Some off -> 0 <= off ∧ off + Size o <= FRAME_SIZE_BITS pk.

(** * Example inputs *)

(** An object store in which no object has been created yet. *)
Definition blank : PointObject := PointObject_init "" 0 1 None None.
Definition no_objects : heap := fun _ => blank.

(** The result of a computation that is known to return. *)
Definition from_Ok {A} (d : A) (r : result A) : A :=
  match r with Ok a => a | Raise _ => d end.

(** The values a solver reports, listed by variable. *)
Definition values (vs : list Z) : assignment := fun x => default 0 (vs !! x).

(** Scenario S1 with an invalid start frame: A of 8 bits, period 1, start
    frame 99 in 4 frames of 16 bytes. *)
Definition c1_store : heap :=
  <[0%nat := PointObject_init "A" 8 1 (Some 99) None]> no_objects.

Definition c1_packer : FormatPacker :=
  from_Ok (mkFormatPacker [] [] 0 0 0 0 0 0)
    (x ← FormatPacker_init c1_store [IPoint 0%nat] 16 4; Ok x.2).

Definition c1_solver : CpSolver := fun _ => (OPTIMAL, values [0; 32; 1; 1]).

Definition c1_packed : Packed :=
  from_Ok (mkPacked no_objects empty_model (fun _ => 0))
    (pack c1_solver c1_packer c1_store).

(** H of the repository's manual input: 64 bits, period 1, from frame 1
    on, in 32 frames of 1000 bytes. *)
Definition c2_store : heap :=
  <[0%nat := PointObject_init "H" 64 1 (Some 1) None]> no_objects.

Definition c2_packer : FormatPacker :=
  from_Ok (mkFormatPacker [] [] 0 0 0 0 0 0)
    (x ← FormatPacker_init c2_store [IPoint 0%nat] 1000 32; Ok x.2).

Definition c2_solver : CpSolver := fun _ => (OPTIMAL, values [0; 2048; 1; 1]).

Definition c2_packed : Packed :=
  from_Ok (mkPacked no_objects empty_model (fun _ => 0))
    (pack c2_solver c2_packer c2_store).

(** Two points of 8 bits and period 2 in five frames of one byte: A is
    pinned to frame 0 and fills frames 0, 2 and 4, which leaves B the
    phase 1. *)
Definition c3_store : heap :=
  <[0%nat := PointObject_init "A" 8 2 (Some 0) None]>
    (<[1%nat := PointObject_init "B" 8 2 None None]> no_objects).

Definition c3_packer : FormatPacker :=
  from_Ok (mkFormatPacker [] [] 0 0 0 0 0 0)
    (x ← FormatPacker_init c3_store [IPoint 0%nat; IPoint 1%nat] 1 5; Ok x.2).

Definition c3_solver : CpSolver :=
  fun _ => (OPTIMAL, values [0; 0; 0; 1; 32; 1; 1; 1]).

Definition c3_packed : Packed :=
  from_Ok (mkPacked no_objects empty_model (fun _ => 0))
    (pack c3_solver c3_packer c3_store).

(** Two points pinned by their offsets: A at byte 1 in frame 0, B at byte
    0 in frame 1, in two frames of two bytes. *)
Definition c4_store : heap :=
  <[0%nat := PointObject_init "A" 8 2 (Some 0) (Some 1)]>
    (<[1%nat := PointObject_init "B" 8 2 (Some 1) (Some 0)]> no_objects).

Definition c4_packer : FormatPacker :=
  from_Ok (mkFormatPacker [] [] 0 0 0 0 0 0)
    (x ← FormatPacker_init c4_store [IPoint 0%nat; IPoint 1%nat] 2 2; Ok x.2).

Definition c4_solver : CpSolver := fun _ => (OPTIMAL, values [1; 0; 16; 2; 1; 2]).

Definition c4_packed : Packed :=
  from_Ok (mkPacked no_objects empty_model (fun _ => 0))
    (pack c4_solver c4_packer c4_store).

(** Scenario S3: A of 32 bits, period 32, pinned at byte 8, in 32 frames
    of 1000 bytes; the solver reports phase 0. *)
Definition s3_store : heap :=
  <[0%nat := PointObject_init "A" 32 32 None (Some 8)]> no_objects.

Definition s3_packer : FormatPacker :=
  from_Ok (mkFormatPacker [] [] 0 0 0 0 0 0)
    (x ← FormatPacker_init s3_store [IPoint 0%nat] 1000 32; Ok x.2).

Definition s3_solver : CpSolver :=
  fun _ => (OPTIMAL, values ([2; 1] ++ replicate 31 0 ++ [32; 3; 3])).

Definition s3_packed : Packed :=
  from_Ok (mkPacked no_objects empty_model (fun _ => 0))
    (pack s3_solver s3_packer s3_store).

(** Scenario S5.  Before the group is built, A, B and C have attributes
    of their own, at locations 0, 1 and 2; the group has period 16, start
    frame 1 and byte offset 8. *)
Definition s5_store : heap :=
  <[0%nat := PointObject_init "A" 16 4 (Some 2) (Some 3)]>
    (<[1%nat := PointObject_init "B" 32 8 None (Some 5)]>
       (<[2%nat := PointObject_init "C" 8 2 (Some 0) None]> no_objects)).

Definition s5_members : list loc := [0%nat; 1%nat; 2%nat].

Definition s5_built : heap * GroupObjectList.t :=
  GroupObjectList_init s5_store 16 s5_members "_" (Some 1) (Some 8).

(** The group alone in a packer of 32 frames of 1000 bytes; the solver
    reports A at unit 8, B at 10 and C at 14. *)
Definition s5_packer : result (heap * FormatPacker) :=
  FormatPacker_init s5_built.1 [IGroup s5_built.2] 1000 32.

Definition s5_packer' : FormatPacker :=
  from_Ok (mkFormatPacker [] [] 0 0 0 0 0 0) (x ← s5_packer; Ok x.2).

Definition s5_normalized : heap :=
  from_Ok no_objects (x ← s5_packer; Ok x.1).

Definition s5_solver : CpSolver :=
  fun _ => (OPTIMAL, values [8; 10; 14; 112; 10; 14; 15; 15]).

Definition s5_packed : Packed :=
  from_Ok (mkPacked no_objects empty_model (fun _ => 0))
    (pack s5_solver s5_packer' s5_normalized).

(** The packer of an empty input, in 4 frames of 16 bytes. *)
Definition empty_packer : FormatPacker :=
  from_Ok (mkFormatPacker [] [] 0 0 0 0 0 0)
    (x ← FormatPacker_init no_objects [] 16 4; Ok x.2).

(** The model of the two points of period 2, and their packing by a
    solver that checks what it reports. *)
Definition c3_built : heap * BuiltModel :=
  from_Ok (no_objects, mkBuiltModel empty_model 0%nat 0%nat)
    (_build_model c3_packer c3_store).

Definition c3_values : assignment := values [0; 0; 0; 1; 32; 1; 1; 1].

Definition c3_checking : CpSolver := checking_solver c3_values.

Definition c3_checked : Packed :=
  from_Ok (mkPacked no_objects empty_model (fun _ => 0))
    (pack c3_checking c3_packer c3_store).

(** A of 8 bits pinned at byte 2 of a frame of two bytes: it would end
    past the frame. *)
Definition o1_store : heap :=
  <[0%nat := PointObject_init "A" 8 1 None (Some 2)]> no_objects.

Definition o1_packer : FormatPacker :=
  from_Ok (mkFormatPacker [] [] 0 0 0 0 0 0)
    (x ← FormatPacker_init o1_store [IPoint 0%nat] 2 4; Ok x.2).

Definition o1_built : heap * BuiltModel :=
  from_Ok (no_objects, mkBuiltModel empty_model 0%nat 0%nat)
    (_build_model o1_packer o1_store).



(** * Properties *)

(** ** Group construction and the object store *)

Section store.
Implicit Types (h : heap) (p q : loc) (ps : list loc).

Lemma assign_shared_twice period sf off period' sf' off' o :
  assign_shared period sf off (assign_shared period' sf' off' o)
  = assign_shared period sf off o.
Proof. reflexivity. Qed.

(** The constructor's loop rewrites the members and nothing else. *)
Lemma group_assign_lookup period sf off ps h q :
  group_assign period sf off ps h q
  = if decide (q ∈ ps) then assign_shared period sf (to_bits off) (h q)
    else h q.
Proof.
  revert h. induction ps as [|p ps IH]; intros h; cbn [group_assign].
  - case_decide; [set_solver | done].
  - rewrite IH. destruct (decide (p = q)) as [->|Hne].
    + rewrite fn_lookup_insert, assign_shared_twice.
      repeat case_decide; try done; set_solver.
    + rewrite fn_lookup_insert_ne by done.
      repeat case_decide; try done; set_solver.
Qed.

(** The packer's pass over a group touches its members only. *)
Lemma propagate_from_other i g ps h q :
  q ∉ ps -> propagate_from i g ps h q = h q.
Proof.
  revert i h. induction ps as [|p ps IH]; intros i h Hq; simpl; [done|].
  apply not_elem_of_cons in Hq as [Hne Hq].
  rewrite IH by done. by rewrite fn_lookup_insert_ne.
Qed.

(** On members that occur once, the pass leaves the group's period and
    start frame, and the group's offset on the member at index 0 only. *)
Lemma propagate_from_lookup i g ps h k q :
  NoDup ps -> ps !! k = Some q ->
  propagate_from i g ps h q
  = assign_shared (GroupObjectList.Period g) (GroupObjectList.Start_Frame g)
      (if decide ((i + k)%nat = 0%nat) then GroupObjectList.Offset g else None)
      (h q).
Proof.
  revert i h k. induction ps as [|p ps IH]; intros i h k Hnd Hk; [done|].
  pose proof (NoDup_cons_1_1 _ _ Hnd) as Hp.
  apply NoDup_cons_1_2 in Hnd. destruct k as [|k]; simpl in *.
  - injection Hk as ->. rewrite propagate_from_other by done.
    rewrite fn_lookup_insert. by rewrite Nat.add_0_r.
  - rewrite (IH (S i) _ k) by done.
    assert (p ≠ q) as Hne.
    { intros ->. apply Hp. by eapply list_elem_of_lookup_2. }
    rewrite fn_lookup_insert_ne by done.
    by replace (S i + k)%nat with (i + S k)%nat by lia.
Qed.

Lemma propagate_lookup g h k q :
  NoDup (GroupObjectList.points g) ->
  GroupObjectList.points g !! k = Some q ->
  propagate g h q
  = assign_shared (GroupObjectList.Period g) (GroupObjectList.Start_Frame g)
      (if decide (k = 0%nat) then GroupObjectList.Offset g else None) (h q).
Proof. intros Hnd Hk. unfold propagate. by rewrite (propagate_from_lookup 0 g _ h k). Qed.

Lemma propagate_other g h q :
  q ∉ GroupObjectList.points g -> propagate g h q = h q.
Proof. apply propagate_from_other. Qed.
End store.

(** ** The packer's constructor *)

Section constructor.
Implicit Types (h : heap) (p q : loc) (items : list item).

Lemma add_objects_lists items h objs grps h1 objs1 grps1 :
  add_objects items h objs grps = (h1, objs1, grps1) ->
  objs1 = objs ++ all_points items ∧ grps1 = grps ++ item_groups items.
Proof.
  revert h objs grps. induction items as [|[p|g] items IH];
    intros h objs grps Heq; simpl in Heq.
  - injection Heq as _ <- <-. by rewrite !app_nil_r.
  - apply IH in Heq as [-> ->]. unfold all_points. simpl.
    by rewrite <- app_assoc.
  - apply IH in Heq as [-> ->]. unfold all_points. simpl.
    by rewrite <- !app_assoc.
Qed.

Lemma add_objects_other items h objs grps h1 objs1 grps1 q :
  add_objects items h objs grps = (h1, objs1, grps1) ->
  q ∉ all_points items -> h1 q = h q.
Proof.
  revert h objs grps. induction items as [|[p|g] items IH];
    intros h objs grps Heq Hq; simpl in Heq.
  - by injection Heq as <- _ _.
  - eapply IH; [done|]. unfold all_points in *. simpl in Hq.
    by apply not_elem_of_cons in Hq as [_ ?].
  - unfold all_points in *. simpl in Hq.
    apply not_elem_of_app in Hq as [Hg Hq].
    rewrite (IH _ _ _ Heq Hq). by apply propagate_other.
Qed.

Lemma all_points_group items g q :
  IGroup g ∈ items -> q ∈ GroupObjectList.points g -> q ∈ all_points items.
Proof.
  unfold all_points. induction items as [|it items IH]; intros Hg Hq.
  - by apply elem_of_nil in Hg.
  - simpl. apply elem_of_app. apply elem_of_cons in Hg as [<-|Hg]; auto.
Qed.

(** Where every point object is listed once, the constructor leaves on
    each member of each group the group's period and start frame, the
    group's offset on the first member and no offset on the others. *)
Lemma add_objects_group items h objs grps h1 objs1 grps1 g k q :
  add_objects items h objs grps = (h1, objs1, grps1) ->
  NoDup (all_points items) ->
  IGroup g ∈ items ->
  GroupObjectList.points g !! k = Some q ->
  h1 q = assign_shared (GroupObjectList.Period g)
           (GroupObjectList.Start_Frame g)
           (if decide (k = 0%nat) then GroupObjectList.Offset g else None)
           (h q).
Proof.
  revert h objs grps. induction items as [|it items IH];
    intros h objs grps Heq Hnd Hg Hk; [by apply elem_of_nil in Hg|].
  unfold all_points in Hnd. simpl in Hnd.
  apply NoDup_app in Hnd as (Hnd1 & Hdisj & Hnd2).
  apply elem_of_cons in Hg as [<-|Hg].
  - simpl in Heq, Hnd1, Hdisj.
    assert (q ∈ GroupObjectList.points g) as Hq
      by (by eapply list_elem_of_lookup_2).
    rewrite (add_objects_other _ _ _ _ _ _ _ q Heq) by (by apply Hdisj).
    by apply propagate_lookup.
  - assert (q ∈ all_points items) as Hq.
    { eapply all_points_group; [done|]. by eapply list_elem_of_lookup_2. }
    assert (q ∉ item_points it) as Hq' by (intros ?; by eapply Hdisj).
    destruct it as [p|g']; simpl in Heq.
    + by eapply IH.
    + rewrite (IH _ _ _ Heq Hnd2 Hg Hk). f_equal.
      by apply propagate_other.
Qed.

(** What the constructor computes, when it returns. *)
Lemma FormatPacker_init_spec h items frame_size num_frames h1 pk :
  FormatPacker_init h items frame_size num_frames = Ok (h1, pk) ->
  objects pk = all_points items ∧
  _groups pk = item_groups items ∧
  FRAME_SIZE pk = frame_size ∧
  FRAME_SIZE_BITS pk = frame_size * 8 ∧
  NUM_FRAMES pk = num_frames ∧
  UNIT pk = gcd_all (map (fun p => Size (h1 p)) (objects pk)
                     ++ omap (fun p => defined_offset (h1 p)) (objects pk)
                     ++ [frame_size * 8]) ∧
  UNIT pk ≠ 0 ∧
  CAP pk = FRAME_SIZE_BITS pk / UNIT pk ∧
  add_objects items h [] [] = (h1, objects pk, _groups pk).
Proof.
  unfold FormatPacker_init.
  destruct (add_objects items h [] []) as [[h' objs] grps] eqn:Hadd.
  apply add_objects_lists in Hadd as Hlists. destruct Hlists as [-> ->].
  unfold floordiv. case_decide as Hz; simpl; [done|].
  intros [= <- <-]. simpl. done.
Qed.

(** After the constructor, where every point object is listed once. *)
Lemma FormatPacker_init_group h items frame_size num_frames h1 pk g
    (k : nat) q :
  FormatPacker_init h items frame_size num_frames = Ok (h1, pk) ->
  NoDup (all_points items) ->
  IGroup g ∈ items ->
  GroupObjectList.points g !! k = Some q ->
  Period (h1 q) = GroupObjectList.Period g ∧
  Start_Frame (h1 q) = GroupObjectList.Start_Frame g ∧
  Offset (h1 q) = if decide (k = 0%nat) then GroupObjectList.Offset g else None.
Proof.
  intros Hinit Hnd Hg Hk. apply FormatPacker_init_spec in Hinit.
  destruct Hinit as (_ & _ & _ & _ & _ & _ & _ & _ & Hadd).
  by rewrite (add_objects_group _ _ _ _ _ _ _ g k q Hadd Hnd Hg Hk).
Qed.
End constructor.

(** ** C10 and C5: what group construction does to the members *)

(** C10: constructing a [GroupObjectList] overwrites, on each point passed
    to it and at once, exactly [Period], [Start_Frame] and [Offset] with
    the group's values (the offset with the group's byte offset times 8, or
    with [None]); [Name], [Size] and the solver fields keep their values,
    objects that are not members are untouched, and the group records the
    same three values.  No packer is involved. *)
Theorem group_init_overwrites_members
    (h : heap) (period : Z) (points : list loc) (name : string)
    (start_frame offset : option Z) (q : loc) :
  let h' := (GroupObjectList_init h period points name start_frame offset).1 in
  let g := (GroupObjectList_init h period points name start_frame offset).2 in
  (q ∈ points ->
     Period (h' q) = period ∧ Start_Frame (h' q) = start_frame ∧
     Offset (h' q) = to_bits offset ∧
     Name (h' q) = Name (h q) ∧ Size (h' q) = Size (h q) ∧
     start_unit (h' q) = start_unit (h q) ∧
     phase_vars (h' q) = phase_vars (h q)) ∧
  (q ∉ points -> h' q = h q) ∧
  GroupObjectList.Period g = period ∧
  GroupObjectList.Start_Frame g = start_frame ∧
  GroupObjectList.Offset g = to_bits offset ∧
  GroupObjectList.points g = points.
Proof.
  simpl. rewrite group_assign_lookup. split_and!; try done.
  - intros Hq. by rewrite decide_True.
  - intros Hq. by rewrite decide_False.
Qed.

Lemma group_init_overwrites_members_witness :
  (Period (s5_built.1 1%nat) = 16 ∧ Start_Frame (s5_built.1 1%nat) = Some 1 ∧
   Offset (s5_built.1 1%nat) = Some 64 ∧
   Name (s5_built.1 1%nat) = "B" ∧ Size (s5_built.1 1%nat) = 32 ∧
   start_unit (s5_built.1 1%nat) = None ∧ phase_vars (s5_built.1 1%nat) = []) ∧
  s5_built.1 7%nat = s5_store 7%nat.
Proof.
  split.
  - apply (group_init_overwrites_members s5_store 16 s5_members "_"
             (Some 1) (Some 8) 1%nat).
    apply (bool_decide_unpack _). vm_compute. exact I.
  - apply (group_init_overwrites_members s5_store 16 s5_members "_"
             (Some 1) (Some 8) 7%nat).
    apply (bool_decide_unpack _). vm_compute. exact I.
Defined.

(** C5, as stated, fails: right after the group of scenario S5 is
    constructed, its second and third members carry the group's offset,
    64 bits, not [None]. *)
Lemma group_init_blanks_no_offset :
  ¬ (∀ (h : heap) period points name start_frame offset (k : nat) (q : loc),
       points !! k = Some q ->
       let h' := (GroupObjectList_init h period points name start_frame offset).1 in
       let g := (GroupObjectList_init h period points name start_frame offset).2 in
       Period (h' q) = GroupObjectList.Period g ∧
       Start_Frame (h' q) = GroupObjectList.Start_Frame g ∧
       (if decide (k = 0%nat) then Offset (h' q) = GroupObjectList.Offset g
        else Offset (h' q) = None)).
Proof.
  intros H.
  specialize (H s5_store 16 s5_members "_" (Some 1) (Some 8) 1%nat 1%nat eq_refl).
  vm_compute in H. by destruct H as (_ & _ & ?).
Qed.

(** C5, amended: group construction gives every member the group's
    [Period], [Start_Frame] and [Offset], blanking nothing.  The offset is
    blanked later, by the packer's constructor: if every point object is
    listed once in the packer's input, then after the constructor each
    member of each group has the group's [Period] and [Start_Frame], the
    first member has the group's [Offset] and every other member has
    [None]. *)
Theorem group_members_share_then_packer_blanks :
  (∀ (h : heap) period points name start_frame offset (q : loc),
     q ∈ points ->
     let h' := (GroupObjectList_init h period points name start_frame offset).1 in
     let g := (GroupObjectList_init h period points name start_frame offset).2 in
     Period (h' q) = GroupObjectList.Period g ∧
     Start_Frame (h' q) = GroupObjectList.Start_Frame g ∧
     Offset (h' q) = GroupObjectList.Offset g) ∧
  (∀ (h : heap) items frame_size num_frames h1 pk g (k : nat) (q : loc),
     FormatPacker_init h items frame_size num_frames = Ok (h1, pk) ->
     NoDup (all_points items) ->
     IGroup g ∈ items ->
     GroupObjectList.points g !! k = Some q ->
     Period (h1 q) = GroupObjectList.Period g ∧
     Start_Frame (h1 q) = GroupObjectList.Start_Frame g ∧
     Offset (h1 q) = if decide (k = 0%nat) then GroupObjectList.Offset g else None).
Proof.
  split.
  - intros h period points name sf offset q Hq. simpl.
    rewrite group_assign_lookup. by rewrite decide_True.
  - intros h items fs nf h1 pk g k q Hinit Hnd Hg Hk.
    by eapply FormatPacker_init_group.
Qed.

Lemma group_members_share_then_packer_blanks_witness :
  (Period (s5_built.1 1%nat) = 16 ∧ Start_Frame (s5_built.1 1%nat) = Some 1 ∧
   Offset (s5_built.1 1%nat) = Some 64) ∧
  match s5_packer with
  | Ok (h1, pk) =>
      Period (h1 1%nat) = 16 ∧ Start_Frame (h1 1%nat) = Some 1 ∧
      Offset (h1 1%nat) = None
  | Raise _ => False
  end.
Proof.
  destruct group_members_share_then_packer_blanks as [Hinit Hpacker]. split.
  - apply (Hinit s5_store 16 s5_members "_" (Some 1) (Some 8) 1%nat).
    apply (bool_decide_unpack _). vm_compute. exact I.
  - destruct s5_packer as [[h1 pk]|e] eqn:E; [|by vm_compute in E].
    apply (Hpacker s5_built.1 [IGroup s5_built.2] 1000 32 h1 pk s5_built.2
             1%nat 1%nat E).
    + apply (bool_decide_unpack _). vm_compute. exact I.
    + by apply list_elem_of_singleton.
    + reflexivity.
Defined.

(** ** Reasoning about results *)

Lemma bind_Ok {A B} (f : A -> result B) (r : result A) (b : B) :
  (r ≫= f) = Ok b -> ∃ a, r = Ok a ∧ f a = Ok b.
Proof. destruct r as [a|e]; simpl; [eauto | discriminate]. Qed.

Lemma floordiv_Ok a b q : floordiv a b = Ok q -> b ≠ 0 ∧ q = a / b.
Proof. unfold floordiv. case_decide; [discriminate|]. by intros [= <-]. Qed.

Lemma pymod_Ok a b r : pymod a b = Ok r -> b ≠ 0 ∧ r = a mod b.
Proof. unfold pymod. case_decide; [discriminate|]. by intros [= <-]. Qed.

Lemma get_start_unit_Ok o x : get_start_unit o = Ok x -> start_unit o = Some x.
Proof. unfold get_start_unit. destruct (start_unit o); [|discriminate]. by intros [= <-]. Qed.

(** Splits a hypothesis [(x ← e; k) = Ok y] into [e = Ok x] and
    [k = Ok y]. *)
Tactic Notation "inv_bind" hyp(H) "as" ident(x) ident(Hx) :=
  apply bind_Ok in H as (x & Hx & H).

Lemma mapM_pure {A B} (f : A -> result B) (g : A -> B) (l : list A) :
  (∀ x, x ∈ l -> f x = Ok (g x)) -> mapM f l = Ok (map g l).
Proof.
  induction l as [|x l IH]; intros Hf; [done|]. simpl.
  rewrite (Hf x) by (apply elem_of_cons; auto). simpl.
  rewrite IH; [done|]. intros y Hy. apply Hf, elem_of_cons. auto.
Qed.

(** ** The model only grows *)

#[export] Instance grows_refl : Reflexive grows.
Proof. intros m. unfold grows. set_solver. Qed.

#[export] Instance grows_trans : Transitive grows.
Proof. intros m1 m2 m3. unfold grows. set_solver. Qed.

Lemma grows_Add c m : grows m (Add c m).
Proof. unfold grows. simpl. set_solver. Qed.

Lemma in_Add c m : c ∈ constraints (Add c m).
Proof. simpl. set_solver. Qed.

Lemma grows_NewIntVar lb ub m : grows m (NewIntVar lb ub m).2.
Proof. unfold grows. simpl. reflexivity. Qed.

Lemma grows_AddHint x v m : grows m (AddHint x v m).
Proof. unfold grows. simpl. reflexivity. Qed.

Lemma constraints_hint_all a xs m :
  constraints (hint_all a xs m) = constraints m.
Proof. revert m. induction xs as [|x xs IH]; intros m; simpl; [done|]. by rewrite IH. Qed.

Lemma variables_hint_all a xs m :
  variables (hint_all a xs m) = variables m.
Proof. revert m. induction xs as [|x xs IH]; intros m; simpl; [done|]. by rewrite IH. Qed.

Lemma grows_new_bool_vars n m : grows m (new_bool_vars n m).2.
Proof.
  revert m. induction n as [|n IH]; intros m; simpl; [done|].
  specialize (IH (NewBoolVar m).2).
  destruct (new_bool_vars n (NewBoolVar m).2) as [bs m2] eqn:E.
  unfold NewBoolVar in *. simpl in *. rewrite E. simpl. exact IH.
Qed.

Lemma length_new_bool_vars n m : length (new_bool_vars n m).1 = n.
Proof.
  revert m. induction n as [|n IH]; intros m; simpl; [done|].
  specialize (IH (NewBoolVar m).2).
  destruct (new_bool_vars n (NewBoolVar m).2) as [bs m2] eqn:E.
  unfold NewBoolVar in *. simpl in *. rewrite E. simpl. by f_equal.
Qed.

(** A solution satisfies each constraint of the model. *)
Lemma satisfies_holds a m c :
  satisfies a m = true -> c ∈ constraints m -> holds a c = true.
Proof.
  unfold satisfies. intros [_ H]%andb_true_iff Hc.
  rewrite forallb_forall in H. apply H. by apply list_elem_of_In.
Qed.

Lemma in_domains_lookup a x doms i lb ub :
  in_domains a x doms = true -> doms !! i = Some (lb, ub) ->
  lb <= a (x + i)%nat <= ub.
Proof.
  revert x i. induction doms as [|[lb' ub'] doms IH]; intros x i H Hi; [done|].
  simpl in H. apply andb_true_iff in H as [[Hlb Hub]%andb_true_iff H].
  destruct i as [|i]; simpl in Hi.
  - injection Hi as -> ->. rewrite Nat.add_0_r. lia.
  - replace (x + S i)%nat with (S x + i)%nat by lia. by apply IH.
Qed.

(** A solution keeps each variable within its domain. *)
Lemma satisfies_domain a m x lb ub :
  satisfies a m = true -> variables m !! x = Some (lb, ub) -> lb <= a x <= ub.
Proof.
  unfold satisfies. intros [H _]%andb_true_iff Hx.
  apply (in_domains_lookup a 0%nat _ x lb ub H Hx).
Qed.

(** ** What [_build_model] establishes *)

Section build.
Variable pk : FormatPacker.
Implicit Types (h : heap) (p q : loc) (ps : list loc) (m : CpModel).

Lemma same_input_refl o : same_input o o.
Proof. by repeat split. Qed.

Lemma same_input_trans o1 o2 o3 :
  same_input o1 o2 -> same_input o2 o3 -> same_input o1 o3.
Proof. unfold same_input. intros (?&?&?&?&?) (?&?&?&?&?). repeat split; congruence. Qed.

Lemma declared_grows m m' o : grows m m' -> declared pk m o -> declared pk m' o.
Proof.
  intros Hg (su & Hsu & Hpin & Hph). exists su. split_and!; [done|..].
  - intros off Hoff. by apply Hg, Hpin.
  - case_decide; [|done]. destruct Hph as [? ?]. split; [done|]. by apply Hg.
Qed.

Lemma linked_grows m m' P1 P2 : grows m m' -> linked pk m P1 P2 -> linked pk m' P1 P2.
Proof.
  intros Hg (su1 & su2 & H1 & H2 & Heq & Hph). exists su1, su2.
  split_and!; [done|done|by apply Hg|].
  intros Hn1 Hn2 s Hs. destruct (Hph Hn1 Hn2 s Hs) as (b1 & b2 & ? & ? & ?).
  exists b1, b2. split_and!; [done|done|by apply Hg].
Qed.

Lemma declare_point_spec p h m h' m' :
  declare_point pk p h m = Ok (h', m') ->
  UNIT pk ≠ 0 ∧ declared pk m' (h' p) ∧ same_input (h p) (h' p) ∧
  (∀ q, q ≠ p -> h' q = h q) ∧ grows m m'.
Proof.
  unfold declare_point. intros H. inv_bind H as sz Hsz.
  apply floordiv_Ok in Hsz as [Hunit ->]. cbn [NewIntVar] in H.
  inv_bind H as m2 Hx.
  assert (grows m m2 ∧
          ∀ off, Offset (h p) = Some off ->
                 EqConst (length (variables m)) (off / UNIT pk) ∈ constraints m2)
    as [Hg2 Hpin].
  { destruct (Offset (h p)) as [off|].
    - inv_bind Hx as q Hq. apply floordiv_Ok in Hq as [_ ->].
      injection Hx as <-.
      split; [unfold grows; simpl; set_solver|]. intros ? [= <-]. apply in_Add.
    - injection Hx as <-. split; [unfold grows; simpl; reflexivity|done]. }
  clear Hx.
  destruct (decide (Start_Frame (h p) = None ∧ Period (h p) > 1)) as [Hph|Hph].
  - pose proof (grows_new_bool_vars (Z.to_nat (Period (h p))) m2) as Hg3.
    pose proof (length_new_bool_vars (Z.to_nat (Period (h p))) m2) as Hlen.
    destruct (new_bool_vars (Z.to_nat (Period (h p))) m2) as [bs m3].
    simpl in Hg3, Hlen. injection H as <- <-.
    assert (grows m2 (Add (ExactlyOne bs) m3)) as Hg4
      by (etrans; [done|apply grows_Add]).
    split_and!; [done| |by rewrite fn_lookup_insert|
                 by intros; rewrite fn_lookup_insert_ne|by etrans].
    rewrite fn_lookup_insert. eexists. split_and!; [done|..].
    + intros off Hoff. simpl in Hoff. by apply Hg4, Hpin.
    + rewrite decide_True by done. simpl. split; [done|apply in_Add].
  - injection H as <- <-.
    split_and!; [done| |by rewrite fn_lookup_insert|
                 by intros; rewrite fn_lookup_insert_ne|done].
    rewrite fn_lookup_insert. eexists. split_and!; [done|..].
    + intros off Hoff. simpl in Hoff. by apply Hpin.
    + by rewrite decide_False.
Qed.

Lemma declare_points_spec ps h m h1 m1 :
  declare_points pk ps h m = Ok (h1, m1) ->
  (∀ q, same_input (h q) (h1 q)) ∧ (∀ q, q ∉ ps -> h1 q = h q) ∧
  (∀ p, p ∈ ps -> declared pk m1 (h1 p)) ∧ grows m m1 ∧
  (ps ≠ [] -> UNIT pk ≠ 0).
Proof.
  revert h m. induction ps as [|p ps IH]; intros h m H; simpl in H.
  - injection H as <- <-.
    split_and!; [intros; apply same_input_refl|done|set_solver|reflexivity|done].
  - inv_bind H as x Hx. destruct x as [h' m'].
    apply declare_point_spec in Hx as (Hunit & Hdecl & Hsame & Hother & Hg).
    apply IH in H as (Hsame' & Hother' & Hdecl' & Hg' & _).
    split_and!; [| | |by etrans|done].
    + intros q. eapply same_input_trans; [|apply Hsame'].
      destruct (decide (q = p)) as [->|Hne]; [done|].
      rewrite Hother by done. apply same_input_refl.
    + intros q [Hne Hq]%not_elem_of_cons. by rewrite Hother', Hother.
    + intros q Hq. destruct (decide (q ∈ ps)) as [Hin|Hin]; [by apply Hdecl'|].
      apply elem_of_cons in Hq as [->|Hq]; [|done].
      rewrite Hother' by done. by eapply declared_grows.
Qed.

Lemma equate_phases_spec ss pv1 pv2 m m' :
  equate_phases ss pv1 pv2 m = Ok m' ->
  grows m m' ∧
  ∀ s, s ∈ ss -> ∃ b1 b2, pv1 !! s = Some b1 ∧ pv2 !! s = Some b2 ∧
                          EqVar b2 b1 ∈ constraints m'.
Proof.
  revert m. induction ss as [|s ss IH]; intros m H; simpl in H.
  - injection H as <-. split; [reflexivity|set_solver].
  - destruct (pv2 !! s) as [b2|] eqn:E2; [|done].
    destruct (pv1 !! s) as [b1|] eqn:E1; [|done].
    apply IH in H as [Hg Hss].
    assert (grows m m') as Hg' by (etrans; [apply grows_Add|done]).
    split; [done|]. intros s' [->|Hs']%elem_of_cons; [|by apply Hss].
    exists b1, b2. split_and!; [done|done|]. apply Hg, in_Add.
Qed.

Lemma link_spec P1 P2 m m' :
  link pk P1 P2 m = Ok m' -> grows m m' ∧ linked pk m' P1 P2.
Proof.
  unfold link. intros H. inv_bind H as m1 Hx. inv_bind H as x0 Hx0.
  inv_bind H as x1 Hx1. inv_bind H as q Hq. apply floordiv_Ok in Hq as [_ ->].
  apply get_start_unit_Ok in Hx0, Hx1. injection H as <-.
  assert (grows m m1 ∧
          (phase_vars P1 ≠ [] -> phase_vars P2 ≠ [] ->
           ∀ s, (s < Z.to_nat (Period P1))%nat ->
             ∃ b1 b2, phase_vars P1 !! s = Some b1 ∧
                      phase_vars P2 !! s = Some b2 ∧
                      EqVar b2 b1 ∈ constraints m1)) as [Hg Hph].
  { destruct (phase_vars P1) as [|b1 pv1]; [by injection Hx as <-|].
    destruct (phase_vars P2) as [|b2 pv2]; [by injection Hx as <-|].
    apply equate_phases_spec in Hx as [Hg Hss]. split; [done|].
    intros _ _ s Hs. apply Hss. apply list_elem_of_In, in_seq. lia. }
  split; [etrans; [done|apply grows_Add]|].
  exists x1, x0. split_and!; [done|done| |].
  - apply in_Add.
  - intros Hn1 Hn2 s Hs. destruct (Hph Hn1 Hn2 s Hs) as (b1 & b2 & ? & ? & ?).
    exists b1, b2. split_and!; [done|done|]. by apply grows_Add.
Qed.

Lemma chain_spec h ps m m' :
  chain pk h ps m = Ok m' ->
  grows m m' ∧
  ∀ i p1 p2, ps !! i = Some p1 -> ps !! S i = Some p2 ->
             linked pk m' (h p1) (h p2).
Proof.
  revert m. induction ps as [|p1 ps IH]; intros m H; simpl in H.
  - injection H as <-. split; [reflexivity|done].
  - destruct ps as [|p2 ps].
    + injection H as <-. split; [reflexivity|]. by intros [|i] ?? ?.
    + inv_bind H as m1 Hx. apply link_spec in Hx as [Hg Hl].
      apply IH in H as [Hg' Hl']. split; [by etrans|].
      intros [|i] q1 q2 H1 H2.
      * injection H1 as <-. injection H2 as <-. by eapply linked_grows.
      * by apply (Hl' i).
Qed.

Lemma chain_groups_spec h gs m m' :
  chain_groups pk h gs m = Ok m' ->
  grows m m' ∧
  ∀ g i p1 p2, g ∈ gs ->
    GroupObjectList.points g !! i = Some p1 ->
    GroupObjectList.points g !! S i = Some p2 ->
    linked pk m' (h p1) (h p2).
Proof.
  revert m. induction gs as [|g gs IH]; intros m H; simpl in H.
  - injection H as <-. split; [reflexivity|set_solver].
  - inv_bind H as m1 Hx. apply chain_spec in Hx as [Hg Hl].
    apply IH in H as [Hg' Hl']. split; [by etrans|].
    intros g' i p1 p2 [->|Hin]%elem_of_cons H1 H2.
    + eapply linked_grows; [done|]. by apply (Hl i).
    + by apply (Hl' g' i).
Qed.

Lemma add_frames_grows h frames m m' :
  add_frames pk h frames m = Ok m' -> grows m m'.
Proof.
  revert m. induction frames as [|f frames IH]; intros m H; simpl in H.
  - by injection H as <-.
  - inv_bind H as ivs Hivs. apply IH in H. etrans; [apply grows_Add|done].
Qed.

Lemma total_util_expr_Ok h ps u :
  total_util_expr pk h ps = Ok u -> ∀ p, p ∈ ps -> Period (h p) ≠ 0.
Proof.
  revert u. induction ps as [|p ps IH]; intros u H; simpl in H; [set_solver|].
  inv_bind H as q Hq. inv_bind H as s Hs. apply floordiv_Ok in Hq as [Hne _].
  intros p' [->|Hp']%elem_of_cons; [done|]. by eapply IH.
Qed.

Lemma end_units_grows h ps m ebs m' :
  end_units pk h ps m = Ok (ebs, m') -> grows m m'.
Proof.
  revert m ebs. induction ps as [|p ps IH]; intros m ebs H; simpl in H.
  - by injection H as _ <-.
  - inv_bind H as su Hsu. inv_bind H as q Hq. inv_bind H as x1 Hx1.
    destruct x1 as [ebs' m2].
    injection H as _ <-. apply IH in Hx1. etrans; [|done].
    etrans; [|apply grows_Add]. unfold grows. simpl. reflexivity.
Qed.

Lemma _build_model_spec h h1 bm :
  _build_model pk h = Ok (h1, bm) ->
  (∀ q, same_input (h q) (h1 q)) ∧
  (∀ q, q ∉ objects pk -> h1 q = h q) ∧
  (∀ p, p ∈ objects pk -> declared pk (model bm) (h1 p)) ∧
  (∀ g i p1 p2, g ∈ _groups pk ->
     GroupObjectList.points g !! i = Some p1 ->
     GroupObjectList.points g !! S i = Some p2 ->
     linked pk (model bm) (h1 p1) (h1 p2)) ∧
  (∀ p, p ∈ objects pk -> Period (h1 p) ≠ 0) ∧
  (objects pk ≠ [] -> UNIT pk ≠ 0).
Proof.
  unfold _build_model. intros H. inv_bind H as x Hx. destruct x as [h' m1].
  inv_bind H as m2 Hx0. inv_bind H as m3 Hx1.
  inv_bind H as u Hu. cbn [NewConstant NewIntVar] in H.
  inv_bind H as y Hx3. destruct y as [ebs m5]. cbn [NewIntVar] in H.
  injection H as <- <-.
  apply declare_points_spec in Hx as (Hsame & Hother & Hdecl & _ & Hunit).
  apply chain_groups_spec in Hx0 as [Hg2 Hlink].
  apply add_frames_grows in Hx1. apply end_units_grows in Hx3.
  assert (grows m2 (Add (MaxEquality (length (variables m5)) ebs)
                      (mkCpModel (variables m5 ++ [(0, CAP pk)])
                         (constraints m5) (objective m5) (hints m5)))) as Hg.
  { etrans; [done|]. etrans; [|apply grows_Add].
    etrans; [|done]. unfold grows. simpl. reflexivity. }
  simpl. split_and!; [done|done| | |by eapply total_util_expr_Ok|done].
  - intros p Hp. eapply declared_grows; [|by apply Hdecl]. by etrans.
  - intros g i p1 p2 Hin H1 H2. eapply linked_grows; [done|]. by eapply Hlink.
Qed.
End build.

(** ** What [pack] establishes *)

Section pack.
Variable Solve : CpSolver.
Variable pk : FormatPacker.

Lemma add_hints_constraints a (h : heap) ps m m' :
  add_hints a h ps m = Ok m' ->
  constraints m' = constraints m ∧ variables m' = variables m.
Proof.
  revert m. induction ps as [|p ps IH]; intros m H; simpl in H.
  - by injection H as <-.
  - inv_bind H as su Hsu. apply IH in H as [-> ->].
    by rewrite constraints_hint_all, variables_hint_all.
Qed.

(** The model the second stage solves is the built model with the
    utilization frozen; the values come from that solve. *)
Lemma _solve_spec (h : heap) bm m a :
  _solve Solve pk h bm = Ok (m, a) ->
  (∃ u, constraints m = constraints (model bm) ++ [EqConst (total_util bm) u]) ∧
  variables m = variables (model bm) ∧
  ∃ st, Solve m = (st, a) ∧ found_solution st = true.
Proof.
  unfold _solve. intros H.
  destruct (Solve _) as [status1 a1]. destruct (found_solution status1); [|done].
  inv_bind H as m2 Hm2. apply add_hints_constraints in Hm2 as [Hc Hv].
  destruct (Solve _) as [status2 a2] eqn:E2.
  destruct (found_solution status2) eqn:Hst; [|done]. injection H as <- <-.
  split_and!.
  - eexists. simpl. by rewrite Hc.
  - simpl. by rewrite Hv.
  - by exists status2.
Qed.

Lemma pack_spec (h : heap) pd :
  pack Solve pk h = Ok pd ->
  ∃ bm, _build_model pk h = Ok (store pd, bm) ∧
        grows (model bm) (solved_model pd) ∧
        ∃ st, Solve (solved_model pd) = (st, Value pd) ∧ found_solution st = true.
Proof.
  unfold pack. intros H. inv_bind H as x Hx. destruct x as [h1 bm].
  inv_bind H as y Hy. destruct y as [m a]. injection H as <-. simpl.
  apply _solve_spec in Hy as ([u Hc] & _ & Hst).
  exists bm. split_and!; [done| |done]. unfold grows. rewrite Hc. set_solver.
Qed.

(** The facts about a packed state the properties below rest on. *)
Lemma packed_facts (h : heap) pd :
  pack Solve pk h = Ok pd ->
  (∀ q, same_input (h q) (store pd q)) ∧
  (∀ p, p ∈ objects pk -> declared pk (solved_model pd) (store pd p)) ∧
  (∀ g i p1 p2, g ∈ _groups pk ->
     GroupObjectList.points g !! i = Some p1 ->
     GroupObjectList.points g !! S i = Some p2 ->
     linked pk (solved_model pd) (store pd p1) (store pd p2)) ∧
  (∀ p, p ∈ objects pk -> Period (store pd p) ≠ 0) ∧
  (objects pk ≠ [] -> UNIT pk ≠ 0).
Proof.
  intros (bm & Hbm & Hg & _)%pack_spec.
  apply _build_model_spec in Hbm as (Hsame & _ & Hdecl & Hlink & Hper & Hunit).
  split_and!; [done| | |done|done].
  - intros p Hp. eapply declared_grows; [done|by apply Hdecl].
  - intros g i p1 p2 Hin H1 H2. eapply linked_grows; [done|by eapply Hlink].
Qed.
End pack.

(** ** C8: a pinned offset is reported exactly *)

Lemma gcd_all_divides (l : list Z) (x : Z) : x ∈ l -> (gcd_all l | x).
Proof.
  induction l as [|y l IH]; intros Hx; [by apply elem_of_nil in Hx|].
  simpl. apply elem_of_cons in Hx as [->|Hx].
  - apply Z.gcd_divide_l.
  - etrans; [apply Z.gcd_divide_r|by apply IH].
Qed.

(** [UNIT] divides the size and the offset of every object of the packer,
    and the frame width. *)
Lemma UNIT_divides h items frame_size num_frames h1 pk :
  FormatPacker_init h items frame_size num_frames = Ok (h1, pk) ->
  (UNIT pk | FRAME_SIZE_BITS pk) ∧
  ∀ p, p ∈ objects pk ->
    (UNIT pk | Size (h1 p)) ∧ ∀ off, Offset (h1 p) = Some off -> (UNIT pk | off).
Proof.
  intros (_ & _ & _ & Hbits & _ & Hunit & _)%FormatPacker_init_spec.
  rewrite Hunit, Hbits. split.
  - apply gcd_all_divides. set_solver.
  - intros p Hp. split.
    + apply gcd_all_divides, elem_of_app. left.
      apply list_elem_of_fmap. by exists p.
    + intros off Hoff. destruct (decide (off = 0)) as [->|Hne].
      * apply Z.divide_0_r.
      * apply gcd_all_divides, elem_of_app. right. apply elem_of_app. left.
        apply list_elem_of_omap. exists p. split; [done|].
        unfold defined_offset. rewrite Hoff. by rewrite decide_False.
Qed.

Lemma div_mul_divides (u x : Z) : u ≠ 0 -> (u | x) -> x / u * u = x.
Proof. intros Hu [k ->]. by rewrite Z.div_mul. Qed.

(** An object that occurs in a frame has its entry there, with its name
    and its start bit. *)
Lemma frame_entries_elem pk a (h : heap) ps frame entries p b :
  frame_entries pk a h ps frame = Ok entries ->
  p ∈ ps ->
  in_frame a (h p) frame = Ok true ->
  start_bit pk a (h p) = Ok b ->
  (Name (h p), b) ∈ entries.
Proof.
  revert entries. induction ps as [|q ps IH]; intros entries H Hp Hin Hb;
    [by apply elem_of_nil in Hp|].
  simpl in H. inv_bind H as sb Hsb. inv_bind H as fl Hfl. inv_bind H as tl Htl.
  injection H as <-. apply elem_of_cons in Hp as [->|Hp].
  - rewrite Hin in Hfl. injection Hfl as <-. rewrite Hb in Hsb.
    injection Hsb as <-. apply elem_of_cons. by left.
  - specialize (IH tl Htl Hp Hin Hb). destruct fl; [|done].
    apply elem_of_cons. by right.
Qed.

(** C8: in a pack that succeeded with a solution of the emitted model,
    every point whose offset is set is reported at exactly that offset:
    [start_bit = Value(start_unit) * UNIT = offset], and that is the bit
    entered for it in every frame in which it occurs.  Nothing is lost by
    the pin [start_unit == offset // UNIT] because [UNIT] divides the
    offset. *)
Theorem pinned_offset_reported
    (Solve : CpSolver) (h : heap) (items : list item) (frame_size num_frames : Z)
    (h1 : heap) (pk : FormatPacker) (pd : Packed) (p : loc) (off : Z) :
  FormatPacker_init h items frame_size num_frames = Ok (h1, pk) ->
  pack Solve pk h1 = Ok pd ->
  satisfies (Value pd) (solved_model pd) = true ->
  p ∈ objects pk ->
  Offset (h1 p) = Some off ->
  (UNIT pk | off) ∧
  Offset (store pd p) = Some off ∧
  start_bit pk (Value pd) (store pd p) = Ok off ∧
  ∀ frame entries,
    frame_entries pk (Value pd) (store pd) (objects pk) frame = Ok entries ->
    in_frame (Value pd) (store pd p) frame = Ok true ->
    (Name (store pd p), off) ∈ entries.
Proof.
  intros Hinit Hpack Hsat Hp Hoff.
  pose proof (UNIT_divides _ _ _ _ _ _ Hinit) as [_ Hdiv].
  destruct (Hdiv p Hp) as [_ Hdivoff]. specialize (Hdivoff off Hoff).
  apply FormatPacker_init_spec in Hinit as (_&_&_&_&_&_& Hunit &_).
  apply packed_facts in Hpack as (Hsame & Hdecl & _).
  destruct (Hsame p) as (_ & _ & _ & _ & Hoff').
  rewrite Hoff in Hoff'.
  destruct (Hdecl p Hp) as (su & Hsu & Hpin & _).
  specialize (Hpin off Hoff').
  apply (satisfies_holds _ _ _ Hsat) in Hpin. simpl in Hpin.
  apply Z.eqb_eq in Hpin.
  assert (start_bit pk (Value pd) (store pd p) = Ok off) as Hbit.
  { unfold start_bit, get_start_unit. rewrite Hsu. simpl.
    by rewrite Hpin, div_mul_divides. }
  split_and!; [done|done|done|].
  intros frame entries Hentries Hin. by eapply frame_entries_elem.
Qed.

Lemma pinned_offset_reported_witness :
  (UNIT s3_packer | 64) ∧
  Offset (store s3_packed 0%nat) = Some 64 ∧
  start_bit s3_packer (Value s3_packed) (store s3_packed 0%nat) = Ok 64 ∧
  ∀ frame entries,
    frame_entries s3_packer (Value s3_packed) (store s3_packed)
      (objects s3_packer) frame = Ok entries ->
    in_frame (Value s3_packed) (store s3_packed 0%nat) frame = Ok true ->
    (Name (store s3_packed 0%nat), 64) ∈ entries.
Proof.
  apply (pinned_offset_reported s3_solver s3_store [IPoint 0%nat] 1000 32
           s3_store s3_packer s3_packed 0%nat 64).
  - vm_compute. reflexivity.
  - vm_compute. reflexivity.
  - vm_compute. reflexivity.
  - apply (bool_decide_unpack _). vm_compute. exact I.
  - vm_compute. reflexivity.
Defined.

(** ** C2 and C3: how often a point occurs *)

Lemma count_true_app l1 l2 : count_true (l1 ++ l2) = count_true l1 + count_true l2.
Proof. unfold count_true. rewrite filter_app, length_app. lia. Qed.

Lemma div_step (d p : Z) :
  1 <= p -> 1 <= d ->
  d / p = (d - 1) / p + (if decide (d mod p = 0) then 1 else 0).
Proof.
  intros Hp Hd. pose proof (Z.div_mod d p ltac:(lia)) as Hdm.
  pose proof (Z.mod_pos_bound d p ltac:(lia)) as Hb.
  case_decide as Hr.
  - rewrite <- (Z.div_unique (d - 1) p (d / p - 1) (p - 1)); lia.
  - rewrite <- (Z.div_unique (d - 1) p (d / p) (d mod p - 1)); lia.
Qed.

Lemma count_every (c p : Z) (n : nat) :
  0 <= c -> 1 <= p ->
  count_true (map (every c p) (seqZ 0 (Z.of_nat n)))
  = expected_frequency c p (Z.of_nat n).
Proof.
  intros Hc Hp. unfold expected_frequency. induction n as [|n IH].
  - simpl. case_decide; [lia|done].
  - rewrite seqZ_S, map_app, count_true_app, IH. clear IH.
    rewrite Z.add_0_l. cbn [map].
    assert (count_true [every c p (Z.of_nat n)]
            = if every c p (Z.of_nat n) then 1 else 0) as ->
      by (by destruct (every c p (Z.of_nat n))).
    unfold every. destruct (decide (c <= Z.of_nat n)) as [Hle|Hgt].
    + rewrite (decide_True (P := c < Z.of_nat (S n))) by lia.
      destruct (decide (c = Z.of_nat n)) as [->|Hne].
      * rewrite decide_False by lia.
        replace (Z.of_nat (S n) - 1 - Z.of_nat n) with 0 by lia.
        rewrite Z.sub_diag, Z.mod_0_l, Z.div_0_l by lia.
        rewrite bool_decide_eq_true_2 by lia. done.
      * rewrite decide_True by lia.
        replace (Z.of_nat (S n) - 1 - c) with (Z.of_nat n - c) by lia.
        replace (Z.of_nat n - 1 - c) with (Z.of_nat n - c - 1) by lia.
        rewrite (div_step (Z.of_nat n - c) p) by lia.
        case_decide as Hr.
        -- rewrite bool_decide_eq_true_2 by lia. lia.
        -- rewrite bool_decide_eq_false_2 by lia. lia.
    + rewrite !decide_False by lia.
      rewrite bool_decide_eq_false_2 by lia. done.
Qed.

Lemma range_nonpos n : n <= 0 -> range n = [].
Proof. apply seqZ_nil. Qed.

(** Counting over [range(num_frames)], for every integer [num_frames]. *)
Lemma count_every_range (c p num_frames : Z) :
  0 <= c -> 1 <= p ->
  count_true (map (every c p) (range num_frames))
  = expected_frequency c p num_frames.
Proof.
  intros Hc Hp. destruct (decide (0 <= num_frames)) as [Hn|Hn].
  - rewrite <- (Z2Nat.id num_frames) by done. by apply count_every.
  - rewrite range_nonpos by lia. unfold expected_frequency.
    by rewrite decide_False by lia.
Qed.

(** For a phase [s] within the period, "[f % p == s]" is "every [p]
    frames from [s]". *)
Lemma mod_eq_every (s p f : Z) :
  0 <= s < p -> 0 <= f -> bool_decide (f mod p = s) = every s p f.
Proof.
  intros Hs Hf. unfold every. apply bool_decide_ext. split.
  - intros Hm. pose proof (Z.div_mod f p ltac:(lia)) as Hdm.
    pose proof (Z.div_pos f p ltac:(lia) ltac:(lia)).
    split; [nia|]. replace (f - s) with (f / p * p) by lia.
    apply Z.mod_mul. lia.
  - intros [Hge Hm]. apply Z.mod_divide in Hm as [k Hk]; [|lia].
    replace f with (s + k * p) by lia.
    rewrite Z.mod_add by lia. apply Z.mod_small. lia.
Qed.

Lemma first_true_bounds a i pvs s :
  first_true a i pvs = Ok s -> (i <= s < i + length pvs)%nat.
Proof.
  revert i. induction pvs as [|pv pvs IH]; intros i H; simpl in H; [done|].
  destruct (truthy a pv).
  - injection H as <-. simpl. lia.
  - apply IH in H. simpl. lia.
Qed.

Lemma first_true_some a i pvs :
  filter (fun b => truthy a b = true) pvs ≠ [] -> ∃ s, first_true a i pvs = Ok s.
Proof.
  revert i. induction pvs as [|pv pvs IH]; intros i H; [done|]. simpl.
  destruct (truthy a pv) eqn:E; [by eexists|].
  apply IH. by rewrite filter_cons_False in H by (by rewrite E).
Qed.

(** Where exactly one phase variable is true, a phase is found. *)
Lemma ExactlyOne_first_true a pvs :
  holds a (ExactlyOne pvs) = true ->
  ∃ s, first_true a 0 pvs = Ok s ∧ (s < length pvs)%nat.
Proof.
  simpl. intros H%Nat.eqb_eq.
  destruct (first_true_some a 0%nat pvs) as [s Hs].
  - intros Hnil. by rewrite Hnil in H.
  - exists s. split; [done|]. apply first_true_bounds in Hs. lia.
Qed.

Lemma in_frame_pinned a o f :
  phase_vars o = [] -> Period o ≠ 0 ->
  in_frame a o f = Ok (every (or_zero (Start_Frame o)) (Period o) f).
Proof.
  intros Hpv Hp. unfold in_frame, every, pymod. rewrite Hpv.
  rewrite (decide_False (P := Period o = 0)) by done.
  case_decide as Hge; simpl.
  - f_equal. apply bool_decide_ext. tauto.
  - by rewrite bool_decide_eq_false_2 by tauto.
Qed.

Lemma in_frame_phase a o f s :
  phase_vars o ≠ [] -> first_true a 0 (phase_vars o) = Ok s ->
  0 <= Z.of_nat s < Period o -> 0 <= f ->
  in_frame a o f = Ok (every (Z.of_nat s) (Period o) f).
Proof.
  intros Hpv Hs Hlt Hf. unfold in_frame, pymod. rewrite Hs.
  destruct (phase_vars o); [done|]. simpl.
  rewrite decide_False by lia. simpl. by rewrite mod_eq_every.
Qed.

Lemma elem_of_range f n : f ∈ range n -> 0 <= f < n.
Proof. unfold range. rewrite elem_of_seqZ. lia. Qed.

(** The occurrences of a declared object in a solution: as many as every
    [Period] frames from its chosen phase gives. *)
Lemma occurrences_declared pk m a o num_frames :
  declared pk m o -> satisfies a m = true ->
  1 <= Period o -> (∀ sf, Start_Frame o = Some sf -> 0 <= sf) ->
  ∃ c, chosen_phase a o = Ok c ∧ 0 <= c ∧
       (has_phases o -> c < Period o) ∧
       (¬ has_phases o -> c = or_zero (Start_Frame o)) ∧
       occurrences a o num_frames
       = Ok (expected_frequency c (Period o) num_frames).
Proof.
  intros (su & _ & _ & Hph) Hsat Hp Hsf.
  unfold occurrences, schedule_flags, chosen_phase.
  destruct (decide (has_phases o)) as [Hhas|Hnot].
  - destruct Hph as [Hlen Hone].
    apply (satisfies_holds _ _ _ Hsat), ExactlyOne_first_true in Hone
      as (s & Hs & Hlt).
    assert (phase_vars o ≠ []) as Hne
      by (intros E; rewrite E in Hlt; simpl in Hlt; lia).
    exists (Z.of_nat s). rewrite Hs.
    destruct (phase_vars o) eqn:E; [done|]. rewrite <- E in *.
    split_and!; [done|lia|lia|done|].
    rewrite (mapM_pure _ (every (Z.of_nat s) (Period o))).
    + simpl. by rewrite count_every_range by lia.
    + intros f Hf%elem_of_range. apply in_frame_phase; [done|done|lia|lia].
  - exists (or_zero (Start_Frame o)). rewrite Hph.
    assert (0 <= or_zero (Start_Frame o)) as Hc.
    { destruct (Start_Frame o) as [sf|]; simpl; [by apply Hsf|done]. }
    split_and!; [done|done|done|done|].
    rewrite (mapM_pure _ (every (or_zero (Start_Frame o)) (Period o))).
    + simpl. by rewrite count_every_range by lia.
    + intros f _. apply in_frame_pinned; [done|lia].
Qed.

(** With a period that divides the number of frames every phase gives the
    same count. *)
Lemma expected_frequency_phase (s p num_frames : Z) :
  0 <= s < p -> (p | num_frames) ->
  expected_frequency s p num_frames = expected_frequency 0 p num_frames.
Proof.
  intros Hs [k ->]. unfold expected_frequency.
  destruct (decide (0 < k * p)) as [Hpos|Hneg].
  - assert (1 <= k) by nia.
    rewrite !decide_True by nia. f_equal.
    rewrite <- (Z.div_unique (k * p - 1 - s) p (k - 1) (p - 1 - s)) by lia.
    rewrite <- (Z.div_unique (k * p - 1 - 0) p (k - 1) (p - 1)) by lia. done.
  - by rewrite !decide_False by lia.
Qed.

(** C3, as stated, fails where the period does not divide the number of
    frames: in the five-frame example, every solution of the model puts B
    in phase 1, where it occurs in frames 1 and 3, twice, while the
    formula gives [1 + (5 - 1 - 0) div 2 = 3]. *)
Lemma frequency_formula_fails_for_phase :
  FormatPacker_init c3_store [IPoint 0%nat; IPoint 1%nat] 1 5
    = Ok (c3_store, c3_packer) ∧
  pack c3_solver c3_packer c3_store = Ok c3_packed ∧
  satisfies (Value c3_packed) (solved_model c3_packed) = true ∧
  Start_Frame (store c3_packed 1%nat) = None ∧
  Period (store c3_packed 1%nat) = 2 ∧
  expected_frequency 0 2 5 = 3 ∧
  ∀ a, satisfies a (solved_model c3_packed) = true ->
       occurrences a (store c3_packed 1%nat) 5 = Ok 2.
Proof.
  split_and!; try (vm_compute; reflexivity).
  intros a Hsat.
  assert (holds a (ExactlyOne [2%nat; 3%nat]) = true) as Hone.
  { apply (satisfies_holds _ _ _ Hsat), list_elem_of_In. vm_compute. tauto. }
  assert (holds a (NoOverlap [mkIntervalVar 0%nat 1 None;
                              mkIntervalVar 1%nat 1 (Some 2%nat)]) = true)
    as Hno.
  { apply (satisfies_holds _ _ _ Hsat), list_elem_of_In. vm_compute. tauto. }
  assert (a 0%nat = 0 ∧ a 1%nat = 0) as [H0 H1].
  { pose proof (satisfies_domain a _ 0%nat 0 0 Hsat) as Ha0.
    pose proof (satisfies_domain a _ 1%nat 0 0 Hsat) as Ha1.
    split; [apply Z.le_antisymm; apply Ha0|apply Z.le_antisymm; apply Ha1];
      vm_compute; reflexivity. }
  replace (store c3_packed 1%nat)
    with (set_solver_vars 1%nat [2%nat; 3%nat]
            (PointObject_init "B" 8 2 None None))
    by (vm_compute; reflexivity).
  simpl in Hno. unfold apart, present in Hno. simpl in Hno.
  rewrite H0, H1 in Hno.
  change (0 + 1 <=? 0) with false in Hno.
  rewrite !andb_true_r, !orb_false_r in Hno.
  apply negb_true_iff in Hno.
  assert (truthy a 3%nat = true) as H3.
  { destruct (truthy a 3%nat) eqn:H3; [done|]. cbn [holds] in Hone.
    rewrite filter_cons_False in Hone by (by rewrite Hno).
    by rewrite filter_cons_False in Hone by (by rewrite H3). }
  unfold occurrences, schedule_flags.
  rewrite (mapM_pure (in_frame a _) (every 1 2) (range 5)).
  - vm_compute. reflexivity.
  - intros f Hf%elem_of_range.
    etrans; [apply (in_frame_phase a _ f 1%nat)|reflexivity];
      [done| |simpl; lia|lia].
    cbn [phase_vars set_solver_vars first_true]. by rewrite Hno, H3.
Qed.

(** C3, amended: in a pack that succeeded with a solution of the emitted
    model, a point with a period of at least 1 and a start frame that, when
    set, is not negative occurs [1 + (num_frames - 1 - c) div period] times
    when [c < num_frames] and never otherwise, where [c] is its chosen
    phase: the start frame when set, 0 when the period is 1, and else the
    phase the solver chose.  That is the count P1 states, with
    [c = start_frame or 0], whenever the start frame is set, the period is
    1, or the period divides the number of frames. *)
Theorem frequency_from_chosen_phase
    (Solve : CpSolver) (h : heap) (items : list item) (frame_size num_frames : Z)
    (h1 : heap) (pk : FormatPacker) (pd : Packed) (p : loc) :
  FormatPacker_init h items frame_size num_frames = Ok (h1, pk) ->
  pack Solve pk h1 = Ok pd ->
  satisfies (Value pd) (solved_model pd) = true ->
  p ∈ objects pk ->
  1 <= Period (h1 p) ->
  (∀ sf, Start_Frame (h1 p) = Some sf -> 0 <= sf) ->
  NUM_FRAMES pk = num_frames ∧
  ∃ c, chosen_phase (Value pd) (store pd p) = Ok c ∧
       occurrences (Value pd) (store pd p) num_frames
       = Ok (expected_frequency c (Period (h1 p)) num_frames) ∧
       (Start_Frame (h1 p) ≠ None ∨ Period (h1 p) = 1 ∨
        (Period (h1 p) | num_frames) ->
        occurrences (Value pd) (store pd p) num_frames
        = Ok (expected_frequency (or_zero (Start_Frame (h1 p)))
                (Period (h1 p)) num_frames)).
Proof.
  intros Hinit Hpack Hsat Hp Hper Hsf.
  apply FormatPacker_init_spec in Hinit as (_&_&_&_& Hnf &_).
  split; [done|].
  apply packed_facts in Hpack as (Hsame & Hdecl & _).
  destruct (Hsame p) as (_ & _ & HP & HSF & _).
  rewrite <- HP, <- HSF in *.
  destruct (occurrences_declared pk _ _ _ num_frames (Hdecl p Hp) Hsat Hper Hsf)
    as (c & Hc & Hc0 & Hlt & Heq & Hocc).
  exists c. split_and!; [done|done|]. intros Hcase. rewrite Hocc.
  destruct (decide (has_phases (store pd p))) as [Hhas|Hnot].
  - destruct Hhas as [Hnone Hgt]. rewrite Hnone in *. simpl.
    destruct Hcase as [?|[?|Hdiv]]; [done|lia|].
    f_equal. apply expected_frequency_phase; [|done].
    split; [done|]. by apply Hlt.
  - by rewrite (Heq Hnot).
Qed.

Lemma frequency_from_chosen_phase_witness :
  NUM_FRAMES s3_packer = 32 ∧
  ∃ c, chosen_phase (Value s3_packed) (store s3_packed 0%nat) = Ok c ∧
       occurrences (Value s3_packed) (store s3_packed 0%nat) 32
       = Ok (expected_frequency c (Period (s3_store 0%nat)) 32) ∧
       (Start_Frame (s3_store 0%nat) ≠ None ∨ Period (s3_store 0%nat) = 1 ∨
        (Period (s3_store 0%nat) | 32) ->
        occurrences (Value s3_packed) (store s3_packed 0%nat) 32
        = Ok (expected_frequency (or_zero (Start_Frame (s3_store 0%nat)))
                (Period (s3_store 0%nat)) 32)).
Proof.
  apply (frequency_from_chosen_phase s3_solver s3_store [IPoint 0%nat] 1000 32
           s3_store s3_packer s3_packed 0%nat).
  - vm_compute. reflexivity.
  - vm_compute. reflexivity.
  - vm_compute. reflexivity.
  - apply (bool_decide_unpack _). vm_compute. exact I.
  - vm_compute. discriminate.
  - intros sf Hsf. vm_compute in Hsf. discriminate.
Defined.

(** C2, as stated, fails: H has its start frame set, 1 < 32, and occurs in
    the 31 frames 1..31, fewer than [32 div 1 = 32]; [total_util] counts
    [64 * 32 = 2048] bits for it where [64 * 31 = 1984] are placed. *)
Lemma pinned_point_occurs_less_often :
  FormatPacker_init c2_store [IPoint 0%nat] 1000 32 = Ok (c2_store, c2_packer) ∧
  pack c2_solver c2_packer c2_store = Ok c2_packed ∧
  satisfies (Value c2_packed) (solved_model c2_packed) = true ∧
  Start_Frame (store c2_packed 0%nat) = Some 1 ∧
  Period (store c2_packed 0%nat) = 1 ∧
  occurrences (Value c2_packed) (store c2_packed 0%nat) 32 = Ok 31 ∧
  ¬ (32 / 1 <= 31) ∧
  total_util_expr c2_packer (store c2_packed) (objects c2_packer) = Ok 2048 ∧
  64 * 31 < 2048.
Proof.
  split_and!; try (vm_compute; reflexivity).
  intros H. vm_compute in H. by apply H.
Qed.

(** C2, amended: a point with a period of at least 1 whose start frame is
    set, with [0 <= start_frame < num_frames], occurs in exactly
    [1 + (num_frames - 1 - start_frame) div period] frames; that is at
    least [num_frames div period] exactly when
    [start_frame < period + num_frames mod period], and then the point's
    term [size * (num_frames div period)] of [total_util] does not exceed
    the bits placed for it. *)
Theorem pinned_count_and_total_util
    (Solve : CpSolver) (h : heap) (items : list item) (frame_size num_frames : Z)
    (h1 : heap) (pk : FormatPacker) (pd : Packed) (p : loc) (sf : Z) :
  FormatPacker_init h items frame_size num_frames = Ok (h1, pk) ->
  pack Solve pk h1 = Ok pd ->
  p ∈ objects pk ->
  Start_Frame (h1 p) = Some sf ->
  0 <= sf < num_frames ->
  1 <= Period (h1 p) ->
  let n := 1 + (num_frames - 1 - sf) / Period (h1 p) in
  occurrences (Value pd) (store pd p) (NUM_FRAMES pk) = Ok n ∧
  (num_frames / Period (h1 p) <= n
   <-> sf < Period (h1 p) + num_frames mod Period (h1 p)) ∧
  (0 <= Size (h1 p) ->
   sf < Period (h1 p) + num_frames mod Period (h1 p) ->
   Size (h1 p) * (num_frames / Period (h1 p)) <= Size (h1 p) * n).
Proof.
  intros Hinit Hpack Hp Hsf Hrange Hper n.
  apply FormatPacker_init_spec in Hinit as (_&_&_&_& Hnf &_). rewrite Hnf.
  apply packed_facts in Hpack as (Hsame & Hdecl & _).
  destruct (Hsame p) as (_ & _ & HP & HSF & _).
  destruct (Hdecl p Hp) as (su & _ & _ & Hph).
  rewrite decide_False in Hph by (unfold has_phases; rewrite HSF, Hsf; by intros []).
  assert (num_frames / Period (h1 p) <= n
          <-> sf < Period (h1 p) + num_frames mod Period (h1 p)) as Hiff.
  { unfold n. pose proof (Z.div_mod num_frames (Period (h1 p)) ltac:(lia)) as Hdm.
    pose proof (Z.mod_pos_bound num_frames (Period (h1 p)) ltac:(lia)) as Hb.
    set (q := num_frames / Period (h1 p)) in *.
    set (r := num_frames mod Period (h1 p)) in *.
    split.
    - intros Hle.
      assert (q - 1 <= (num_frames - 1 - sf) / Period (h1 p)) as Hq by lia.
      destruct (decide (sf < Period (h1 p) + r)) as [|Hge]; [done|].
      assert ((num_frames - 1 - sf) / Period (h1 p) < q - 1); [|lia].
      apply Z.div_lt_upper_bound; nia.
    - intros Hlt.
      assert (q - 1 <= (num_frames - 1 - sf) / Period (h1 p)); [|lia].
      apply Z.div_le_lower_bound; nia. }
  split_and!; [|done|].
  - unfold occurrences, schedule_flags.
    rewrite (mapM_pure _ (every sf (Period (h1 p)))).
    + simpl. rewrite count_every_range by lia. unfold expected_frequency.
      by rewrite decide_True by lia.
    + intros f _. rewrite in_frame_pinned; [|done|lia].
      by rewrite HP, HSF, Hsf.
  - intros Hsize Hlt. apply Z.mul_le_mono_nonneg_l; [done|]. by apply Hiff.
Qed.

Lemma pinned_count_and_total_util_witness :
  let n := 1 + (32 - 1 - 1) / Period (c2_store 0%nat) in
  occurrences (Value c2_packed) (store c2_packed 0%nat) (NUM_FRAMES c2_packer)
  = Ok n ∧
  (32 / Period (c2_store 0%nat) <= n
   <-> 1 < Period (c2_store 0%nat) + 32 mod Period (c2_store 0%nat)) ∧
  (0 <= Size (c2_store 0%nat) ->
   1 < Period (c2_store 0%nat) + 32 mod Period (c2_store 0%nat) ->
   Size (c2_store 0%nat) * (32 / Period (c2_store 0%nat))
   <= Size (c2_store 0%nat) * n).
Proof.
  apply (pinned_count_and_total_util c2_solver c2_store [IPoint 0%nat] 1000 32
           c2_store c2_packer c2_packed 0%nat 1).
  - vm_compute. reflexivity.
  - vm_compute. reflexivity.
  - apply (bool_decide_unpack _). vm_compute. exact I.
  - vm_compute. reflexivity.
  - lia.
  - vm_compute. discriminate.
Defined.

(** ** Stable sorting by a key *)

Section sort_by.
Context {A : Type} (key : A -> Z).
Implicit Types (x y : A) (l s : list A).

Lemma insert_by_Permutation x l : insert_by key x l ≡ₚ x :: l.
Proof.
  induction l as [|y l IH]; simpl; [done|].
  case_decide; [done|]. rewrite IH. apply perm_swap.
Qed.

Lemma sort_by_Permutation l : sort_by key l ≡ₚ l.
Proof.
  induction l as [|x l IH]; simpl; [done|].
  unfold sort_by in *. simpl. by rewrite insert_by_Permutation, IH.
Qed.

Lemma insert_by_sorted x l :
  StronglySorted (key_le key) l -> StronglySorted (key_le key) (insert_by key x l).
Proof.
  induction l as [|y l IH]; intros Hs; simpl.
  - repeat constructor.
  - apply StronglySorted_cons in Hs as [Hall Hs]. case_decide as Hle.
    + apply StronglySorted_cons. split.
      * constructor; [done|]. eapply Forall_impl; [done|].
        unfold key_le. intros z ?. lia.
      * by apply StronglySorted_cons.
    + apply StronglySorted_cons. split; [|by apply IH].
      rewrite insert_by_Permutation. constructor; [|done]. unfold key_le. lia.
Qed.

(** The result is in ascending order of the keys. *)
Lemma sort_by_sorted l : StronglySorted (key_le key) (sort_by key l).
Proof.
  induction l as [|x l IH]; [constructor|].
  unfold sort_by in *. simpl. by apply insert_by_sorted.
Qed.

Lemma sublist_insert_by x s l :
  s `sublist_of` l -> s `sublist_of` insert_by key x l.
Proof.
  intros Hs. induction Hs as [|y s l Hs IH|y s l Hs IH]; simpl.
  - by apply sublist_cons.
  - case_decide; [by apply sublist_cons, sublist_skip|by apply sublist_skip].
  - case_decide; [by apply sublist_cons, sublist_cons|by apply sublist_cons].
Qed.

Lemma sublist_insert_by_head x s l :
  s `sublist_of` l -> Forall (key_le key x) s ->
  x :: s `sublist_of` insert_by key x l.
Proof.
  intros Hs. induction Hs as [|y s l Hs IH|y s l Hs IH]; intros Hall; simpl.
  - done.
  - apply Forall_cons in Hall as [Hxy Hall].
    rewrite decide_True by done. by apply sublist_skip, sublist_skip.
  - case_decide.
    + by apply sublist_skip, sublist_cons.
    + by apply sublist_cons, IH.
Qed.

(** Stability: elements that are in ascending key order before the sort
    keep their relative order. *)
Lemma sort_by_stable s l :
  StronglySorted (key_le key) s -> s `sublist_of` l -> s `sublist_of` sort_by key l.
Proof.
  intros Hsorted Hs. induction Hs as [|x s l Hs IH|x s l Hs IH].
  - done.
  - apply StronglySorted_cons in Hsorted as [Hall Hsorted].
    unfold sort_by in *. simpl. apply sublist_insert_by_head; [by apply IH|done].
  - unfold sort_by in *. simpl. by apply sublist_insert_by, IH.
Qed.
End sort_by.

(** ** C4: the order of the FrameSummary rows *)

Section first_bits.
Implicit Types (d es : list (string * Z)) (k name : string).

Lemma first_bits_concat fs : first_bits fs = foldl record_entry [] (concat fs).
Proof.
  unfold first_bits. generalize (@nil (string * Z)).
  induction fs as [|frame fs IH]; intros d; simpl; [done|].
  by rewrite foldl_app, IH.
Qed.

Lemma keys_record_first k v d :
  (record_first k v d).*1 = first_seen (d.*1) k.
Proof.
  unfold first_seen. induction d as [|[k' v'] d IH].
  - by rewrite decide_False by set_solver.
  - cbn [record_first]. destruct (decide (k' = k)) as [->|Hne].
    + rewrite !fmap_cons. cbn [fst]. by rewrite decide_True by set_solver.
    + rewrite !fmap_cons, IH. cbn [fst].
      destruct (decide (k ∈ d.*1)) as [Hin|Hin].
      * by rewrite decide_True by set_solver.
      * by rewrite decide_False by set_solver.
Qed.

Lemma keys_foldl es d :
  (foldl record_entry d es).*1 = foldl first_seen (d.*1) (es.*1).
Proof.
  revert d. induction es as [|[k v] es IH]; intros d; simpl; [done|].
  rewrite IH. unfold record_entry. simpl. by rewrite keys_record_first.
Qed.

Lemma first_seen_NoDup seen name : NoDup seen -> NoDup (first_seen seen name).
Proof.
  unfold first_seen. intros Hnd. case_decide; [done|].
  apply NoDup_app. split_and!; [done|set_solver|apply NoDup_singleton].
Qed.

Lemma foldl_first_seen_NoDup names seen :
  NoDup seen -> NoDup (foldl first_seen seen names).
Proof.
  revert seen. induction names as [|n names IH]; intros seen Hnd; simpl; [done|].
  by apply IH, first_seen_NoDup.
Qed.

Lemma elem_of_foldl_first_seen names seen x :
  x ∈ foldl first_seen seen names <-> x ∈ seen ∨ x ∈ names.
Proof.
  revert seen. induction names as [|n names IH]; intros seen; simpl.
  - set_solver.
  - rewrite IH. unfold first_seen. case_decide; set_solver.
Qed.

Lemma assoc_record_first k v d :
  assoc k (record_first k v d)
  = Some (match assoc k d with Some v0 => Z.min v0 v | None => v end).
Proof.
  induction d as [|[k' v'] d IH]; cbn [record_first assoc].
  - by rewrite decide_True.
  - destruct (decide (k' = k)) as [->|Hne]; cbn [assoc].
    + by rewrite decide_True.
    + by rewrite decide_False.
Qed.

Lemma assoc_record_first_ne k v d k' :
  k' ≠ k -> assoc k' (record_first k v d) = assoc k' d.
Proof.
  intros Hne. induction d as [|[k0 v0] d IH]; cbn [record_first assoc].
  - by rewrite decide_False.
  - destruct (decide (k0 = k)) as [->|Hne0]; cbn [assoc].
    + by rewrite !decide_False.
    + by rewrite IH.
Qed.

Lemma assoc_elem_of k v d : NoDup (d.*1) -> (k, v) ∈ d -> assoc k d = Some v.
Proof.
  induction d as [|[k0 v0] d IH]; intros Hnd Hin; [set_solver|].
  rewrite fmap_cons in Hnd. cbn [fst] in Hnd.
  pose proof (NoDup_cons_1_1 _ _ Hnd) as Hk0. apply NoDup_cons_1_2 in Hnd.
  cbn [assoc]. apply elem_of_cons in Hin as [[= -> ->]|Hin].
  - by rewrite decide_True.
  - rewrite decide_False; [by apply IH|]. intros ->. apply Hk0.
    apply list_elem_of_fmap. by exists (k, v).
Qed.

(** The dictionary holds, for each name seen, its least bit. *)
Lemma foldl_record_least es d seen :
  (∀ k v, assoc k d = Some v -> least_bit seen k v) ->
  (∀ k b, (k, b) ∈ seen -> is_Some (assoc k d)) ->
  ∀ k v, assoc k (foldl record_entry d es) = Some v -> least_bit (seen ++ es) k v.
Proof.
  revert d seen. induction es as [|[k0 v0] es IH]; intros d seen H1 H2 k v Hk.
  - rewrite app_nil_r. by apply H1.
  - replace (seen ++ (k0, v0) :: es) with ((seen ++ [(k0, v0)]) ++ es)
      by (by rewrite <- app_assoc).
    cbn [foldl] in Hk. unfold record_entry at 2 in Hk. cbn [fst snd] in Hk.
    eapply IH; [| |exact Hk]; clear k v Hk.
    + intros k v Hk. destruct (decide (k = k0)) as [->|Hne].
      * rewrite assoc_record_first in Hk. injection Hk as <-.
        destruct (assoc k0 d) as [v1|] eqn:E.
        -- destruct (H1 _ _ E) as [Hin Hmin]. split.
           ++ destruct (Z.min_spec v1 v0) as [[_ ->]|[_ ->]]; set_solver.
           ++ intros b' [Hb'|[= ->]%list_elem_of_singleton]%elem_of_app.
              ** specialize (Hmin _ Hb'). lia.
              ** lia.
        -- split; [set_solver|].
           intros b' [Hb'|[= ->]%list_elem_of_singleton]%elem_of_app; [|lia].
           destruct (H2 _ _ Hb') as [? ?]. congruence.
      * rewrite assoc_record_first_ne in Hk by done.
        destruct (H1 _ _ Hk) as [Hin Hmin]. split; [set_solver|].
        intros b' [Hb'|[= -> ->]%list_elem_of_singleton]%elem_of_app; [|done].
        by apply Hmin.
    + intros k b [Hb|[= -> ->]%list_elem_of_singleton]%elem_of_app.
      * destruct (decide (k = k0)) as [->|Hne].
        -- rewrite assoc_record_first. by eexists.
        -- rewrite assoc_record_first_ne by done. by eapply H2.
      * rewrite assoc_record_first. by eexists.
Qed.

(** The keys of [first_bits] are the names in order of first appearance,
    each once, and each is given its least bit. *)
Lemma first_bits_keys fs :
  (first_bits fs).*1 = appearance ((concat fs).*1).
Proof. by rewrite first_bits_concat, keys_foldl. Qed.

Lemma first_bits_NoDup fs : NoDup ((first_bits fs).*1).
Proof.
  rewrite first_bits_keys. apply foldl_first_seen_NoDup, NoDup_nil_2.
Qed.

Lemma first_bits_least fs k v :
  (k, v) ∈ first_bits fs -> least_bit (concat fs) k v.
Proof.
  intros Hin. apply assoc_elem_of in Hin; [|apply first_bits_NoDup].
  rewrite first_bits_concat in Hin.
  apply (foldl_record_least (concat fs) [] []); [done|set_solver|done].
Qed.
End first_bits.

Section positions.
Context {A : Type}.
Implicit Types (l : list A) (a b : A).

Lemma sublist_pair_lookup l (i j : nat) a b :
  l !! i = Some a -> l !! j = Some b -> (i < j)%nat -> [a; b] `sublist_of` l.
Proof.
  revert i j. induction l as [|x l IH]; intros i j Hi Hj Hlt; [done|].
  destruct j as [|j]; [lia|]. destruct i as [|i]; simpl in *.
  - injection Hi as ->. apply sublist_skip.
    apply list_elem_of_lookup_2, list_elem_of_split in Hj as (l1 & l2 & ->).
    apply sublist_inserts_l, sublist_skip, sublist_nil_l.
  - apply sublist_cons. apply (IH i j); [done|done|lia].
Qed.

Lemma sublist_pair_before l a b : [a; b] `sublist_of` l -> before l a b.
Proof.
  induction l as [|x l IH]; intros Hs; [by apply sublist_nil_r in Hs|].
  apply sublist_cons_r in Hs as [Hs|(l' & [= <- <-] & Hs)].
  - destruct (IH Hs) as (i & j & Hlt & Hi & Hj). exists (S i), (S j).
    split_and!; [lia|done|done].
  - apply sublist_subseteq in Hs.
    assert (b ∈ l) as [j Hj]%list_elem_of_lookup_1 by set_solver.
    exists 0%nat, (S j). split_and!; [lia|done|done].
Qed.

Lemma StronglySorted_lookup (R : relation A) l (i j : nat) a b :
  StronglySorted R l -> (i < j)%nat -> l !! i = Some a -> l !! j = Some b ->
  R a b.
Proof.
  intros Hs. revert i j. induction Hs as [|x l Hs IH Hall]; intros i j Hlt Hi Hj;
    [done|].
  destruct j as [|j]; [lia|]. destruct i as [|i]; simpl in *.
  - injection Hi as ->. rewrite Forall_forall in Hall.
    by eapply Hall, list_elem_of_lookup_2.
  - apply (IH i j); [lia|done|done].
Qed.
End positions.

(** The row labels of the FrameSummary table. *)
Lemma framesummary_df_rows pk pd table :
  framesummary_df pk pd = Ok table ->
  ∃ fs, framesummary pk pd = Ok fs ∧ table.*1 = object_order fs.
Proof.
  unfold framesummary_df. intros H. inv_bind H as fs Hfs. injection H as <-.
  exists fs. split; [done|].
  generalize (object_order fs). intros l. induction l as [|x l IH]; [done|].
  simpl. f_equal. exact IH.
Qed.

(** The rows are the names in ascending order of their least start bit;
    rows with the same bit are in order of first appearance. *)
Lemma object_order_spec fs :
  let rows := object_order fs in
  let es := concat fs in
  rows ≡ₚ appearance (es.*1) ∧ NoDup rows ∧
  ∀ (i j : nat) x y, (i < j)%nat -> rows !! i = Some x -> rows !! j = Some y ->
    ∃ bx by', least_bit es x bx ∧ least_bit es y by' ∧ bx <= by' ∧
              (bx = by' -> before (appearance (es.*1)) x y).
Proof.
  intros rows es. subst rows es. unfold object_order.
  change (map fst ?l) with (l.*1).
  set (d := first_bits fs). set (s := sort_by snd d).
  assert (s ≡ₚ d) as Hperm by apply sort_by_Permutation.
  assert (NoDup (d.*1)) as Hnd by apply first_bits_NoDup.
  assert (NoDup (s.*1)) as Hnds by (by rewrite Hperm).
  split_and!; [by rewrite Hperm, <- first_bits_keys|done|].
  intros i j x y Hlt Hi Hj.
  apply list_lookup_fmap_Some in Hi as ([x' bx] & -> & Hi).
  apply list_lookup_fmap_Some in Hj as ([y' by'] & -> & Hj). simpl.
  exists bx, by'.
  assert ((x', bx) ∈ d) as Hxd
    by (rewrite <- Hperm; by eapply list_elem_of_lookup_2).
  assert ((y', by') ∈ d) as Hyd
    by (rewrite <- Hperm; by eapply list_elem_of_lookup_2).
  split_and!; [by apply first_bits_least|by apply first_bits_least| |].
  - apply (StronglySorted_lookup (key_le snd) s i j (x', bx) (y', by'));
      [apply sort_by_sorted|done|done|done].
  - intros <-. rewrite <- first_bits_keys. fold d.
    apply list_elem_of_lookup_1 in Hxd as [ix Hix].
    apply list_elem_of_lookup_1 in Hyd as [iy Hiy].
    destruct (Nat.lt_trichotomy ix iy) as [Hc|[Hc|Hc]].
    + exists ix, iy. rewrite !list_lookup_fmap, Hix, Hiy. done.
    + subst iy. rewrite Hix in Hiy. injection Hiy as <-.
      assert (i = j); [|lia].
      eapply (NoDup_lookup (s.*1)); [done| |];
        rewrite list_lookup_fmap; [by rewrite Hi|by rewrite Hj].
    + exfalso.
      assert ([(y', bx); (x', bx)] `sublist_of` s) as Hsub.
      { apply sort_by_stable.
        - repeat constructor. unfold key_le. simpl. lia.
        - by apply (sublist_pair_lookup d iy ix). }
      apply sublist_pair_before in Hsub as (j' & i' & Hlt' & Hj' & Hi').
      assert (NoDup s) as Hnds' by (by eapply NoDup_fmap_1).
      pose proof (NoDup_lookup _ _ _ _ Hnds' Hi Hi').
      pose proof (NoDup_lookup _ _ _ _ Hnds' Hj Hj'). lia.
Qed.

(** C4, as stated, fails: A first appears in frame 0 and B in frame 1, yet
    the row of B comes first, because B starts at bit 0 and A at bit 8.
    Every solution has these start units, since both are pinned. *)
Lemma rows_not_ordered_by_first_frame :
  FormatPacker_init c4_store [IPoint 0%nat; IPoint 1%nat] 2 2
    = Ok (c4_store, c4_packer) ∧
  pack c4_solver c4_packer c4_store = Ok c4_packed ∧
  satisfies (Value c4_packed) (solved_model c4_packed) = true ∧
  framesummary c4_packer c4_packed = Ok [[("A", 8)]; [("B", 0)]] ∧
  framesummary_df c4_packer c4_packed
    = Ok [("B", [None; Some 0]); ("A", [Some 8; None])] ∧
  first_frame "B" [[("A", 8)]; [("B", 0)]] = Some 1%nat ∧
  first_frame "A" [[("A", 8)]; [("B", 0)]] = Some 0%nat ∧
  start_unit (store c4_packed 0%nat) = Some 0%nat ∧
  start_unit (store c4_packed 1%nat) = Some 1%nat ∧
  ∀ a, satisfies a (solved_model c4_packed) = true ->
       a 0%nat = 1 ∧ a 1%nat = 0.
Proof.
  split_and!; try (vm_compute; reflexivity).
  intros a Hsat. split.
  - apply Z.eqb_eq. change (holds a (EqConst 0%nat 1) = true).
    apply (satisfies_holds _ _ _ Hsat), list_elem_of_In. vm_compute. tauto.
  - apply Z.eqb_eq. change (holds a (EqConst 1%nat 0) = true).
    apply (satisfies_holds _ _ _ Hsat), list_elem_of_In. vm_compute. tauto.
Qed.

(** C4, amended: the FrameSummary table has one row per name that occurs
    in some frame; the rows are in ascending order of the name's start bit
    (the least recorded for it), and rows with the same start bit are in
    order of first appearance: by first frame, then by position in that
    frame's list. *)
Theorem framesummary_rows_by_start_bit
    (pk : FormatPacker) (pd : Packed) (table : list (string * list (option Z))) :
  framesummary_df pk pd = Ok table ->
  ∃ fs, framesummary pk pd = Ok fs ∧
    NoDup (table.*1) ∧
    (∀ name, name ∈ table.*1 <-> name ∈ (concat fs).*1) ∧
    table.*1 ≡ₚ appearance ((concat fs).*1) ∧
    ∀ (i j : nat) x y,
      (i < j)%nat -> table.*1 !! i = Some x -> table.*1 !! j = Some y ->
      ∃ bx by', least_bit (concat fs) x bx ∧ least_bit (concat fs) y by' ∧
                bx <= by' ∧
                (bx = by' -> before (appearance ((concat fs).*1)) x y).
Proof.
  intros (fs & Hfs & ->)%framesummary_df_rows. exists fs. split; [done|].
  destruct (object_order_spec fs) as (Hperm & Hnd & Horder).
  split_and!; [done| |done|done].
  intros name. rewrite Hperm. unfold appearance.
  rewrite elem_of_foldl_first_seen. set_solver.
Qed.

Lemma framesummary_rows_by_start_bit_witness :
  ∃ fs, framesummary c4_packer c4_packed = Ok fs ∧
    NoDup ([("B", [None; Some 0]); ("A", [Some 8; None])].*1) ∧
    (∀ name, name ∈ [("B", [None; Some 0]); ("A", [Some 8; None])].*1
             <-> name ∈ (concat fs).*1) ∧
    [("B", [None; Some 0]); ("A", [Some 8; None])].*1
      ≡ₚ appearance ((concat fs).*1) ∧
    ∀ (i j : nat) x y,
      (i < j)%nat ->
      [("B", [None; Some 0]); ("A", [Some 8; None])].*1 !! i = Some x ->
      [("B", [None; Some 0]); ("A", [Some 8; None])].*1 !! j = Some y ->
      ∃ bx by', least_bit (concat fs) x bx ∧ least_bit (concat fs) y by' ∧
                bx <= by' ∧
                (bx = by' -> before (appearance ((concat fs).*1)) x y).
Proof.
  apply (framesummary_rows_by_start_bit c4_packer c4_packed).
  vm_compute. reflexivity.
Defined.

(** ** Facts about the entries of a frame *)

Lemma mapM_lookup_r {A B} (F : A -> result B) (l : list A) (ys : list B)
    (i : nat) (y : B) :
  mapM F l = Ok ys -> ys !! i = Some y -> ∃ x, l !! i = Some x ∧ F x = Ok y.
Proof.
  revert ys i. induction l as [|x l IH]; intros ys i H Hi; simpl in H.
  - by injection H as <-.
  - inv_bind H as y0 Hy0. inv_bind H as ys0 Hys0. injection H as <-.
    destruct i as [|i]; simpl in Hi.
    + injection Hi as <-. by exists x.
    + by apply (IH ys0 i).
Qed.

Lemma frame_entries_app pk a (h : heap) l1 l2 frame es :
  frame_entries pk a h (l1 ++ l2) frame = Ok es ->
  ∃ e1 e2, frame_entries pk a h l1 frame = Ok e1 ∧
           frame_entries pk a h l2 frame = Ok e2 ∧ es = e1 ++ e2.
Proof.
  revert es. induction l1 as [|p l1 IH]; intros es H; simpl in H.
  - by exists [], es.
  - inv_bind H as sb Hsb. inv_bind H as b Hb. inv_bind H as tl Htl.
    injection H as <-. destruct (IH _ Htl) as (e1 & e2 & He1 & He2 & ->).
    simpl. rewrite Hsb, Hb, He1. simpl.
    destruct b; eexists _, e2; by split_and!.
Qed.

(** The entries of objects that all occur in the frame: one per object,
    with its name and its start bit. *)
Lemma frame_entries_present pk a (h : heap) l frame es :
  frame_entries pk a h l frame = Ok es ->
  (∀ p, p ∈ l -> in_frame a (h p) frame = Ok true) ->
  Forall2 (fun p e => e.1 = Name (h p) ∧ start_bit pk a (h p) = Ok e.2) l es.
Proof.
  revert es. induction l as [|p l IH]; intros es H Hall; simpl in H.
  - injection H as <-. constructor.
  - inv_bind H as sb Hsb. inv_bind H as b Hb. inv_bind H as tl Htl.
    rewrite Hall in Hb by set_solver. injection Hb as <-. injection H as <-.
    constructor; [done|]. apply IH; [done|]. intros q Hq. apply Hall. set_solver.
Qed.

Lemma all_points_split items g :
  IGroup g ∈ items ->
  ∃ pre post, all_points items = pre ++ GroupObjectList.points g ++ post.
Proof.
  unfold all_points. induction items as [|it items IH]; intros Hg.
  - by apply elem_of_nil in Hg.
  - apply elem_of_cons in Hg as [<-|Hg].
    + by exists [], (concat (map item_points items)).
    + destruct (IH Hg) as (pre & post & Heq).
      exists (item_points it ++ pre), post. simpl. rewrite Heq.
      by rewrite <- app_assoc.
Qed.

#[export] Instance key_le_trans {A} (key : A -> Z) : Transitive (key_le key).
Proof. unfold key_le. intros x y z. lia. Qed.

(** ** C7: group cohesion *)

Lemma first_true_ext a i pv1 pv2 :
  length pv1 = length pv2 ->
  (∀ (s : nat) b1 b2, pv1 !! s = Some b1 -> pv2 !! s = Some b2 ->
                      truthy a b1 = truthy a b2) ->
  first_true a i pv1 = first_true a i pv2.
Proof.
  revert i pv2. induction pv1 as [|b1 pv1 IH]; intros i [|b2 pv2] Hlen Hext;
    try done. simpl.
  rewrite (Hext 0%nat b1 b2) by done. destruct (truthy a b2); [done|].
  apply IH; [simpl in Hlen; lia|]. intros s c1 c2 H1 H2. by apply (Hext (S s)).
Qed.

(** Objects with the same period, start frame and chosen phase occur in
    the same frames. *)
Lemma in_frame_ext a o1 o2 frame :
  Period o1 = Period o2 -> Start_Frame o1 = Start_Frame o2 ->
  (phase_vars o1 = [] <-> phase_vars o2 = []) ->
  first_true a 0 (phase_vars o1) = first_true a 0 (phase_vars o2) ->
  in_frame a o1 frame = in_frame a o2 frame.
Proof.
  intros HP HSF Hnil Hft. unfold in_frame. rewrite HP, HSF, Hft.
  destruct (phase_vars o1) as [|b1 pv1], (phase_vars o2) as [|b2 pv2]; try done.
  - by destruct Hnil as [Hn _]; specialize (Hn eq_refl).
  - by destruct Hnil as [_ Hn]; specialize (Hn eq_refl).
Qed.

Section cohesion.
Variable Solve : CpSolver.
Variables (h h1 : heap) (items : list item) (frame_size num_frames : Z).
Variables (pk : FormatPacker) (pd : Packed) (g : GroupObjectList.t).
Hypothesis Hinit : FormatPacker_init h items frame_size num_frames = Ok (h1, pk).
Hypothesis Hpack : pack Solve pk h1 = Ok pd.
Hypothesis Hsat : satisfies (Value pd) (solved_model pd) = true.
Hypothesis Hnd : NoDup (all_points items).
Hypothesis Hg : IGroup g ∈ items.

Lemma member_in_objects p : p ∈ GroupObjectList.points g -> p ∈ objects pk.
Proof.
  intros Hp. apply FormatPacker_init_spec in Hinit as (-> & _).
  by eapply all_points_group.
Qed.

Lemma group_in_groups : g ∈ _groups pk.
Proof.
  apply FormatPacker_init_spec in Hinit as (_ & -> & _).
  unfold item_groups. apply list_elem_of_omap. by exists (IGroup g).
Qed.

(** Every member has the group's period and start frame when packed. *)
Lemma member_shares p :
  p ∈ GroupObjectList.points g ->
  Period (store pd p) = GroupObjectList.Period g ∧
  Start_Frame (store pd p) = GroupObjectList.Start_Frame g.
Proof.
  intros [k Hk]%list_elem_of_lookup_1.
  destruct (FormatPacker_init_group _ _ _ _ _ _ g k p Hinit Hnd Hg Hk)
    as (HP & HSF & _).
  apply packed_facts in Hpack as (Hsame & _).
  destruct (Hsame p) as (_ & _ & HP' & HSF' & _). split; congruence.
Qed.

(** Consecutive members occur in the same frames. *)
Lemma consecutive_same_frames (i : nat) p1 p2 frame :
  GroupObjectList.points g !! i = Some p1 ->
  GroupObjectList.points g !! S i = Some p2 ->
  in_frame (Value pd) (store pd p1) frame
  = in_frame (Value pd) (store pd p2) frame.
Proof.
  intros H1 H2.
  assert (p1 ∈ GroupObjectList.points g) as Hp1 by (by eapply list_elem_of_lookup_2).
  assert (p2 ∈ GroupObjectList.points g) as Hp2 by (by eapply list_elem_of_lookup_2).
  destruct (member_shares p1 Hp1) as [HP1 HSF1].
  destruct (member_shares p2 Hp2) as [HP2 HSF2].
  pose proof (packed_facts _ _ _ _ Hpack) as (_ & Hdecl & Hlink & _).
  destruct (Hdecl p1 (member_in_objects p1 Hp1)) as (su1 & _ & _ & Hph1).
  destruct (Hdecl p2 (member_in_objects p2 Hp2)) as (su2 & _ & _ & Hph2).
  destruct (Hlink g i p1 p2 group_in_groups H1 H2) as (_ & _ & _ & _ & _ & Heq).
  apply in_frame_ext; [congruence|congruence|..].
  - destruct (decide (has_phases (store pd p1))) as [Hhas|Hnot].
    + rewrite decide_True in Hph2
        by (unfold has_phases in *; by rewrite HP2, HSF2, <- HP1, <- HSF1).
      destruct Hhas as [_ Hgt]. destruct Hph1 as [Hl1 _], Hph2 as [Hl2 _].
      split; intros E; rewrite E in *; simpl in *; lia.
    + rewrite decide_False in Hph2
        by (unfold has_phases in *; by rewrite HP2, HSF2, <- HP1, <- HSF1).
      by rewrite Hph1, Hph2.
  - destruct (decide (has_phases (store pd p1))) as [Hhas|Hnot].
    + rewrite decide_True in Hph2
        by (unfold has_phases in *; by rewrite HP2, HSF2, <- HP1, <- HSF1).
      destruct Hhas as [_ Hgt]. destruct Hph1 as [Hl1 _], Hph2 as [Hl2 _].
      apply first_true_ext; [congruence|].
      intros s b1 b2 Hb1 Hb2.
      destruct Heq with (s := s) as (c1 & c2 & Hc1 & Hc2 & Hc).
      * intros E. rewrite E in Hl1. simpl in Hl1. lia.
      * intros E. rewrite E in Hl2. simpl in Hl2. lia.
      * rewrite <- Hl1. by eapply lookup_lt_Some.
      * rewrite Hb1 in Hc1. rewrite Hb2 in Hc2.
        injection Hc1 as <-. injection Hc2 as <-.
        apply (satisfies_holds _ _ _ Hsat) in Hc. simpl in Hc.
        apply Z.eqb_eq in Hc. unfold truthy. by rewrite Hc.
    + rewrite decide_False in Hph2
        by (unfold has_phases in *; by rewrite HP2, HSF2, <- HP1, <- HSF1).
      by rewrite Hph1, Hph2.
Qed.

Lemma member_same_frames_as_head (i : nat) p p0 frame :
  GroupObjectList.points g !! 0%nat = Some p0 ->
  GroupObjectList.points g !! i = Some p ->
  in_frame (Value pd) (store pd p) frame
  = in_frame (Value pd) (store pd p0) frame.
Proof.
  intros H0. revert p. induction i as [|i IH]; intros p Hi.
  - congruence.
  - destruct (lookup_lt_is_Some_2 (GroupObjectList.points g) i) as [p' Hp'].
    { apply lookup_lt_Some in Hi. lia. }
    rewrite <- (IH p' Hp'). symmetry. by eapply consecutive_same_frames.
Qed.

(** All members of the group occur in exactly the same frames. *)
Lemma members_same_frames p q frame :
  p ∈ GroupObjectList.points g -> q ∈ GroupObjectList.points g ->
  in_frame (Value pd) (store pd p) frame
  = in_frame (Value pd) (store pd q) frame.
Proof.
  intros [i Hi]%list_elem_of_lookup_1 [j Hj]%list_elem_of_lookup_1.
  destruct (lookup_lt_is_Some_2 (GroupObjectList.points g) 0) as [p0 Hp0].
  { apply lookup_lt_Some in Hi. lia. }
  rewrite (member_same_frames_as_head i p p0) by done.
  by rewrite (member_same_frames_as_head j q p0).
Qed.

(** The start bit of a member is the start bit of the member before it
    plus that member's size. *)
Lemma consecutive_start_bits (i : nat) p1 p2 :
  GroupObjectList.points g !! i = Some p1 ->
  GroupObjectList.points g !! S i = Some p2 ->
  ∃ b, start_bit pk (Value pd) (store pd p1) = Ok b ∧
       start_bit pk (Value pd) (store pd p2) = Ok (b + Size (store pd p1)).
Proof.
  intros H1 H2.
  assert (p1 ∈ GroupObjectList.points g) as Hp1 by (by eapply list_elem_of_lookup_2).
  pose proof (packed_facts _ _ _ _ Hpack) as (Hsame & _ & Hlink & _).
  destruct (Hlink g i p1 p2 group_in_groups H1 H2)
    as (su1 & su2 & Hsu1 & Hsu2 & Hc & _).
  apply (satisfies_holds _ _ _ Hsat) in Hc. simpl in Hc. apply Z.eqb_eq in Hc.
  pose proof (UNIT_divides _ _ _ _ _ _ Hinit) as [_ Hdiv].
  destruct (Hdiv p1 (member_in_objects p1 Hp1)) as [Hdsz _].
  destruct (Hsame p1) as (_ & Hsz & _). rewrite <- Hsz in Hdsz.
  pose proof (FormatPacker_init_spec _ _ _ _ _ _ Hinit) as (_&_&_&_&_&_& Hunit &_).
  unfold start_bit, get_start_unit. rewrite Hsu1, Hsu2. simpl.
  eexists. split; [done|]. f_equal. rewrite Hc.
  rewrite Z.mul_add_distr_r. by rewrite div_mul_divides.
Qed.

Hypothesis Hsize : ∀ p, p ∈ GroupObjectList.points g -> 0 <= Size (h1 p).

(** The entries of the members are in ascending order of start bit. *)
Lemma member_entries_sorted (l : list loc) (es : list (string * Z)) :
  Forall2 (fun p e => e.1 = Name (store pd p) ∧
                      start_bit pk (Value pd) (store pd p) = Ok e.2) l es ->
  (∀ (i : nat) p1 p2, l !! i = Some p1 -> l !! S i = Some p2 ->
     ∃ b, start_bit pk (Value pd) (store pd p1) = Ok b ∧
          start_bit pk (Value pd) (store pd p2) = Ok (b + Size (store pd p1))) ->
  (∀ p, p ∈ l -> 0 <= Size (store pd p)) ->
  Sorted (key_le snd) es.
Proof.
  intros HF. induction HF as [|p e l es [_ He] HF IH]; intros Hchain Hsz.
  - constructor.
  - constructor.
    + apply IH; [|intros q Hq; apply Hsz; set_solver].
      intros i p1 p2 H1 H2. by apply (Hchain (S i)).
    + destruct HF as [|p' e' l es [_ He'] HF]; constructor.
      destruct (Hchain 0%nat p p' eq_refl eq_refl) as (b & Hb & Hb').
      rewrite He in Hb. rewrite He' in Hb'.
      injection Hb as Hb. injection Hb' as Hb'.
      unfold key_le. specialize (Hsz p ltac:(set_solver)). lia.
Qed.

(** In a frame in which the group occurs, the frame's list of names has
    the members' names in group order. *)
Lemma members_in_group_order table (f : nat) row p0 :
  frameorder pk pd = Ok table ->
  table !! f = Some row ->
  GroupObjectList.points g !! 0%nat = Some p0 ->
  in_frame (Value pd) (store pd p0) (Z.of_nat f) = Ok true ->
  (fun p => Name (store pd p)) <$> GroupObjectList.points g `sublist_of` row.
Proof.
  intros Hfo Hrow Hp0 Hin. unfold frameorder in Hfo.
  inv_bind Hfo as fs Hfs. injection Hfo as <-.
  change (map (map fst) fs) with (map fst <$> fs) in Hrow.
  apply list_lookup_fmap_Some in Hrow as (sorted & -> & Hsorted).
  unfold framesummary in Hfs.
  destruct (mapM_lookup_r _ _ _ _ _ Hfs Hsorted) as (frame & Hframe & HF).
  apply lookup_seqZ in Hframe as [-> _]. rewrite Z.add_0_l in HF.
  inv_bind HF as entries Hentries. injection HF as <-.
  pose proof (FormatPacker_init_spec _ _ _ _ _ _ Hinit) as (Hobjs & _).
  destruct (all_points_split _ _ Hg) as (pre & post & Hsplit).
  rewrite Hobjs, Hsplit in Hentries.
  apply frame_entries_app in Hentries as (e1 & e' & _ & Hentries & ->).
  apply frame_entries_app in Hentries as (eg & e2 & Heg & _ & ->).
  assert (Forall2 (fun p e => e.1 = Name (store pd p) ∧
                              start_bit pk (Value pd) (store pd p) = Ok e.2)
            (GroupObjectList.points g) eg) as HF.
  { apply (frame_entries_present _ _ _ _ _ _ Heg). intros p Hp.
    rewrite <- Hin. apply list_elem_of_lookup_1 in Hp as [i Hi].
    by apply (member_same_frames_as_head i). }
  assert ((fun p => Name (store pd p)) <$> GroupObjectList.points g = eg.*1)
    as ->.
  { clear -HF. induction HF as [|p e l es [He _] HF IH]; [done|].
    rewrite !fmap_cons. by rewrite IH, He. }
  change (map fst ?l) with (l.*1). apply fmap_sublist.
  apply sort_by_stable.
  - apply Sorted_StronglySorted; [apply _|].
    apply (member_entries_sorted _ _ HF).
    + apply consecutive_start_bits.
    + intros p Hp. pose proof (packed_facts _ _ _ _ Hpack) as (Hsame & _).
      destruct (Hsame p) as (_ & -> & _). by apply Hsize.
  - apply sublist_inserts_l, sublist_inserts_r. done.
Qed.
End cohesion.

(** Scenario S5 as the tables show it: start bits 64, 80 and 112, in
    frames 1 and 17, in the order A, B, C. *)
Example s5_tables :
  mapM (fun p => start_bit s5_packer' (Value s5_packed) (store s5_packed p))
    s5_members = Ok [64; 80; 112] ∧
  (fs ← frameorder s5_packer' s5_packed;
   Ok (filter (fun fr => fr.2 ≠ []) (imap (fun i row => (i, row)) fs)))
  = Ok [(1%nat, ["A"; "B"; "C"]); (17%nat, ["A"; "B"; "C"])].
Proof. split; vm_compute; reflexivity. Qed.

(** ** C1: [pack] does not validate *)

Lemma no_ValueError_Ok {A} (a : A) : no_ValueError (Ok a).
Proof. by intros msg. Qed.

Lemma no_ValueError_bind {A B} (r : result A) (f : A -> result B) :
  no_ValueError r -> (∀ a, no_ValueError (f a)) -> no_ValueError (r ≫= f).
Proof.
  intros Hr Hf msg. destruct r as [a|e]; simpl; [apply Hf|].
  intros [= ->]. by apply (Hr msg).
Qed.

Lemma no_ValueError_floordiv a b : no_ValueError (floordiv a b).
Proof. intros msg. unfold floordiv. by case_decide. Qed.

Lemma no_ValueError_pymod a b : no_ValueError (pymod a b).
Proof. intros msg. unfold pymod. by case_decide. Qed.

Lemma no_ValueError_get_start_unit o : no_ValueError (get_start_unit o).
Proof. intros msg. unfold get_start_unit. by destruct (start_unit o). Qed.

Create HintDb nve.
#[local] Hint Resolve no_ValueError_Ok no_ValueError_floordiv
  no_ValueError_pymod no_ValueError_get_start_unit : nve.

(** Goes through a computation bind by bind. *)
Ltac nve :=
  repeat first
    [ progress eauto with nve
    | apply no_ValueError_bind; [|intros ?]
    | match goal with
      | |- no_ValueError (match ?x with _ => _ end) => destruct x
      | |- no_ValueError (let '(_, _) := ?x in _) => destruct x
      | |- no_ValueError (if ?b then _ else _) => destruct b
      end ].

Section no_validation.
Variable pk : FormatPacker.
Implicit Types (h : heap) (m : CpModel).

Lemma no_ValueError_declare_points ps h m :
  no_ValueError (declare_points pk ps h m).
Proof.
  revert h m. induction ps as [|p ps IH]; intros h m; simpl; [nve|].
  apply no_ValueError_bind; [|intros [h1 m1]; apply IH].
  unfold declare_point. cbn [NewIntVar]. nve.
Qed.

Lemma no_ValueError_equate_phases ss pv1 pv2 m :
  no_ValueError (equate_phases ss pv1 pv2 m).
Proof.
  revert m. induction ss as [|s ss IH]; intros m; simpl; [nve|].
  destruct (pv2 !! s), (pv1 !! s); try apply IH; by intros msg.
Qed.

Lemma no_ValueError_chain h ps m : no_ValueError (chain pk h ps m).
Proof.
  revert m. induction ps as [|p1 ps IH]; intros m; simpl; [nve|].
  destruct ps as [|p2 ps]; [nve|].
  apply no_ValueError_bind; [|intros m1; apply IH].
  unfold link. apply no_ValueError_bind; [|intros m1; nve].
  destruct (phase_vars (h p1)), (phase_vars (h p2)); nve.
  apply no_ValueError_equate_phases.
Qed.

Lemma no_ValueError_chain_groups h gs m : no_ValueError (chain_groups pk h gs m).
Proof.
  revert m. induction gs as [|g gs IH]; intros m; simpl; [nve|].
  apply no_ValueError_bind; [apply no_ValueError_chain|intros m1; apply IH].
Qed.

Lemma no_ValueError_optional_intervals sb sz frame p s pvs :
  no_ValueError (optional_intervals sb sz frame p s pvs).
Proof.
  revert s. induction pvs as [|pv pvs IH]; intros s; simpl; [nve|].
  apply no_ValueError_bind; [nve|intros r].
  apply no_ValueError_bind; [apply IH|intros tl; nve].
Qed.

Lemma no_ValueError_frame_intervals h ps frame :
  no_ValueError (frame_intervals pk h ps frame).
Proof.
  induction ps as [|p ps IH]; simpl; [nve|].
  apply no_ValueError_bind; [|intros ivs].
  - unfold object_intervals. nve. apply no_ValueError_optional_intervals.
  - apply no_ValueError_bind; [apply IH|intros tl; nve].
Qed.

Lemma no_ValueError_add_frames h frames m :
  no_ValueError (add_frames pk h frames m).
Proof.
  revert m. induction frames as [|f frames IH]; intros m; simpl; [nve|].
  apply no_ValueError_bind; [apply no_ValueError_frame_intervals|].
  intros ivs. apply IH.
Qed.

Lemma no_ValueError_total_util_expr h ps :
  no_ValueError (total_util_expr pk h ps).
Proof.
  induction ps as [|p ps IH]; simpl; [nve|].
  apply no_ValueError_bind; [nve|intros q].
  apply no_ValueError_bind; [apply IH|intros s; nve].
Qed.

Lemma no_ValueError_end_units h ps m : no_ValueError (end_units pk h ps m).
Proof.
  revert m. induction ps as [|p ps IH]; intros m; simpl; [nve|].
  apply no_ValueError_bind; [nve|intros su].
  apply no_ValueError_bind; [nve|intros q].
  apply no_ValueError_bind; [apply IH|intros [ebs m2]; nve].
Qed.

Lemma no_ValueError_build_model h : no_ValueError (_build_model pk h).
Proof.
  unfold _build_model.
  apply no_ValueError_bind; [apply no_ValueError_declare_points|intros [h1 m1]].
  apply no_ValueError_bind; [apply no_ValueError_chain_groups|intros m2].
  apply no_ValueError_bind; [apply no_ValueError_add_frames|intros m3].
  apply no_ValueError_bind; [apply no_ValueError_total_util_expr|intros u].
  cbn [NewConstant NewIntVar].
  apply no_ValueError_bind; [apply no_ValueError_end_units|intros [ebs m5]].
  nve.
Qed.

Lemma no_ValueError_add_hints a h ps m : no_ValueError (add_hints a h ps m).
Proof.
  revert m. induction ps as [|p ps IH]; intros m; simpl; [nve|].
  apply no_ValueError_bind; [nve|intros su; apply IH].
Qed.

Lemma no_ValueError_solve Solve h bm : no_ValueError (_solve Solve pk h bm).
Proof.
  unfold _solve. destruct (Solve _) as [st1 a1].
  destruct (found_solution st1); [|by intros msg].
  apply no_ValueError_bind; [apply no_ValueError_add_hints|intros m2].
  destruct (Solve _) as [st2 a2]. destruct (found_solution st2); by intros msg.
Qed.

Lemma no_ValueError_pack Solve h : no_ValueError (pack Solve pk h).
Proof.
  unfold pack.
  apply no_ValueError_bind; [apply no_ValueError_build_model|intros [h1 bm]].
  apply no_ValueError_bind; [apply no_ValueError_solve|intros [m a]; nve].
Qed.
End no_validation.

(** C1 fails on the code: [pack] never raises a validation error, whatever
    the packer, the store and the solver, since it does not call
    [_validate_objects].  For the point with start frame 99 in 4 frames
    [_validate_objects] would raise the error that names the object and
    the rule, while [pack] builds a model that has a solution, hands it to
    the solver and returns; the point then occurs in no frame. *)
Theorem pack_never_validates :
  (∀ (Solve : CpSolver) (pk : FormatPacker) (h : heap) msg,
     pack Solve pk h ≠ Raise (ValueError msg)) ∧
  FormatPacker_init c1_store [IPoint 0%nat] 16 4 = Ok (c1_store, c1_packer) ∧
  _validate_objects c1_packer c1_store
    = Raise (ValueError
        "Invalid Start_Frame: Object A has invalid Start_Frame=99; must be between 0 and 3.") ∧
  pack c1_solver c1_packer c1_store = Ok c1_packed ∧
  satisfies (Value c1_packed) (solved_model c1_packed) = true ∧
  occurrences (Value c1_packed) (store c1_packed 0%nat) 4 = Ok 0.
Proof.
  split_and!; try (vm_compute; reflexivity).
  intros Solve pk h. apply no_ValueError_pack.
Qed.

(** ** C6: the empty input *)

Lemma add_frames_empty pk (h : heap) frames m :
  objects pk = [] -> ∃ m', add_frames pk h frames m = Ok m'.
Proof.
  intros Hobjs. revert m. induction frames as [|f frames IH]; intros m; simpl.
  - by eexists.
  - rewrite Hobjs. simpl. apply IH.
Qed.

(** A model in which a maximum over no variables is required has no
    solution. *)
Lemma MaxEquality_empty_unsatisfiable a m t :
  MaxEquality t [] ∈ constraints m -> satisfies a m = false.
Proof.
  intros Hin. destruct (satisfies a m) eqn:Hsat; [|done].
  by apply (satisfies_holds _ _ _ Hsat) in Hin.
Qed.

(** On a model without solution a sound solver finds nothing in stage 1
    and [pack] raises. *)
Lemma pack_infeasible Solve pk (h h1 : heap) bm :
  _build_model pk h = Ok (h1, bm) ->
  (∀ a, satisfies a (model bm) = false) ->
  sound Solve ->
  pack Solve pk h = Raise (FramePackingError stage1_message).
Proof.
  intros Hbm Hunsat Hsound. unfold pack. rewrite Hbm. simpl. unfold _solve.
  destruct (Solve _) as [st a] eqn:E.
  destruct (found_solution st) eqn:Hst; [|done].
  pose proof (Hsound _ _ _ E Hst) as Hs.
  change (satisfies a (model bm) = true) in Hs. by rewrite Hunsat in Hs.
Qed.

(** C6 fails on the code in its second half.  For an empty input and a
    positive frame size the constructor does compute
    [UNIT = frame_size_bits] and [CAP = 1]; but [_build_model] then emits
    [AddMaxEquality(max_end, [])], a maximum over no variable, which no
    assignment satisfies.  The model has no solution, trivial or other, and
    with every sound solver [pack] raises the stage 1
    [FramePackingError]. *)
Theorem empty_input_is_infeasible
    (h : heap) (frame_size num_frames : Z) :
  0 < frame_size ->
  ∃ pk bm,
    FormatPacker_init h [] frame_size num_frames = Ok (h, pk) ∧
    UNIT pk = frame_size * 8 ∧ CAP pk = 1 ∧
    _build_model pk h = Ok (h, bm) ∧
    MaxEquality (max_end bm) [] ∈ constraints (model bm) ∧
    (∀ a, satisfies a (model bm) = false) ∧
    ∀ Solve : CpSolver,
      sound Solve ->
      pack Solve pk h = Raise (FramePackingError stage1_message).
Proof.
  intros Hfs.
  assert (gcd_all [frame_size * 8] = frame_size * 8) as Hgcd.
  { simpl. rewrite Z.gcd_0_r. lia. }
  assert (frame_size * 8 / (frame_size * 8) = 1) as Hcap
    by (apply Z_div_same_full; lia).
  set (pk := mkFormatPacker [] [] frame_size (frame_size * 8) num_frames 8
               (frame_size * 8) 1).
  destruct (add_frames_empty pk h (range num_frames) empty_model eq_refl)
    as [m3 Hm3].
  set (m4 := (NewConstant 0 m3).2).
  set (m6 := (NewIntVar 0 1 m4).2).
  set (bm := mkBuiltModel (Add (MaxEquality (length (variables m4)) []) m6)
               (length (variables m3)) (length (variables m4))).
  assert (_build_model pk h = Ok (h, bm)) as Hbm.
  { unfold _build_model. simpl. rewrite Hm3. simpl. done. }
  assert (MaxEquality (max_end bm) [] ∈ constraints (model bm)) as Hin
    by apply in_Add.
  assert (∀ a, satisfies a (model bm) = false) as Hunsat
    by (intros a; by eapply MaxEquality_empty_unsatisfiable).
  exists pk, bm. split_and!; try done.
  - unfold FormatPacker_init. cbn [add_objects map omap list_omap app].
    rewrite Hgcd. unfold floordiv.
    rewrite decide_False by lia. simpl. by rewrite Hcap.
  - intros Solve Hsound. by eapply pack_infeasible.
Qed.

Lemma checking_solver_sound candidate : sound (checking_solver candidate).
Proof.
  intros m st a. unfold checking_solver.
  destruct (satisfies candidate m) eqn:E.
  - by intros [= <- <-].
  - by intros [= <- <-].
Qed.

Lemma empty_input_is_infeasible_witness :
  ∃ pk bm,
    FormatPacker_init no_objects [] 16 4 = Ok (no_objects, pk) ∧
    UNIT pk = 16 * 8 ∧ CAP pk = 1 ∧
    _build_model pk no_objects = Ok (no_objects, bm) ∧
    MaxEquality (max_end bm) [] ∈ constraints (model bm) ∧
    (∀ a, satisfies a (model bm) = false) ∧
    ∀ Solve : CpSolver,
      sound Solve ->
      pack Solve pk no_objects = Raise (FramePackingError stage1_message).
Proof. apply (empty_input_is_infeasible no_objects 16 4). lia. Defined.

(** With the checking solver, whatever it offers, [pack] of the empty
    input raises. *)
Example empty_input_pack_raises candidate :
  FormatPacker_init no_objects [] 16 4 = Ok (no_objects, empty_packer) ∧
  pack (checking_solver candidate) empty_packer no_objects
  = Raise (FramePackingError stage1_message).
Proof.
  split; [vm_compute; reflexivity|].
  destruct (_build_model empty_packer no_objects) as [[h1 bm]|e] eqn:Hbm;
    [|by vm_compute in Hbm].
  apply (pack_infeasible _ _ _ h1 bm Hbm); [|apply checking_solver_sound].
  intros a. apply (MaxEquality_empty_unsatisfiable a _ 1%nat).
  vm_compute in Hbm. injection Hbm as _ <-. apply list_elem_of_In.
  vm_compute. tauto.
Qed.

(** * Further properties *)

(** ** The variable table only grows *)

#[export] Instance keeps_refl : Reflexive keeps.
Proof. intros m. unfold keeps. done. Qed.

#[export] Instance keeps_trans : Transitive keeps.
Proof. intros m1 m2 m3. unfold keeps. by etrans. Qed.

Lemma keeps_Add c m : keeps m (Add c m).
Proof. unfold keeps. simpl. done. Qed.

Lemma keeps_NewIntVar lb ub m : keeps m (NewIntVar lb ub m).2.
Proof. unfold keeps. simpl. by apply prefix_app_r. Qed.

Lemma lookup_NewIntVar lb ub m :
  variables (NewIntVar lb ub m).2 !! (NewIntVar lb ub m).1 = Some (lb, ub).
Proof. simpl. by rewrite lookup_app_r, Nat.sub_diag. Qed.

Lemma keeps_lookup m m' x d :
  keeps m m' -> variables m !! x = Some d -> variables m' !! x = Some d.
Proof. intros Hk Hx. by eapply prefix_lookup_Some. Qed.

Lemma keeps_new_bool_vars n m : keeps m (new_bool_vars n m).2.
Proof.
  revert m. induction n as [|n IH]; intros m; simpl; [done|].
  specialize (IH (NewBoolVar m).2).
  destruct (new_bool_vars n (NewBoolVar m).2) as [bs m2] eqn:E.
  unfold NewBoolVar in *. simpl in *. rewrite E. simpl.
  etrans; [|exact IH]. apply (keeps_NewIntVar 0 1 m).
Qed.

Lemma bounded_keeps pk m m' o : keeps m m' -> bounded pk m o -> bounded pk m' o.
Proof. intros Hk (su & Hsu & Hdom). exists su. split; [done|]. by eapply keeps_lookup. Qed.

Lemma ended_grows pk m m' o eb : grows m m' -> ended pk m o eb -> ended pk m' o eb.
Proof. intros Hg (su & Hsu & Hc). exists su. split; [done|]. by apply Hg. Qed.

(** ** More of what [_build_model] establishes *)

Section build_more.
Variable pk : FormatPacker.
Implicit Types (h : heap) (p q : loc) (ps : list loc) (m : CpModel).

Lemma declare_point_vars p h m h' m' :
  declare_point pk p h m = Ok (h', m') ->
  keeps m m' ∧ bounded pk m' (h' p).
Proof.
  unfold declare_point. intros H. inv_bind H as sz Hsz.
  apply floordiv_Ok in Hsz as [Hunit ->].
  pose proof (keeps_NewIntVar 0 (CAP pk - Size (h p) / UNIT pk) m) as Hk1.
  pose proof (lookup_NewIntVar 0 (CAP pk - Size (h p) / UNIT pk) m) as Hl1.
  cbn [NewIntVar] in H. cbn [NewIntVar fst snd] in Hk1, Hl1.
  set (m1 := mkCpModel _ _ _ _) in *.
  inv_bind H as m2 Hx.
  assert (variables m2 = variables m1) as Hv2.
  { destruct (Offset (h p)) as [off|].
    - inv_bind Hx as q Hq. by injection Hx as <-.
    - by injection Hx as <-. }
  clear Hx.
  assert (keeps m m2) as Hk2 by (unfold keeps in *; by rewrite Hv2).
  rewrite <- Hv2 in Hl1.
  destruct (decide (Start_Frame (h p) = None ∧ Period (h p) > 1)) as [Hph|Hph].
  - pose proof (keeps_new_bool_vars (Z.to_nat (Period (h p))) m2) as Hk3.
    destruct (new_bool_vars (Z.to_nat (Period (h p))) m2) as [bs m3].
    simpl in Hk3. injection H as <- <-.
    assert (keeps m2 (Add (ExactlyOne bs) m3)) as Hk4
      by (etrans; [done|apply keeps_Add]).
    split; [by etrans|]. rewrite fn_lookup_insert. eexists. split; [done|].
    simpl. by eapply keeps_lookup.
  - injection H as <- <-. split; [done|].
    rewrite fn_lookup_insert. eexists. split; [done|]. done.
Qed.

Lemma declare_points_vars ps h m h1 m1 :
  declare_points pk ps h m = Ok (h1, m1) ->
  keeps m m1 ∧ ∀ p, p ∈ ps -> bounded pk m1 (h1 p).
Proof.
  revert h m. induction ps as [|p ps IH]; intros h m H; simpl in H.
  - injection H as <- <-. split; [done|set_solver].
  - inv_bind H as x Hx. destruct x as [h' m'].
    apply declare_point_vars in Hx as [Hk Hb].
    pose proof (declare_points_spec _ _ _ _ _ _ H) as (_ & Hother & _).
    apply IH in H as [Hk' Hb']. split; [by etrans|].
    intros q Hq. destruct (decide (q ∈ ps)) as [Hin|Hin]; [by apply Hb'|].
    apply elem_of_cons in Hq as [->|Hq]; [|done].
    rewrite Hother by done. by eapply bounded_keeps.
Qed.

Lemma equate_phases_variables ss pv1 pv2 m m' :
  equate_phases ss pv1 pv2 m = Ok m' -> variables m' = variables m.
Proof.
  revert m. induction ss as [|s ss IH]; intros m H; simpl in H.
  - by injection H as <-.
  - destruct (pv2 !! s), (pv1 !! s); try done. by apply IH in H.
Qed.

Lemma link_variables P1 P2 m m' :
  link pk P1 P2 m = Ok m' -> variables m' = variables m.
Proof.
  unfold link. intros H. inv_bind H as m1 Hx. inv_bind H as x0 Hx0.
  inv_bind H as x1 Hx1. inv_bind H as q Hq. injection H as <-. simpl.
  destruct (phase_vars P1), (phase_vars P2);
    try (by injection Hx as <-). by eapply equate_phases_variables.
Qed.

Lemma chain_variables h ps m m' :
  chain pk h ps m = Ok m' -> variables m' = variables m.
Proof.
  revert m. induction ps as [|p1 ps IH]; intros m H; simpl in H.
  - by injection H as <-.
  - destruct ps as [|p2 ps]; [by injection H as <-|].
    inv_bind H as m1 Hx. apply link_variables in Hx. apply IH in H. congruence.
Qed.

Lemma chain_groups_variables h gs m m' :
  chain_groups pk h gs m = Ok m' -> variables m' = variables m.
Proof.
  revert m. induction gs as [|g gs IH]; intros m H; simpl in H.
  - by injection H as <-.
  - inv_bind H as m1 Hx. apply chain_variables in Hx. apply IH in H. congruence.
Qed.

(** Step 3 leaves one [NoOverlap] constraint per frame, over the
    intervals of that frame. *)
Lemma add_frames_spec h frames m m' :
  add_frames pk h frames m = Ok m' ->
  variables m' = variables m ∧
  ∀ frame, frame ∈ frames ->
    ∃ ivs, frame_intervals pk h (objects pk) frame = Ok ivs ∧
           NoOverlap ivs ∈ constraints m'.
Proof.
  revert m. induction frames as [|f frames IH]; intros m H; simpl in H.
  - injection H as <-. split; [done|set_solver].
  - inv_bind H as ivs Hivs. pose proof (add_frames_grows _ _ _ _ _ H) as Hg.
    apply IH in H as [Hv Hall]. split; [by rewrite Hv|].
    intros frame [->|Hin]%elem_of_cons; [|by apply Hall].
    exists ivs. split; [done|]. apply Hg, in_Add.
Qed.

(** Step 5.1 leaves one end variable per object, tied to its start. *)
Lemma end_units_spec h ps m ebs m' :
  end_units pk h ps m = Ok (ebs, m') ->
  keeps m m' ∧ Forall2 (fun p eb => ended pk m' (h p) eb) ps ebs.
Proof.
  revert m ebs. induction ps as [|p ps IH]; intros m ebs H; simpl in H.
  - injection H as <- <-. split; [done|constructor].
  - inv_bind H as su Hsu. inv_bind H as q Hq. inv_bind H as x1 Hx1.
    destruct x1 as [ebs' m2]. injection H as <- <-.
    apply get_start_unit_Ok in Hsu. apply floordiv_Ok in Hq as [_ ->].
    pose proof (end_units_grows _ _ _ _ _ _ Hx1) as Hg.
    apply IH in Hx1 as [Hk HF]. split.
    + etrans; [|exact Hk]. etrans; [|apply keeps_Add].
      apply (keeps_NewIntVar 0 (CAP pk) m).
    + constructor; [|done]. exists su. split; [done|]. apply Hg, in_Add.
Qed.

Lemma _build_model_more h h1 bm :
  _build_model pk h = Ok (h1, bm) ->
  (∀ p, p ∈ objects pk -> bounded pk (model bm) (h1 p)) ∧
  (∀ frame, frame ∈ range (NUM_FRAMES pk) ->
     ∃ ivs, frame_intervals pk h1 (objects pk) frame = Ok ivs ∧
            NoOverlap ivs ∈ constraints (model bm)) ∧
  (∃ u, total_util_expr pk h1 (objects pk) = Ok u ∧
        variables (model bm) !! total_util bm = Some (u, u)) ∧
  (∃ ebs, MaxEquality (max_end bm) ebs ∈ constraints (model bm) ∧
          variables (model bm) !! max_end bm = Some (0, CAP pk) ∧
          Forall2 (fun p eb => ended pk (model bm) (h1 p) eb) (objects pk) ebs).
Proof.
  unfold _build_model. intros H. inv_bind H as x Hx. destruct x as [h' m1].
  inv_bind H as m2 Hx0. inv_bind H as m3 Hx1.
  inv_bind H as u Hu.
  pose proof (keeps_NewIntVar u u m3) as Hk4.
  pose proof (lookup_NewIntVar u u m3) as Hl4.
  cbn [NewConstant NewIntVar] in H. cbn [NewIntVar fst snd] in Hk4, Hl4.
  set (m4 := mkCpModel _ _ _ _) in *.
  inv_bind H as y Hx3. destruct y as [ebs m5].
  pose proof (keeps_NewIntVar 0 (CAP pk) m5) as Hk6.
  pose proof (lookup_NewIntVar 0 (CAP pk) m5) as Hl6.
  cbn [NewIntVar] in H. cbn [NewIntVar fst snd] in Hk6, Hl6.
  set (m6 := mkCpModel (variables m5 ++ _) _ _ _) in *.
  injection H as <- <-. cbn [model total_util max_end].
  apply declare_points_vars in Hx as [_ Hb].
  apply chain_groups_variables in Hx0 as Hv2.
  pose proof (add_frames_grows _ _ _ _ _ Hx1) as Hg3.
  apply add_frames_spec in Hx1 as [Hv3 Hframes].
  pose proof (end_units_grows _ _ _ _ _ _ Hx3) as Hg5.
  apply end_units_spec in Hx3 as [Hk5 Hends].
  assert (keeps m1 m3) as Hk13 by (unfold keeps; by rewrite Hv3, Hv2).
  assert (keeps m1 (Add (MaxEquality (length (variables m5)) ebs) m6)) as Hk.
  { etrans; [exact Hk13|]. etrans; [exact Hk4|]. etrans; [exact Hk5|].
    etrans; [exact Hk6|]. apply keeps_Add. }
  assert (grows m3 (Add (MaxEquality (length (variables m5)) ebs) m6)) as Hg.
  { etrans; [|apply grows_Add]. etrans; [|exact Hg5].
    unfold grows. simpl. reflexivity. }
  split_and!.
  - intros p Hp. eapply bounded_keeps; [exact Hk|by apply Hb].
  - intros frame Hf. destruct (Hframes frame Hf) as (ivs & Hivs & Hin).
    exists ivs. split; [done|]. by apply Hg.
  - exists u. split; [done|].
    eapply (keeps_lookup m4); [|done].
    etrans; [exact Hk5|]. etrans; [exact Hk6|]. apply keeps_Add.
  - exists ebs. split_and!; [apply in_Add|done|].
    eapply Forall2_impl; [exact Hends|]. intros p eb.
    apply ended_grows. etrans; [|apply grows_Add]. unfold grows. simpl.
    reflexivity.
Qed.
End build_more.

(** ** The unit of the packer *)

Lemma gcd_all_nonneg (l : list Z) : 0 <= gcd_all l.
Proof. destruct l; simpl; [done|apply Z.gcd_nonneg]. Qed.

Lemma gcd_all_zero (l : list Z) : gcd_all l = 0 <-> Forall (fun x => x = 0) l.
Proof.
  induction l as [|x l IH]; simpl.
  - split; [constructor|done].
  - rewrite Forall_cons, <- IH. split.
    + intros H. split.
      * by apply Z.gcd_eq_0_l in H.
      * by apply Z.gcd_eq_0_r in H.
    + intros [-> ->]. done.
Qed.

Lemma gcd_all_greatest (l : list Z) (d : Z) :
  (∀ x, x ∈ l -> (d | x)) -> (d | gcd_all l).
Proof.
  induction l as [|x l IH]; intros H; simpl.
  - apply Z.divide_0_r.
  - apply Z.gcd_greatest; [apply H; set_solver|]. apply IH. set_solver.
Qed.

Lemma UNIT_positive h items frame_size num_frames h1 pk :
  FormatPacker_init h items frame_size num_frames = Ok (h1, pk) -> 0 < UNIT pk.
Proof.
  intros (_ & _ & _ & _ & _ & Hunit & Hne & _)%FormatPacker_init_spec.
  pose proof (gcd_all_nonneg
    (map (fun p => Size (h1 p)) (objects pk)
     ++ omap (fun p => defined_offset (h1 p)) (objects pk)
     ++ [frame_size * 8])) as Hnn.
  rewrite <- Hunit in Hnn. lia.
Qed.

(** ** More of what [pack] establishes *)

Section pack_more.
Variable Solve : CpSolver.
Variable pk : FormatPacker.

Lemma pack_model (h : heap) pd :
  pack Solve pk h = Ok pd ->
  ∃ bm, _build_model pk h = Ok (store pd, bm) ∧
        variables (solved_model pd) = variables (model bm) ∧
        ∃ u, constraints (solved_model pd)
             = constraints (model bm) ++ [EqConst (total_util bm) u].
Proof.
  unfold pack. intros H. inv_bind H as x Hx. destruct x as [h1 bm].
  inv_bind H as y Hy. destruct y as [m a]. injection H as <-. simpl.
  apply _solve_spec in Hy as (Hc & Hv & _). by exists bm.
Qed.

Lemma packed_more (h : heap) pd :
  pack Solve pk h = Ok pd ->
  (∀ p, p ∈ objects pk -> bounded pk (solved_model pd) (store pd p)) ∧
  (∀ frame, frame ∈ range (NUM_FRAMES pk) ->
     ∃ ivs, frame_intervals pk (store pd) (objects pk) frame = Ok ivs ∧
            NoOverlap ivs ∈ constraints (solved_model pd)).
Proof.
  intros (bm & Hbm & Hv & u & Hc)%pack_model.
  apply _build_model_more in Hbm as (Hb & Hf & _). split.
  - intros p Hp. destruct (Hb p Hp) as (su & Hsu & Hdom).
    exists su. by rewrite Hv.
  - intros frame Hfr. destruct (Hf frame Hfr) as (ivs & Hivs & Hin).
    exists ivs. split; [done|]. rewrite Hc. set_solver.
Qed.
End pack_more.

(** ** Every object lies within the frame *)

Lemma start_bit_bounds Solve h items frame_size num_frames h1 pk pd p :
  FormatPacker_init h items frame_size num_frames = Ok (h1, pk) ->
  pack Solve pk h1 = Ok pd ->
  satisfies (Value pd) (solved_model pd) = true ->
  p ∈ objects pk ->
  ∃ su, start_unit (store pd p) = Some su ∧
        0 <= Value pd su * UNIT pk ∧
        Value pd su * UNIT pk + Size (store pd p) <= FRAME_SIZE_BITS pk.
Proof.
  intros Hinit Hpack Hsat Hp.
  pose proof (UNIT_positive _ _ _ _ _ _ Hinit) as Hpos.
  pose proof (UNIT_divides _ _ _ _ _ _ Hinit) as [Hbits Hdiv].
  destruct (Hdiv p Hp) as [Hsz _].
  apply FormatPacker_init_spec in Hinit as (_&_&_&_&_&_&_& Hcap &_).
  pose proof (packed_facts _ _ _ _ Hpack) as (Hsame & _).
  destruct (Hsame p) as (_ & Hsize & _).
  apply packed_more in Hpack as [Hb _].
  destruct (Hb p Hp) as (su & Hsu & Hdom).
  pose proof (satisfies_domain _ _ _ _ _ Hsat Hdom) as Hrange.
  exists su. split; [done|]. rewrite Hsize in *. split; [nia|].
  rewrite <- (div_mul_divides (UNIT pk) (Size (h1 p))) by (done || lia).
  rewrite <- (div_mul_divides (UNIT pk) (FRAME_SIZE_BITS pk)) by (done || lia).
  rewrite <- Hcap. nia.
Qed.

(** In a pack that succeeded with a solution of the emitted model, every
    object starts at a bit that is a non-negative multiple of [UNIT] and
    ends within the [FRAME_SIZE_BITS] bits of a frame. *)
Theorem objects_fit_in_frame
    (Solve : CpSolver) (h : heap) (items : list item) (frame_size num_frames : Z)
    (h1 : heap) (pk : FormatPacker) (pd : Packed) (p : loc) :
  FormatPacker_init h items frame_size num_frames = Ok (h1, pk) ->
  pack Solve pk h1 = Ok pd ->
  satisfies (Value pd) (solved_model pd) = true ->
  p ∈ objects pk ->
  ∃ b, start_bit pk (Value pd) (store pd p) = Ok b ∧
       (UNIT pk | b) ∧ 0 <= b ∧ b + Size (store pd p) <= FRAME_SIZE_BITS pk.
Proof.
  intros Hinit Hpack Hsat Hp.
  destruct (start_bit_bounds _ _ _ _ _ _ _ _ _ Hinit Hpack Hsat Hp)
    as (su & Hsu & Hlo & Hhi).
  exists (Value pd su * UNIT pk). unfold start_bit, get_start_unit.
  rewrite Hsu. split; [done|]. split; [by apply Z.divide_factor_r|done].
Qed.

Lemma objects_fit_in_frame_witness :
  ∃ b, start_bit s5_packer' (Value s5_packed) (store s5_packed 1%nat) = Ok b ∧
       (UNIT s5_packer' | b) ∧ 0 <= b ∧
       b + Size (store s5_packed 1%nat) <= FRAME_SIZE_BITS s5_packer'.
Proof.
  apply (objects_fit_in_frame s5_solver s5_built.1 [IGroup s5_built.2] 1000 32
           s5_normalized s5_packer' s5_packed 1%nat).
  - vm_compute. reflexivity.
  - vm_compute. reflexivity.
  - vm_compute. reflexivity.
  - apply (bool_decide_unpack _). vm_compute. exact I.
Defined.

(** ** Objects of one frame do not overlap *)

Lemma no_overlap_app a l1 l2 :
  no_overlap a (l1 ++ l2) = true ->
  no_overlap a l2 = true ∧
  ∀ x y, x ∈ l1 -> y ∈ l2 ->
    present a x = true -> present a y = true -> apart a x y = true.
Proof.
  induction l1 as [|i l1 IH]; simpl.
  - intros H. split; [done|]. intros x y Hx. by apply elem_of_nil in Hx.
  - intros [Hall H]%andb_true_iff. destruct (IH H) as [H2 Hap].
    split; [done|]. intros x y Hx Hy Hpx Hpy.
    apply elem_of_cons in Hx as [->|Hx]; [|by apply Hap].
    rewrite forallb_forall in Hall.
    specialize (Hall y). rewrite Hpx, Hpy in Hall. simpl in Hall.
    apply Hall. apply list_elem_of_In, elem_of_app. by right.
Qed.

Lemma apart_sym a x y : apart a x y = apart a y x.
Proof. unfold apart. apply orb_comm. Qed.

Lemma frame_intervals_lookup pk (h : heap) ps frame ivs (i : nat) p :
  frame_intervals pk h ps frame = Ok ivs -> ps !! i = Some p ->
  ∃ ivp, object_intervals pk (h p) frame = Ok ivp ∧ ivp ⊆ ivs.
Proof.
  revert ivs i. induction ps as [|q ps IH]; intros ivs i H Hi; [done|].
  simpl in H. inv_bind H as ivq Hq. inv_bind H as tl Htl. injection H as <-.
  destruct i as [|i]; simpl in Hi.
  - injection Hi as ->. exists ivq. split; [done|set_solver].
  - destruct (IH _ _ Htl Hi) as (ivp & Hp & Hsub). exists ivp.
    split; [done|set_solver].
Qed.

(** The intervals of two different positions of the list of objects are
    kept apart by the frame's [NoOverlap] constraint. *)
Lemma frame_intervals_apart pk a (h : heap) ps frame ivs (i j : nat) p q :
  frame_intervals pk h ps frame = Ok ivs -> no_overlap a ivs = true ->
  ps !! i = Some p -> ps !! j = Some q -> (i < j)%nat ->
  ∃ ivp ivq, object_intervals pk (h p) frame = Ok ivp ∧
             object_intervals pk (h q) frame = Ok ivq ∧
             ∀ x y, x ∈ ivp -> y ∈ ivq ->
               present a x = true -> present a y = true -> apart a x y = true.
Proof.
  revert ivs i j. induction ps as [|r ps IH]; intros ivs i j H Hno Hi Hj Hlt;
    [done|].
  simpl in H. inv_bind H as ivr Hr. inv_bind H as tl Htl. injection H as <-.
  apply no_overlap_app in Hno as [Hno Hap].
  destruct j as [|j]; [lia|]. simpl in Hj. destruct i as [|i]; simpl in Hi.
  - injection Hi as ->.
    destruct (frame_intervals_lookup _ _ _ _ _ _ _ Htl Hj) as (ivq & Hq & Hsub).
    exists ivr, ivq. split_and!; [done|done|].
    intros x y Hx Hy. apply Hap; [done|by apply Hsub].
  - apply (IH tl i j); [done|done|done|done|lia].
Qed.

Lemma optional_intervals_elem sb sz frame p (s : nat) pvs ivs (k : nat) pv :
  optional_intervals sb sz frame p s pvs = Ok ivs ->
  pvs !! k = Some pv -> frame mod p = Z.of_nat (s + k) ->
  mkIntervalVar sb sz (Some pv) ∈ ivs.
Proof.
  revert s ivs k. induction pvs as [|pv' pvs IH]; intros s ivs k H Hk Hm;
    [done|].
  simpl in H. inv_bind H as r Hr. inv_bind H as tl Htl. injection H as <-.
  apply pymod_Ok in Hr as [_ ->]. destruct k as [|k]; simpl in Hk.
  - injection Hk as ->. rewrite Nat.add_0_r in Hm.
    rewrite decide_True by done. set_solver.
  - assert (mkIntervalVar sb sz (Some pv) ∈ tl) as Hin.
    { apply (IH (S s) tl k); [done|done|]. rewrite Hm. f_equal. lia. }
    case_decide; set_solver.
Qed.

Lemma first_true_lookup a i pvs s :
  first_true a i pvs = Ok s ->
  ∃ (k : nat) pv, s = (i + k)%nat ∧ pvs !! k = Some pv ∧ truthy a pv = true.
Proof.
  revert i. induction pvs as [|pv pvs IH]; intros i H; simpl in H; [done|].
  destruct (truthy a pv) eqn:E.
  - injection H as <-. exists 0%nat, pv. split_and!; [lia|done|done].
  - apply IH in H as (k & pv' & -> & Hk & Ht). exists (S k), pv'.
    split_and!; [lia|done|done].
Qed.

(** An object that the tables show in a frame has an interval in that
    frame's [NoOverlap] constraint, and the interval is present.  The
    object has a start frame or a positive period: with neither, step 3
    emits no interval for it. *)
Lemma object_intervals_present pk m a o frame ivs su :
  declared pk m o -> start_unit o = Some su ->
  object_intervals pk o frame = Ok ivs ->
  in_frame a o frame = Ok true ->
  Start_Frame o ≠ None ∨ 0 < Period o ->
  ∃ iv, iv ∈ ivs ∧ iv_start iv = su ∧ iv_size iv = Size o / UNIT pk ∧
        present a iv = true.
Proof.
  intros (su' & Hsu' & _ & Hph) Hsu Hivs Hin Hper.
  unfold object_intervals in Hivs. inv_bind Hivs as sz Hsz.
  apply floordiv_Ok in Hsz as [_ ->]. inv_bind Hivs as sb Hsb.
  apply get_start_unit_Ok in Hsb. rewrite Hsu in Hsb. injection Hsb as <-.
  unfold in_frame in Hin.
  destruct (decide (has_phases o)) as [[Hsf Hp]|Hnot].
  - destruct Hph as [Hlen _].
    rewrite decide_False in Hivs by (intros [?|?]; [done|lia]).
    destruct (phase_vars o) as [|pv0 pvs] eqn:Hpv; [simpl in Hlen; lia|].
    rewrite <- Hpv in *. inv_bind Hin as phase Hphase.
    inv_bind Hin as r Hr. apply pymod_Ok in Hr as [_ ->].
    injection Hin as Hin. apply bool_decide_eq_true in Hin.
    apply first_true_lookup in Hphase as (k & pv & -> & Hk & Ht).
    exists (mkIntervalVar su (Size o / UNIT pk) (Some pv)).
    split_and!; [|done|done|].
    + by eapply optional_intervals_elem.
    + unfold present. simpl. done.
  - rewrite Hph in Hin.
    assert (Start_Frame o ≠ None ∨ Period o = 1) as Hbranch.
    { destruct (Start_Frame o) eqn:E; [by left|]. right.
      unfold has_phases in Hnot. destruct Hper as [?|?]; [done|].
      destruct (decide (Period o = 1)); [done|]. exfalso. apply Hnot.
      split; [done|lia]. }
    rewrite decide_True in Hivs by done.
    case_decide as Hge; [|done].
    destruct (pymod _ _) as [r|] eqn:Hr; [|done]. simpl in Hin, Hivs.
    injection Hin as Hin. apply bool_decide_eq_true in Hin. subst r.
    rewrite decide_True in Hivs by done. injection Hivs as <-.
    exists (mkIntervalVar su (Size o / UNIT pk) None).
    split_and!; [set_solver|done|done|done].
Qed.

Lemma range_elem f n : 0 <= f < n -> f ∈ range n.
Proof. unfold range. rewrite elem_of_seqZ. lia. Qed.

(** In a solution, two entries of [self.objects] that both occur in a
    frame of the schedule are kept apart, counted in units. *)
Lemma objects_apart Solve pk (h : heap) pd (i j : nat) p q frame :
  pack Solve pk h = Ok pd ->
  satisfies (Value pd) (solved_model pd) = true ->
  objects pk !! i = Some p -> objects pk !! j = Some q -> i ≠ j ->
  0 <= frame < NUM_FRAMES pk ->
  Start_Frame (store pd p) ≠ None ∨ 0 < Period (store pd p) ->
  Start_Frame (store pd q) ≠ None ∨ 0 < Period (store pd q) ->
  in_frame (Value pd) (store pd p) frame = Ok true ->
  in_frame (Value pd) (store pd q) frame = Ok true ->
  ∃ sup suq,
    start_unit (store pd p) = Some sup ∧ start_unit (store pd q) = Some suq ∧
    (Value pd sup + Size (store pd p) / UNIT pk <= Value pd suq ∨
     Value pd suq + Size (store pd q) / UNIT pk <= Value pd sup).
Proof.
  intros Hpack Hsat Hi Hj Hij Hframe Hpp Hpq Hinp Hinq.
  pose proof (packed_facts _ _ _ _ Hpack) as (_ & Hdecl & _).
  apply packed_more in Hpack as [_ Hframes].
  destruct (Hframes frame (range_elem _ _ Hframe)) as (ivs & Hivs & Hno).
  apply (satisfies_holds _ _ _ Hsat) in Hno. simpl in Hno.
  assert (p ∈ objects pk) as Hp by (by eapply list_elem_of_lookup_2).
  assert (q ∈ objects pk) as Hq by (by eapply list_elem_of_lookup_2).
  pose proof (Hdecl p Hp) as Hdeclp. pose proof (Hdecl q Hq) as Hdeclq.
  destruct Hdeclp as (sup & Hsup & _). destruct Hdeclq as (suq & Hsuq & _).
  exists sup, suq. split; [done|]. split; [done|].
  destruct (decide (i < j)%nat) as [Hlt|Hge].
  - destruct (frame_intervals_apart _ _ _ _ _ _ _ _ _ _ Hivs Hno Hi Hj Hlt)
      as (ivp & ivq & Hop & Hoq & Hap).
    destruct (object_intervals_present pk _ (Value pd) _ frame ivp sup
                (Hdecl p Hp) Hsup Hop Hinp Hpp) as (x & Hx & Hx1 & Hx2 & Hx3).
    destruct (object_intervals_present pk _ (Value pd) _ frame ivq suq
                (Hdecl q Hq) Hsuq Hoq Hinq Hpq) as (y & Hy & Hy1 & Hy2 & Hy3).
    specialize (Hap x y Hx Hy Hx3 Hy3). unfold apart in Hap.
    rewrite Hx1, Hx2, Hy1, Hy2 in Hap.
    apply orb_true_iff in Hap as [Hap|Hap]; apply Z.leb_le in Hap; lia.
  - assert (j < i)%nat as Hlt by lia.
    destruct (frame_intervals_apart _ _ _ _ _ _ _ _ _ _ Hivs Hno Hj Hi Hlt)
      as (ivq & ivp & Hoq & Hop & Hap).
    destruct (object_intervals_present pk _ (Value pd) _ frame ivp sup
                (Hdecl p Hp) Hsup Hop Hinp Hpp) as (x & Hx & Hx1 & Hx2 & Hx3).
    destruct (object_intervals_present pk _ (Value pd) _ frame ivq suq
                (Hdecl q Hq) Hsuq Hoq Hinq Hpq) as (y & Hy & Hy1 & Hy2 & Hy3).
    specialize (Hap y x Hy Hx Hy3 Hx3). unfold apart in Hap.
    rewrite Hx1, Hx2, Hy1, Hy2 in Hap.
    apply orb_true_iff in Hap as [Hap|Hap]; apply Z.leb_le in Hap; lia.
Qed.

(** In a pack that succeeded with a solution of the emitted model, two
    entries of [self.objects] that the tables show in the same frame of
    the schedule occupy disjoint bit ranges: one ends where or before the
    other starts.  Each of the two has a start frame or a positive
    period. *)
Theorem objects_do_not_overlap
    (Solve : CpSolver) (h : heap) (items : list item) (frame_size num_frames : Z)
    (h1 : heap) (pk : FormatPacker) (pd : Packed) (i j : nat) (p q : loc)
    (frame : Z) :
  FormatPacker_init h items frame_size num_frames = Ok (h1, pk) ->
  pack Solve pk h1 = Ok pd ->
  satisfies (Value pd) (solved_model pd) = true ->
  objects pk !! i = Some p -> objects pk !! j = Some q -> i ≠ j ->
  0 <= frame < NUM_FRAMES pk ->
  Start_Frame (h1 p) ≠ None ∨ 0 < Period (h1 p) ->
  Start_Frame (h1 q) ≠ None ∨ 0 < Period (h1 q) ->
  in_frame (Value pd) (store pd p) frame = Ok true ->
  in_frame (Value pd) (store pd q) frame = Ok true ->
  ∃ bp bq, start_bit pk (Value pd) (store pd p) = Ok bp ∧
           start_bit pk (Value pd) (store pd q) = Ok bq ∧
           (bp + Size (store pd p) <= bq ∨ bq + Size (store pd q) <= bp).
Proof.
  intros Hinit Hpack Hsat Hi Hj Hij Hframe Hpp Hpq Hinp Hinq.
  pose proof (UNIT_positive _ _ _ _ _ _ Hinit) as Hpos.
  pose proof (UNIT_divides _ _ _ _ _ _ Hinit) as [_ Hdiv].
  pose proof (packed_facts _ _ _ _ Hpack) as (Hsame & _).
  assert (p ∈ objects pk) as Hp by (by eapply list_elem_of_lookup_2).
  assert (q ∈ objects pk) as Hq by (by eapply list_elem_of_lookup_2).
  destruct (Hsame p) as (_ & Hsp & Hperp & Hsfp & _).
  destruct (Hsame q) as (_ & Hsq & Hperq & Hsfq & _).
  destruct (Hdiv p Hp) as [Hdp _]. destruct (Hdiv q Hq) as [Hdq _].
  destruct (objects_apart Solve pk h1 pd i j p q frame)
    as (sup & suq & Hsup & Hsuq & Hap); try done.
  { by rewrite Hsfp, Hperp. }
  { by rewrite Hsfq, Hperq. }
  exists (Value pd sup * UNIT pk), (Value pd suq * UNIT pk).
  unfold start_bit, get_start_unit. rewrite Hsup, Hsuq.
  split; [done|]. split; [done|].
  rewrite Hsp, Hsq in *.
  pose proof (div_mul_divides (UNIT pk) (Size (h1 p)) ltac:(lia) Hdp) as Hep.
  pose proof (div_mul_divides (UNIT pk) (Size (h1 q)) ltac:(lia) Hdq) as Heq.
  destruct Hap as [Hap|Hap]; [left|right]; nia.
Qed.

Lemma objects_do_not_overlap_witness :
  ∃ bp bq, start_bit s5_packer' (Value s5_packed) (store s5_packed 0%nat) = Ok bp ∧
           start_bit s5_packer' (Value s5_packed) (store s5_packed 1%nat) = Ok bq ∧
           (bp + Size (store s5_packed 0%nat) <= bq
            ∨ bq + Size (store s5_packed 1%nat) <= bp).
Proof.
  apply (objects_do_not_overlap s5_solver s5_built.1 [IGroup s5_built.2] 1000 32
           s5_normalized s5_packer' s5_packed 0%nat 1%nat 0%nat 1%nat 1).
  - vm_compute. reflexivity.
  - vm_compute. reflexivity.
  - vm_compute. reflexivity.
  - vm_compute. reflexivity.
  - vm_compute. reflexivity.
  - lia.
  - replace (NUM_FRAMES s5_packer') with 32 by (vm_compute; reflexivity). lia.
  - left. vm_compute. discriminate.
  - left. vm_compute. discriminate.
  - vm_compute. reflexivity.
  - vm_compute. reflexivity.
Defined.

(** ** Which exceptions [_build_model] and [pack] raise *)

Lemma floordiv_nonzero a b : b ≠ 0 -> floordiv a b = Ok (a / b).
Proof. intros Hb. unfold floordiv. by rewrite decide_False. Qed.

Lemma pymod_nonzero a b : b ≠ 0 -> pymod a b = Ok (a mod b).
Proof. intros Hb. unfold pymod. by rewrite decide_False. Qed.

Section returns.
Variable pk : FormatPacker.
Hypothesis Hunit : UNIT pk ≠ 0.
Implicit Types (h : heap) (p q : loc) (ps : list loc) (m mm : CpModel).

Lemma declare_point_returns p h m :
  ∃ h' m', declare_point pk p h m = Ok (h', m').
Proof.
  unfold declare_point. rewrite floordiv_nonzero by done.
  cbn [NewIntVar]. destruct (Offset (h p)) as [off|].
  - rewrite floordiv_nonzero by done. simpl. case_decide.
    + destruct (new_bool_vars _ _). by eexists _, _.
    + by eexists _, _.
  - simpl. case_decide.
    + destruct (new_bool_vars _ _). by eexists _, _.
    + by eexists _, _.
Qed.

Lemma declare_points_returns ps h m :
  ∃ h1 m1, declare_points pk ps h m = Ok (h1, m1).
Proof.
  revert h m. induction ps as [|p ps IH]; intros h m; simpl.
  - by eexists _, _.
  - destruct (declare_point_returns p h m) as (h' & m' & ->). simpl. apply IH.
Qed.

Lemma equate_phases_returns ss pv1 pv2 m :
  (∀ s, s ∈ ss -> (s < length pv1)%nat ∧ (s < length pv2)%nat) ->
  ∃ m', equate_phases ss pv1 pv2 m = Ok m'.
Proof.
  revert m. induction ss as [|s ss IH]; intros m H; simpl; [by eexists|].
  destruct (H s) as [H1 H2]; [set_solver|].
  apply lookup_lt_is_Some_2 in H1 as [b1 ->].
  apply lookup_lt_is_Some_2 in H2 as [b2 ->].
  apply IH. intros s' Hs'. apply H. set_solver.
Qed.

Lemma declared_phase_vars mm o :
  declared pk mm o -> phase_vars o ≠ [] ->
  length (phase_vars o) = Z.to_nat (Period o).
Proof.
  intros (su & _ & _ & Hph) Hne. by destruct (decide (has_phases o)) as [?|?];
    [destruct Hph|].
Qed.

Lemma link_returns P1 P2 m mm :
  declared pk mm P1 -> declared pk mm P2 -> Period P1 = Period P2 ->
  ∃ m', link pk P1 P2 m = Ok m'.
Proof.
  intros H1 H2 Hper. unfold link.
  assert (∃ m1, match phase_vars P1, phase_vars P2 with
                | _ :: _, _ :: _ =>
                    equate_phases (seq 0 (Z.to_nat (Period P1)))
                      (phase_vars P1) (phase_vars P2) m
                | _, _ => Ok m
                end = Ok m1) as [m1 ->].
  { pose proof (declared_phase_vars _ _ H1) as Hl1.
    pose proof (declared_phase_vars _ _ H2) as Hl2.
    destruct (phase_vars P1) as [|b1 pv1] eqn:E1; [by eexists|].
    destruct (phase_vars P2) as [|b2 pv2] eqn:E2; [by eexists|].
    apply equate_phases_returns. intros s Hs%elem_of_seq.
    rewrite Hl1, Hl2 by done. rewrite <- Hper. lia. }
  destruct H1 as (su1 & Hsu1 & _). destruct H2 as (su2 & Hsu2 & _).
  unfold get_start_unit. rewrite Hsu1, Hsu2.
  rewrite floordiv_nonzero by done. simpl. by eexists.
Qed.

Lemma chain_returns h ps m mm :
  (∀ p, p ∈ ps -> declared pk mm (h p)) ->
  (∀ (i : nat) p1 p2, ps !! i = Some p1 -> ps !! S i = Some p2 ->
     Period (h p1) = Period (h p2)) ->
  ∃ m', chain pk h ps m = Ok m'.
Proof.
  revert m. induction ps as [|p1 ps IH]; intros m Hd Hper; simpl;
    [by eexists|].
  destruct ps as [|p2 ps]; [by eexists|].
  destruct (link_returns (h p1) (h p2) m mm) as [m1 ->].
  - apply Hd. set_solver.
  - apply Hd. set_solver.
  - by apply (Hper 0%nat).
  - simpl. apply IH.
    + intros p Hp. apply Hd. set_solver.
    + intros i q1 q2 Hq1 Hq2. by apply (Hper (S i)).
Qed.

Lemma chain_groups_returns h gs m mm :
  (∀ g p, g ∈ gs -> p ∈ GroupObjectList.points g -> declared pk mm (h p)) ->
  (∀ g (i : nat) p1 p2, g ∈ gs ->
     GroupObjectList.points g !! i = Some p1 ->
     GroupObjectList.points g !! S i = Some p2 ->
     Period (h p1) = Period (h p2)) ->
  ∃ m', chain_groups pk h gs m = Ok m'.
Proof.
  revert m. induction gs as [|g gs IH]; intros m Hd Hper; simpl;
    [by eexists|].
  destruct (chain_returns h (GroupObjectList.points g) m mm) as [m1 ->].
  - intros p Hp. apply (Hd g); [set_solver|done].
  - intros i p1 p2. apply Hper. set_solver.
  - simpl. apply IH.
    + intros g' p Hg'. apply Hd. set_solver.
    + intros g' i p1 p2 Hg'. apply Hper. set_solver.
Qed.

Lemma optional_intervals_returns sb sz frame (period : Z) s pvs :
  period ≠ 0 -> ∃ ivs, optional_intervals sb sz frame period s pvs = Ok ivs.
Proof.
  intros Hp. revert s. induction pvs as [|pv pvs IH]; intros s; simpl;
    [by eexists|].
  rewrite pymod_nonzero by done. destruct (IH (S s)) as [tl ->]. simpl.
  by eexists.
Qed.

(** Step 3 divides by the period only: for an object that went through
    step 1, it yields its intervals or raises [ZeroDivisionError], the
    latter for a period of 0 only. *)
Lemma object_intervals_cases mm o frame :
  declared pk mm o ->
  (∃ ivs, object_intervals pk o frame = Ok ivs) ∨
  (object_intervals pk o frame = Raise ZeroDivisionError ∧ Period o = 0).
Proof.
  intros (su & Hsu & _ & Hph). unfold object_intervals, get_start_unit.
  rewrite floordiv_nonzero, Hsu by done. simpl.
  destruct (decide (Start_Frame o ≠ None ∨ Period o = 1)) as [Hbranch|Hbranch].
  - destruct (decide (frame >= or_zero (Start_Frame o))) as [Hge|Hlt];
      [|left; by eexists].
    destruct (decide (Period o = 0)) as [Hz|Hnz].
    + right. split; [|done]. rewrite Hz. done.
    + left. rewrite pymod_nonzero by done. simpl. by eexists.
  - left. destruct (decide (has_phases o)) as [[_ Hp]|Hnot].
    + apply optional_intervals_returns. lia.
    + rewrite Hph. simpl. by eexists.
Qed.

Lemma frame_intervals_cases mm h ps frame :
  (∀ p, p ∈ ps -> declared pk mm (h p)) ->
  (∃ ivs, frame_intervals pk h ps frame = Ok ivs) ∨
  (frame_intervals pk h ps frame = Raise ZeroDivisionError ∧
   ∃ p, p ∈ ps ∧ Period (h p) = 0).
Proof.
  induction ps as [|p ps IH]; intros Hd; simpl; [left; by eexists|].
  destruct (object_intervals_cases mm (h p) frame) as [[ivs ->]|[-> Hz]].
  - apply Hd. set_solver.
  - simpl. destruct IH as [[tl ->]|[-> (q & Hq & Hz)]].
    + intros q Hq. apply Hd. set_solver.
    + left. simpl. by eexists.
    + right. split; [done|]. exists q. set_solver.
  - right. split; [done|]. exists p. set_solver.
Qed.

Lemma add_frames_cases mm h frames m :
  (∀ p, p ∈ objects pk -> declared pk mm (h p)) ->
  (∃ m', add_frames pk h frames m = Ok m') ∨
  (add_frames pk h frames m = Raise ZeroDivisionError ∧
   ∃ p, p ∈ objects pk ∧ Period (h p) = 0).
Proof.
  intros Hd. revert m. induction frames as [|f frames IH]; intros m; simpl;
    [left; by eexists|].
  destruct (frame_intervals_cases mm h (objects pk) f Hd) as [[ivs ->]|[-> Hz]].
  - simpl. apply IH.
  - by right.
Qed.

Lemma end_units_returns mm h ps m :
  (∀ p, p ∈ ps -> declared pk mm (h p)) ->
  ∃ ebs m', end_units pk h ps m = Ok (ebs, m').
Proof.
  revert m. induction ps as [|p ps IH]; intros m Hd; simpl;
    [by eexists _, _|].
  destruct (Hd p) as (su & Hsu & _); [set_solver|].
  unfold get_start_unit. rewrite Hsu, floordiv_nonzero by done. simpl.
  edestruct IH as (ebs & m' & ->).
  - intros q Hq. apply Hd. set_solver.
  - simpl. by eexists _, _.
Qed.
End returns.

(** Step 4 raises [ZeroDivisionError] exactly when some period is 0. *)
Lemma total_util_expr_cases pk (h : heap) ps :
  (∃ u, total_util_expr pk h ps = Ok u ∧ ∀ p, p ∈ ps -> Period (h p) ≠ 0) ∨
  (total_util_expr pk h ps = Raise ZeroDivisionError ∧
   ∃ p, p ∈ ps ∧ Period (h p) = 0).
Proof.
  induction ps as [|p ps IH]; simpl.
  - left. eexists. split; [done|]. set_solver.
  - destruct (decide (Period (h p) = 0)) as [Hz|Hnz].
    + right. unfold floordiv. rewrite decide_True by done.
      split; [done|]. exists p. set_solver.
    + rewrite floordiv_nonzero by done. simpl.
      destruct IH as [(u & -> & Hall)|(-> & q & Hq & Hz)].
      * left. simpl. eexists. split; [done|].
        intros q [->|Hq]%elem_of_cons; [done|by apply Hall].
      * right. split; [done|]. exists q. set_solver.
Qed.

Lemma add_hints_returns pk mm a (h : heap) ps m :
  (∀ p, p ∈ ps -> declared pk mm (h p)) ->
  ∃ m', add_hints a h ps m = Ok m'.
Proof.
  revert m. induction ps as [|p ps IH]; intros m Hd; simpl; [by eexists|].
  destruct (Hd p) as (su & Hsu & _); [set_solver|].
  unfold get_start_unit. rewrite Hsu. simpl. apply IH.
  intros q Hq. apply Hd. set_solver.
Qed.

(** [_build_model] returns when no period is 0 and raises
    [ZeroDivisionError] otherwise, for a packer whose groups list members
    of [self.objects] with one period per group. *)
Lemma _build_model_cases pk (h : heap) :
  UNIT pk ≠ 0 ->
  (∀ g p, g ∈ _groups pk -> p ∈ GroupObjectList.points g -> p ∈ objects pk) ->
  (∀ g (i : nat) p1 p2, g ∈ _groups pk ->
     GroupObjectList.points g !! i = Some p1 ->
     GroupObjectList.points g !! S i = Some p2 ->
     Period (h p1) = Period (h p2)) ->
  ((∃ h1 bm, _build_model pk h = Ok (h1, bm)) ∧
   ∀ p, p ∈ objects pk -> Period (h p) ≠ 0) ∨
  (_build_model pk h = Raise ZeroDivisionError ∧
   ∃ p, p ∈ objects pk ∧ Period (h p) = 0).
Proof.
  intros Hunit Hmem Hper. unfold _build_model.
  destruct (declare_points_returns pk Hunit (objects pk) h empty_model)
    as (h' & m1 & Hdp).
  rewrite Hdp. simpl.
  apply declare_points_spec in Hdp as (Hsame & _ & Hdecl & _).
  assert (∀ p, Period (h' p) = Period (h p)) as Hp'.
  { intros p. by destruct (Hsame p) as (_ & _ & ? & _). }
  destruct (chain_groups_returns pk Hunit h' (_groups pk) m1 m1) as [m2 ->].
  { intros g p Hg Hp. apply Hdecl. by eapply Hmem. }
  { intros g i p1 p2 Hg H1 H2. rewrite !Hp'. by eapply Hper. }
  simpl.
  destruct (add_frames_cases pk Hunit m1 h' (range (NUM_FRAMES pk)) m2 Hdecl)
    as [[m3 ->]|[-> (p & Hp & Hz)]];
    [|right; split; [done|]; exists p; by rewrite <- Hp'].
  simpl.
  destruct (total_util_expr_cases pk h' (objects pk))
    as [(u & -> & Hall)|(-> & p & Hp & Hz)];
    [|right; split; [done|]; exists p; by rewrite <- Hp'].
  simpl. left. split; [|intros p Hp; rewrite <- Hp'; by apply Hall].
  edestruct (end_units_returns pk Hunit m1 h' (objects pk)) as (ebs & m5 & ->);
    [exact Hdecl|].
  simpl. by eexists _, _.
Qed.

(** After the constructor, where every point object is listed once, the
    members of a group are objects of the packer and share a period. *)
Lemma FormatPacker_init_members h items frame_size num_frames h1 pk :
  FormatPacker_init h items frame_size num_frames = Ok (h1, pk) ->
  NoDup (all_points items) ->
  (∀ g p, g ∈ _groups pk -> p ∈ GroupObjectList.points g -> p ∈ objects pk) ∧
  (∀ g (i : nat) p1 p2, g ∈ _groups pk ->
     GroupObjectList.points g !! i = Some p1 ->
     GroupObjectList.points g !! S i = Some p2 ->
     Period (h1 p1) = Period (h1 p2)).
Proof.
  intros Hinit Hnd.
  pose proof (FormatPacker_init_spec _ _ _ _ _ _ Hinit) as (Hobjs & Hgrps & _).
  assert (∀ g, g ∈ _groups pk -> IGroup g ∈ items) as Hin.
  { intros g. rewrite Hgrps. unfold item_groups.
    intros ([p|g'] & Hit & Heq)%list_elem_of_omap; [done|].
    by injection Heq as ->. }
  split.
  - intros g p Hg Hp. rewrite Hobjs. eapply all_points_group; [by apply Hin|done].
  - intros g i p1 p2 Hg H1 H2.
    destruct (FormatPacker_init_group _ _ _ _ _ _ g i p1 Hinit Hnd (Hin g Hg) H1)
      as (-> & _).
    by destruct (FormatPacker_init_group _ _ _ _ _ _ g (S i) p2 Hinit Hnd
                   (Hin g Hg) H2) as (-> & _).
Qed.

(** For an input that lists every point object once, gives no object the
    period 0 and keeps the numbers handed to the solver library within
    its 64-bit range, [_build_model] returns, and [pack] returns or raises
    a [FramePackingError] of one of the two stages: the packer raises
    nothing else (no division by zero, no missing start variable, no phase
    variable out of range). *)
Theorem pack_raises_only_FramePackingError
    (h : heap) (items : list item) (frame_size num_frames : Z)
    (h1 : heap) (pk : FormatPacker) :
  FormatPacker_init h items frame_size num_frames = Ok (h1, pk) ->
  NoDup (all_points items) ->
  (∀ p, p ∈ objects pk -> Period (h1 p) ≠ 0) ->
  in_solver_range pk h1 ->
  (∃ h2 bm, _build_model pk h1 = Ok (h2, bm)) ∧
  ∀ (Solve : CpSolver) e,
    pack Solve pk h1 = Raise e ->
    e = FramePackingError stage1_message ∨
    e = FramePackingError stage2_message.
Proof.
  intros Hinit Hnd Hper _.
  pose proof (UNIT_positive _ _ _ _ _ _ Hinit) as Hpos.
  assert (UNIT pk ≠ 0) as Hunit by lia.
  destruct (FormatPacker_init_members _ _ _ _ _ _ Hinit Hnd) as [Hmem Hsame].
  destruct (_build_model_cases pk h1 Hunit Hmem Hsame)
    as [[(h2 & bm & Hbm) _]|(_ & p & Hp & Hz)]; [|by destruct (Hper p Hp)].
  split; [by eexists _, _|].
  intros Solve e. unfold pack. rewrite Hbm. simpl.
  apply _build_model_spec in Hbm as (_ & _ & Hdecl & _).
  unfold _solve. destruct (Solve _) as [st1 a1].
  destruct (found_solution st1); [|intros [= <-]; by left].
  edestruct (add_hints_returns pk (model bm) a1 h2 (objects pk)) as [m2 ->];
    [exact Hdecl|].
  simpl. destruct (Solve _) as [st2 a2].
  destruct (found_solution st2); [done|intros [= <-]; by right].
Qed.

Lemma pack_raises_only_FramePackingError_witness :
  (∃ h2 bm, _build_model s5_packer' s5_normalized = Ok (h2, bm)) ∧
  ∀ (Solve : CpSolver) e,
    pack Solve s5_packer' s5_normalized = Raise e ->
    e = FramePackingError stage1_message ∨
    e = FramePackingError stage2_message.
Proof.
  apply (pack_raises_only_FramePackingError s5_built.1 [IGroup s5_built.2]
           1000 32 s5_normalized s5_packer').
  - vm_compute. reflexivity.
  - apply (bool_decide_unpack _). vm_compute. exact I.
  - intros p Hp. vm_compute in Hp.
    repeat (apply elem_of_cons in Hp as [->|Hp]; [by vm_compute|]).
    by apply elem_of_nil in Hp.
  - split_and!.
    + vm_compute. reflexivity.
    + intros p Hp. vm_compute in Hp.
      repeat (apply elem_of_cons in Hp as [->|Hp];
              [split_and!; [vm_compute; reflexivity|vm_compute; reflexivity|];
               intros off Hoff; vm_compute in Hoff;
               try discriminate; injection Hoff as <-;
               vm_compute; reflexivity|]).
      by apply elem_of_nil in Hp.
    + intros u Hu. vm_compute in Hu. injection Hu as <-.
      vm_compute. reflexivity.
Defined.



(** ** [_validate_objects] *)

Lemma bad_start_frame_false pk o :
  bad_start_frame pk o = false <-> valid_start_frame pk o.
Proof.
  unfold bad_start_frame, valid_start_frame.
  destruct (Start_Frame o) as [sf|]; [|by split].
  rewrite bool_decide_eq_false. split.
  - intros H sf' [= <-]. lia.
  - intros H. specialize (H sf eq_refl). lia.
Qed.

Lemma bad_offset_false pk o : bad_offset pk o = false <-> valid_offset pk o.
Proof.
  unfold bad_offset, valid_offset.
  destruct (Offset o) as [off|]; [|by split].
  rewrite bool_decide_eq_false. split.
  - intros H off' [= <-]. lia.
  - intros H. specialize (H off eq_refl). lia.
Qed.

Lemma validate_object_Ok pk o :
  validate_object pk o = Ok () <-> valid_start_frame pk o ∧ valid_offset pk o.
Proof.
  rewrite <- bad_start_frame_false, <- bad_offset_false.
  unfold validate_object.
  destruct (bad_start_frame pk o), (bad_offset pk o); split; try done;
    by intros [? ?].
Qed.

(** [_validate_objects] returns exactly when every object of the packer
    has a start frame, where set, among the frames [0 .. NUM_FRAMES-1] and
    an offset, where set, that is not negative and leaves the object
    within the [FRAME_SIZE_BITS] bits of a frame. *)
Theorem _validate_objects_accepts (pk : FormatPacker) (h : heap) :
  _validate_objects pk h = Ok () <->
  ∀ p, p ∈ objects pk -> valid_start_frame pk (h p) ∧ valid_offset pk (h p).
Proof.
  unfold _validate_objects. induction (objects pk) as [|p ps IH]; simpl.
  - split; [intros _ p Hp; by apply elem_of_nil in Hp|done].
  - destruct IH as [IH1 IH2]. split.
    + intros H. inv_bind H as u Hu. destruct u.
      apply validate_object_Ok in Hu. pose proof (IH1 H) as Hall.
      intros q [->|Hq]%elem_of_cons; [done|by apply Hall].
    + intros H. assert (validate_object pk (h p) = Ok ()) as ->.
      { apply validate_object_Ok, H. set_solver. }
      simpl. apply IH2. intros q Hq. apply H. set_solver.
Qed.

(** When [_validate_objects] raises, it is for the first object of
    [self.objects] that breaks a rule, the objects before it being valid,
    and with a [ValueError]: the one for its start frame if that is out of
    range, otherwise the one for its offset. *)
Theorem _validate_objects_rejects (pk : FormatPacker) (h : heap) (e : exn) :
  _validate_objects pk h = Raise e ->
  ∃ l1 p l2, objects pk = l1 ++ p :: l2 ∧
    (∀ q, q ∈ l1 -> valid_start_frame pk (h q) ∧ valid_offset pk (h q)) ∧
    ((∃ sf, Start_Frame (h p) = Some sf ∧ (sf < 0 ∨ sf > NUM_FRAMES pk - 1) ∧
            e = ValueError (start_frame_message (Name (h p)) sf
                              (NUM_FRAMES pk - 1))) ∨
     (valid_start_frame pk (h p) ∧
      ∃ off, Offset (h p) = Some off ∧
             (off < 0 ∨ off + Size (h p) > FRAME_SIZE_BITS pk) ∧
             e = ValueError (offset_message (Name (h p)) (Size (h p)) off
                               (FRAME_SIZE pk)))).
Proof.
  unfold _validate_objects. induction (objects pk) as [|p ps IH]; simpl;
    [done|].
  destruct (validate_object pk (h p)) as [[]|e'] eqn:Hv.
  - simpl. intros H. destruct (IH H) as (l1 & q & l2 & -> & Hvalid & Hq).
    exists (p :: l1), q, l2. split; [done|]. split; [|done].
    apply validate_object_Ok in Hv.
    intros r [->|Hr]%elem_of_cons; [done|by apply Hvalid].
  - simpl. intros [= <-]. exists [], p, ps. split; [done|].
    split; [intros q Hq; by apply elem_of_nil in Hq|].
    unfold validate_object in Hv.
    destruct (bad_start_frame pk (h p)) eqn:Hsf.
    + left. unfold bad_start_frame in Hsf.
      destruct (Start_Frame (h p)) as [sf|]; [|done].
      apply bool_decide_eq_true in Hsf. exists sf. simpl in Hv.
      split; [done|]. split; [done|]. by injection Hv as <-.
    + right. apply bad_start_frame_false in Hsf. split; [done|].
      destruct (bad_offset pk (h p)) eqn:Hoff; [|done].
      unfold bad_offset in Hoff.
      destruct (Offset (h p)) as [off|]; [|done].
      apply bool_decide_eq_true in Hoff. exists off. simpl in Hv.
      split; [done|]. split; [done|]. by injection Hv as <-.
Qed.

Lemma _validate_objects_rejects_witness :
  ∃ l1 p l2, objects c1_packer = l1 ++ p :: l2 ∧
    (∀ q, q ∈ l1 ->
       valid_start_frame c1_packer (c1_store q) ∧
       valid_offset c1_packer (c1_store q)) ∧
    ((∃ sf, Start_Frame (c1_store p) = Some sf ∧
            (sf < 0 ∨ sf > NUM_FRAMES c1_packer - 1) ∧
            ValueError (start_frame_message "A" 99 3)
            = ValueError (start_frame_message (Name (c1_store p)) sf
                            (NUM_FRAMES c1_packer - 1))) ∨
     (valid_start_frame c1_packer (c1_store p) ∧
      ∃ off, Offset (c1_store p) = Some off ∧
             (off < 0 ∨ off + Size (c1_store p) > FRAME_SIZE_BITS c1_packer) ∧
             ValueError (start_frame_message "A" 99 3)
             = ValueError (offset_message (Name (c1_store p))
                             (Size (c1_store p)) off (FRAME_SIZE c1_packer)))).
Proof.
  apply (_validate_objects_rejects c1_packer c1_store
           (ValueError (start_frame_message "A" 99 3))).
  vm_compute. reflexivity.
Defined.

(** ** An offset that does not fit leaves no packing *)

(** An object whose offset [_validate_objects] would reject (negative, or
    such that the object ends past the frame) makes the emitted model
    unsatisfiable: the pin of its start contradicts the domain of its start
    variable.  With a solver that reports only solutions, [pack] then
    raises the [FramePackingError] of stage 1. *)
Theorem bad_offset_is_infeasible
    (h : heap) (items : list item) (frame_size num_frames : Z)
    (h1 h2 : heap) (pk : FormatPacker) (bm : BuiltModel) (p : loc) :
  FormatPacker_init h items frame_size num_frames = Ok (h1, pk) ->
  _build_model pk h1 = Ok (h2, bm) ->
  p ∈ objects pk ->
  bad_offset pk (h1 p) = true ->
  (∀ a, satisfies a (model bm) = false) ∧
  ∀ Solve : CpSolver,
    sound Solve ->
    pack Solve pk h1 = Raise (FramePackingError stage1_message).
Proof.
  intros Hinit Hbm Hp Hbad.
  assert (∀ a, satisfies a (model bm) = false) as Hunsat;
    [|split; [done|]; intros Solve Hsound; by eapply pack_infeasible].
  intros a. destruct (satisfies a (model bm)) eqn:Hsat; [exfalso|done].
  pose proof (UNIT_positive _ _ _ _ _ _ Hinit) as Hpos.
  pose proof (UNIT_divides _ _ _ _ _ _ Hinit) as [Hbits Hdiv].
  destruct (Hdiv p Hp) as [Hsz Hoffd].
  apply FormatPacker_init_spec in Hinit as (_&_&_&_&_&_&_& Hcap &_).
  pose proof (_build_model_spec _ _ _ _ Hbm) as (Hsame & _ & Hdecl & _).
  apply _build_model_more in Hbm as (Hb & _).
  destruct (Hsame p) as (_ & Hsize & _ & _ & Hoff).
  unfold bad_offset in Hbad. destruct (Offset (h1 p)) as [off|] eqn:E; [|done].
  apply bool_decide_eq_true in Hbad.
  destruct (Hdecl p Hp) as (su & Hsu & Hpin & _).
  destruct (Hb p Hp) as (su' & Hsu' & Hdom).
  rewrite Hsu in Hsu'. injection Hsu' as <-.
  specialize (Hpin off Hoff).
  apply (satisfies_holds _ _ _ Hsat) in Hpin. simpl in Hpin.
  apply Z.eqb_eq in Hpin.
  pose proof (satisfies_domain _ _ _ _ _ Hsat Hdom) as Hrange.
  rewrite Hsize, Hpin in Hrange.
  pose proof (div_mul_divides (UNIT pk) off ltac:(lia) (Hoffd off eq_refl)).
  pose proof (div_mul_divides (UNIT pk) (Size (h1 p)) ltac:(lia) Hsz).
  pose proof (div_mul_divides (UNIT pk) (FRAME_SIZE_BITS pk) ltac:(lia) Hbits).
  rewrite <- Hcap in *. nia.
Qed.

Lemma bad_offset_is_infeasible_witness :
  (∀ a, satisfies a (model o1_built.2) = false) ∧
  ∀ Solve : CpSolver,
    sound Solve ->
    pack Solve o1_packer o1_store = Raise (FramePackingError stage1_message).
Proof.
  apply (bad_offset_is_infeasible o1_store [IPoint 0%nat] 2 4 o1_store
           o1_built.1 o1_packer o1_built.2 0%nat).
  - vm_compute. reflexivity.
  - vm_compute. reflexivity.
  - apply (bool_decide_unpack _). vm_compute. exact I.
  - vm_compute. reflexivity.
Defined.

(** ** The two objectives *)

Lemma total_util_expr_ext pk (h h' : heap) ps :
  (∀ q, same_input (h q) (h' q)) ->
  total_util_expr pk h' ps = total_util_expr pk h ps.
Proof.
  intros Hsame. induction ps as [|p ps IH]; simpl; [done|].
  destruct (Hsame p) as (_ & -> & -> & _). by rewrite IH.
Qed.

(** [total_util] is a constant of the model: in every solution its value
    is the number step 4 computes from the input, the sum of
    [Size * (NUM_FRAMES // Period)] over the objects.  Maximizing it in
    stage 1 selects nothing. *)
Theorem total_util_is_constant
    (pk : FormatPacker) (h h1 : heap) (bm : BuiltModel) :
  _build_model pk h = Ok (h1, bm) ->
  ∃ u, total_util_expr pk h (objects pk) = Ok u ∧
       ∀ a, satisfies a (model bm) = true -> a (total_util bm) = u.
Proof.
  intros Hbm.
  pose proof (_build_model_spec _ _ _ _ Hbm) as (Hsame & _).
  apply _build_model_more in Hbm as (_ & _ & (u & Hu & Hdom) & _).
  exists u. split; [by rewrite <- (total_util_expr_ext pk h h1)|].
  intros a Hsat. pose proof (satisfies_domain _ _ _ _ _ Hsat Hdom). lia.
Qed.

Lemma total_util_is_constant_witness :
  ∃ u, total_util_expr c3_packer c3_store (objects c3_packer) = Ok u ∧
       ∀ a, satisfies a (model c3_built.2) = true ->
            a (total_util c3_built.2) = u.
Proof.
  apply (total_util_is_constant c3_packer c3_store c3_built.1 c3_built.2).
  vm_compute. reflexivity.
Defined.

Lemma _solve_stages Solve pk (h : heap) bm m a :
  _solve Solve pk h bm = Ok (m, a) ->
  ∃ st1 a1,
    Solve (SetObjective (Maximize (total_util bm)) (model bm)) = (st1, a1) ∧
    found_solution st1 = true ∧
    variables m = variables (model bm) ∧
    constraints m
    = constraints (model bm) ++ [EqConst (total_util bm) (a1 (total_util bm))].
Proof.
  unfold _solve. intros H.
  destruct (Solve _) as [status1 a1] eqn:E1.
  destruct (found_solution status1) eqn:Hst1; [|done].
  inv_bind H as m2 Hm2. apply add_hints_constraints in Hm2 as [Hc Hv].
  destruct (Solve (SetObjective (Minimize _) _)) as [status2 a2].
  destruct (found_solution status2); [|done]. injection H as <- <-.
  exists status1, a1. split_and!; [done|done|..]; simpl.
  - by rewrite Hv.
  - by rewrite Hc.
Qed.

Lemma satisfies_app a m m' c :
  variables m' = variables m -> constraints m' = constraints m ++ [c] ->
  satisfies a m' = satisfies a m && holds a c.
Proof.
  intros Hv Hc. unfold satisfies. rewrite Hv, Hc, forallb_app. simpl.
  by rewrite andb_true_r, andb_assoc.
Qed.

(** With a solver that reports only solutions, the model the second stage
    solves has exactly the solutions of the model [_build_model] emitted:
    the hints and the frozen [total_util] exclude none. *)
Theorem second_stage_keeps_solutions
    (Solve : CpSolver) (pk : FormatPacker) (h : heap) (pd : Packed) :
  sound Solve ->
  pack Solve pk h = Ok pd ->
  ∃ bm, _build_model pk h = Ok (store pd, bm) ∧
        ∀ a, satisfies a (solved_model pd) = satisfies a (model bm).
Proof.
  intros Hsound. unfold pack. intros H. inv_bind H as x Hx.
  destruct x as [h1 bm]. inv_bind H as y Hy. destruct y as [m a'].
  injection H as <-. simpl. exists bm. split; [done|].
  apply _solve_stages in Hy as (st1 & a1 & Hs1 & Hst1 & Hv & Hc).
  pose proof (Hsound _ _ _ Hs1 Hst1) as Hsat1.
  change (satisfies a1 (model bm) = true) in Hsat1.
  apply _build_model_more in Hx as (_ & _ & (u & _ & Hdom) & _).
  pose proof (satisfies_domain _ _ _ _ _ Hsat1 Hdom) as Hu1.
  intros a. rewrite (satisfies_app a (model bm) m _ Hv Hc).
  destruct (satisfies a (model bm)) eqn:Hsat; [|done]. simpl.
  pose proof (satisfies_domain _ _ _ _ _ Hsat Hdom) as Hu.
  apply Z.eqb_eq. lia.
Qed.

Lemma second_stage_keeps_solutions_witness :
  ∃ bm, _build_model c3_packer c3_store = Ok (store c3_checked, bm) ∧
        ∀ a, satisfies a (solved_model c3_checked) = satisfies a (model bm).
Proof.
  apply (second_stage_keeps_solutions c3_checking c3_packer c3_store c3_checked).
  - apply checking_solver_sound.
  - vm_compute. reflexivity.
Defined.

(** In every solution of the emitted model, [max_end] counts the units up
    to the highest bit any object ends at: no object ends past
    [max_end * UNIT], some object ends there, and that is within the
    frame.  This is the number stage 2 minimizes. *)
Theorem max_end_is_highest_end
    (h : heap) (items : list item) (frame_size num_frames : Z)
    (h1 h2 : heap) (pk : FormatPacker) (bm : BuiltModel) (a : assignment) :
  FormatPacker_init h items frame_size num_frames = Ok (h1, pk) ->
  _build_model pk h1 = Ok (h2, bm) ->
  satisfies a (model bm) = true ->
  (∀ p, p ∈ objects pk ->
     ∃ b, start_bit pk a (h2 p) = Ok b ∧
          b + Size (h2 p) <= a (max_end bm) * UNIT pk) ∧
  (∃ p b, p ∈ objects pk ∧ start_bit pk a (h2 p) = Ok b ∧
          b + Size (h2 p) = a (max_end bm) * UNIT pk) ∧
  0 <= a (max_end bm) * UNIT pk <= FRAME_SIZE_BITS pk.
Proof.
  intros Hinit Hbm Hsat.
  pose proof (UNIT_positive _ _ _ _ _ _ Hinit) as Hpos.
  pose proof (UNIT_divides _ _ _ _ _ _ Hinit) as [Hbits Hdiv].
  apply FormatPacker_init_spec in Hinit as (_&_&_&_&_&_&_& Hcap &_).
  pose proof (_build_model_spec _ _ _ _ Hbm) as (Hsame & _).
  apply _build_model_more in Hbm as (_ & _ & _ & ebs & Hmax & Hdom & Hends).
  apply (satisfies_holds _ _ _ Hsat) in Hmax. simpl in Hmax.
  apply andb_true_iff in Hmax as [Hex Hall].
  rewrite forallb_forall in Hall.
  apply existsb_exists in Hex as (x & Hx & Hxe). apply Z.eqb_eq in Hxe.
  pose proof (satisfies_domain _ _ _ _ _ Hsat Hdom) as Hme.
  assert (∀ p eb, p ∈ objects pk -> ended pk (model bm) (h2 p) eb ->
            ∃ b, start_bit pk a (h2 p) = Ok b ∧
                 b + Size (h2 p) = a eb * UNIT pk) as Hend.
  { intros p eb Hp (su & Hsu & Hc).
    apply (satisfies_holds _ _ _ Hsat) in Hc. simpl in Hc.
    apply Z.eqb_eq in Hc. exists (a su * UNIT pk).
    unfold start_bit, get_start_unit. rewrite Hsu. split; [done|].
    destruct (Hsame p) as (_ & Hsize & _). destruct (Hdiv p Hp) as [Hd _].
    rewrite <- Hsize in Hd.
    pose proof (div_mul_divides (UNIT pk) (Size (h2 p)) ltac:(lia) Hd). nia. }
  split_and!.
  - intros p Hp. apply list_elem_of_lookup in Hp as [i Hi].
    destruct (Forall2_lookup_l _ _ _ _ _ Hends Hi) as (eb & Heb & He).
    destruct (Hend p eb) as (b & Hb & Heq);
      [by eapply list_elem_of_lookup_2|done|].
    exists b. split; [done|].
    assert (a eb <= a (max_end bm)).
    { apply Z.leb_le, Hall, list_elem_of_In. by eapply list_elem_of_lookup_2. }
    nia.
  - apply list_elem_of_In, list_elem_of_lookup in Hx as [i Hi].
    destruct (Forall2_lookup_r _ _ _ _ _ Hends Hi) as (p & Hp & He).
    destruct (Hend p x) as (b & Hb & Heq);
      [by eapply list_elem_of_lookup_2|done|].
    exists p, b. split_and!; [by eapply list_elem_of_lookup_2|done|].
    by rewrite Heq, Hxe.
  - nia.
  - pose proof (div_mul_divides (UNIT pk) (FRAME_SIZE_BITS pk) ltac:(lia) Hbits).
    rewrite <- Hcap in *. nia.
Qed.

Lemma max_end_is_highest_end_witness :
  (∀ p, p ∈ objects c3_packer ->
     ∃ b, start_bit c3_packer c3_values (c3_built.1 p) = Ok b ∧
          b + Size (c3_built.1 p)
          <= c3_values (max_end c3_built.2) * UNIT c3_packer) ∧
  (∃ p b, p ∈ objects c3_packer ∧
          start_bit c3_packer c3_values (c3_built.1 p) = Ok b ∧
          b + Size (c3_built.1 p)
          = c3_values (max_end c3_built.2) * UNIT c3_packer) ∧
  0 <= c3_values (max_end c3_built.2) * UNIT c3_packer
    <= FRAME_SIZE_BITS c3_packer.
Proof.
  apply (max_end_is_highest_end c3_store [IPoint 0%nat; IPoint 1%nat] 1 5
           c3_store c3_built.1 c3_packer c3_built.2 c3_values).
  - vm_compute. reflexivity.
  - vm_compute. reflexivity.
  - vm_compute. reflexivity.
Defined.

(** ** The tables of [_to_dataframes] *)

Lemma mapM_returns {A B} (f : A -> result B) (l : list A) :
  (∀ x, x ∈ l -> ∃ y, f x = Ok y) -> ∃ ys, mapM f l = Ok ys.
Proof.
  induction l as [|x l IH]; intros H; simpl; [by eexists|].
  destruct (H x) as [y ->]; [set_solver|]. simpl.
  destruct IH as [ys ->]; [intros z Hz; apply H; set_solver|].
  simpl. by eexists.
Qed.

Lemma mapM_length {A B} (f : A -> result B) (l : list A) ys :
  mapM f l = Ok ys -> length ys = length l.
Proof.
  revert ys. induction l as [|x l IH]; intros ys H; simpl in H.
  - by injection H as <-.
  - inv_bind H as y Hy. inv_bind H as tl Htl. injection H as <-. simpl.
    f_equal. by apply IH.
Qed.

Lemma mapM_lookup {A B} (f : A -> result B) (l : list A) ys (i : nat) x :
  mapM f l = Ok ys -> l !! i = Some x -> ∃ y, ys !! i = Some y ∧ f x = Ok y.
Proof.
  revert ys i. induction l as [|x' l IH]; intros ys i H Hi; [done|].
  simpl in H. inv_bind H as y Hy. inv_bind H as tl Htl. injection H as <-.
  destruct i as [|i]; simpl in Hi.
  - injection Hi as ->. by exists y.
  - by apply (IH tl i).
Qed.

(** With the values of a solution, the [in_frame] flag of an object that
    went through step 1 is computed without an exception: one of its phase
    variables is true, so [next] finds it. *)
Lemma in_frame_returns pk m a o frame :
  declared pk m o -> satisfies a m = true -> Period o ≠ 0 ->
  ∃ b, in_frame a o frame = Ok b.
Proof.
  intros (su & _ & _ & Hph) Hsat Hper. unfold in_frame.
  destruct (decide (has_phases o)) as [Hhas|Hnot].
  - destruct Hph as [Hlen Hone].
    apply (satisfies_holds _ _ _ Hsat), ExactlyOne_first_true in Hone
      as (s & Hs & _).
    rewrite Hs. destruct (phase_vars o); [done|]. simpl.
    rewrite pymod_nonzero by done. simpl. by eexists.
  - rewrite Hph. case_decide; [|by eexists].
    rewrite pymod_nonzero by done. simpl. by eexists.
Qed.

Lemma frame_entries_returns pk a (h : heap) ps frame :
  (∀ p, p ∈ ps -> ∃ su, start_unit (h p) = Some su) ->
  (∀ p, p ∈ ps -> ∃ b, in_frame a (h p) frame = Ok b) ->
  ∃ es, frame_entries pk a h ps frame = Ok es.
Proof.
  induction ps as [|p ps IH]; intros Hsu Hin; simpl; [by eexists|].
  destruct (Hsu p) as [su Hp]; [set_solver|].
  destruct (Hin p) as [b ->]; [set_solver|].
  unfold start_bit, get_start_unit. rewrite Hp. simpl.
  destruct IH as [es ->].
  - intros q Hq. apply Hsu. set_solver.
  - intros q Hq. apply Hin. set_solver.
  - simpl. by eexists.
Qed.

(** ** C7: the members of a group in the FrameOrder table *)

(** After a pack that succeeded with a solution of the emitted model, the
    entry lists of all the frames are computed. *)
Lemma framesummary_returns Solve pk (h : heap) pd :
  pack Solve pk h = Ok pd ->
  satisfies (Value pd) (solved_model pd) = true ->
  ∃ fs, framesummary pk pd = Ok fs ∧ length fs = Z.to_nat (NUM_FRAMES pk).
Proof.
  intros Hpack Hsat.
  pose proof (packed_facts _ _ _ _ Hpack) as (_ & Hdecl & _ & Hper & _).
  destruct (mapM_returns
    (fun frame =>
       entries ← frame_entries pk (Value pd) (store pd) (objects pk) frame;
       Ok (sort_by snd entries)) (range (NUM_FRAMES pk))) as [fs Hfs].
  { intros f _.
    destruct (frame_entries_returns pk (Value pd) (store pd) (objects pk) f)
      as [es ->].
    - intros p Hp. destruct (Hdecl p Hp) as (su & Hsu & _). by exists su.
    - intros p Hp. eapply in_frame_returns; [by apply Hdecl|done|].
      by apply Hper.
    - simpl. by eexists. }
  exists fs. split; [done|]. rewrite (mapM_length _ _ _ Hfs).
  unfold range. by rewrite length_seqZ.
Qed.

(** C7: in a pack that succeeded with a solution of the emitted model, for
    every group of the input (every point object being listed once, sizes
    not negative): all members occur in exactly the same frames; each
    member starts where the member before it ends, so the start bits are
    [s, s + size_1, s + size_1 + size_2, ...]; and the FrameOrder table is
    produced, with one list of names for each of the [NUM_FRAMES] frames,
    and in every frame in which the group occurs the list of that frame
    has the members' names in group order. *)
Theorem group_cohesion
    (Solve : CpSolver) (h : heap) (items : list item) (frame_size num_frames : Z)
    (h1 : heap) (pk : FormatPacker) (pd : Packed) (g : GroupObjectList.t) :
  FormatPacker_init h items frame_size num_frames = Ok (h1, pk) ->
  pack Solve pk h1 = Ok pd ->
  satisfies (Value pd) (solved_model pd) = true ->
  NoDup (all_points items) ->
  IGroup g ∈ items ->
  (∀ p, p ∈ GroupObjectList.points g -> 0 <= Size (h1 p)) ->
  (∀ p q frame,
     p ∈ GroupObjectList.points g -> q ∈ GroupObjectList.points g ->
     in_frame (Value pd) (store pd p) frame
     = in_frame (Value pd) (store pd q) frame) ∧
  (∀ (i : nat) p1 p2,
     GroupObjectList.points g !! i = Some p1 ->
     GroupObjectList.points g !! S i = Some p2 ->
     ∃ b, start_bit pk (Value pd) (store pd p1) = Ok b ∧
          start_bit pk (Value pd) (store pd p2) = Ok (b + Size (store pd p1))) ∧
  (∃ table,
     frameorder pk pd = Ok table ∧
     length table = Z.to_nat (NUM_FRAMES pk) ∧
     ∀ (f : nat) p0,
       Z.of_nat f < NUM_FRAMES pk ->
       GroupObjectList.points g !! 0%nat = Some p0 ->
       in_frame (Value pd) (store pd p0) (Z.of_nat f) = Ok true ->
       ∃ row, table !! f = Some row ∧
              (fun p => Name (store pd p)) <$> GroupObjectList.points g
              `sublist_of` row).
Proof.
  intros Hinit Hpack Hsat Hnd Hg Hsize. split_and!.
  - intros p q frame. by eapply members_same_frames.
  - intros i p1 p2. by eapply consecutive_start_bits.
  - destruct (framesummary_returns _ _ _ _ Hpack Hsat) as (fs & Hfs & Hlen).
    assert (frameorder pk pd = Ok (map (map fst) fs)) as Hfo
      by (unfold frameorder; by rewrite Hfs).
    exists (map (map fst) fs). split; [done|].
    split; [by rewrite length_map|].
    intros f p0 Hf Hp0 Hin.
    destruct (lookup_lt_is_Some_2 (map (map fst) fs) f) as [row Hrow];
      [rewrite length_map; lia|].
    exists row. split; [done|].
    by eapply (members_in_group_order Solve h h1 items frame_size num_frames
                 pk pd g).
Qed.

Lemma group_cohesion_witness :
  (∀ p q frame,
     p ∈ s5_members -> q ∈ s5_members ->
     in_frame (Value s5_packed) (store s5_packed p) frame
     = in_frame (Value s5_packed) (store s5_packed q) frame) ∧
  (∀ (i : nat) p1 p2,
     s5_members !! i = Some p1 ->
     s5_members !! S i = Some p2 ->
     ∃ b, start_bit s5_packer' (Value s5_packed) (store s5_packed p1) = Ok b ∧
          start_bit s5_packer' (Value s5_packed) (store s5_packed p2)
          = Ok (b + Size (store s5_packed p1))) ∧
  (∃ table,
     frameorder s5_packer' s5_packed = Ok table ∧
     length table = Z.to_nat (NUM_FRAMES s5_packer') ∧
     ∀ (f : nat) p0,
       Z.of_nat f < NUM_FRAMES s5_packer' ->
       s5_members !! 0%nat = Some p0 ->
       in_frame (Value s5_packed) (store s5_packed p0) (Z.of_nat f) = Ok true ->
       ∃ row, table !! f = Some row ∧
              (fun p => Name (store s5_packed p)) <$> s5_members
              `sublist_of` row).
Proof.
  apply (group_cohesion s5_solver s5_built.1 [IGroup s5_built.2] 1000 32
           s5_normalized s5_packer' s5_packed s5_built.2).
  - vm_compute. reflexivity.
  - vm_compute. reflexivity.
  - vm_compute. reflexivity.
  - apply (bool_decide_unpack _). vm_compute. exact I.
  - by apply list_elem_of_singleton.
  - intros p Hp. vm_compute in Hp.
    repeat (apply elem_of_cons in Hp as [->|Hp]; [by vm_compute|]).
    by apply elem_of_nil in Hp.
Defined.

Lemma frame_entries_iff pk a (h : heap) ps frame es name b :
  frame_entries pk a h ps frame = Ok es ->
  (name, b) ∈ es <->
  ∃ p, p ∈ ps ∧ in_frame a (h p) frame = Ok true ∧
       Name (h p) = name ∧ start_bit pk a (h p) = Ok b.
Proof.
  revert es. induction ps as [|q ps IH]; intros es H; simpl in H.
  - injection H as <-. split; [by intros ?%elem_of_nil|].
    intros (p & Hp & _). by apply elem_of_nil in Hp.
  - inv_bind H as sb Hsb. inv_bind H as fl Hfl. inv_bind H as tl Htl.
    injection H as <-. specialize (IH tl Htl).
    assert ((name, b) ∈ tl ->
            ∃ p, p ∈ q :: ps ∧ in_frame a (h p) frame = Ok true ∧
                 Name (h p) = name ∧ start_bit pk a (h p) = Ok b) as Htail.
    { intros (p & Hp & Hrest)%IH. exists p. split; [set_solver|done]. }
    split.
    + destruct fl; [|done]. intros [[= -> ->]|Hin]%elem_of_cons; [|by apply Htail].
      exists q. split_and!; [set_solver|done|done|done].
    + intros (p & [->|Hp]%elem_of_cons & Hin & Hname & Hb).
      * rewrite Hin in Hfl. injection Hfl as <-. rewrite Hb in Hsb.
        injection Hsb as <-. rewrite Hname. set_solver.
      * assert ((name, b) ∈ tl) by (apply IH; by exists p).
        destruct fl; set_solver.
Qed.

Lemma range_lookup n (f : nat) x : range n !! f = Some x -> x = Z.of_nat f.
Proof. unfold range. intros [? ?]%lookup_seqZ. lia. Qed.

(** Before sorting, the entries of a frame are one pair of name and start
    bit for each object that occurs in the frame, in the order of
    [self.objects]. *)
Lemma frame_entries_filter pk a (h : heap) ps frame es :
  frame_entries pk a h ps frame = Ok es ->
  Forall2 (fun p e => e.1 = Name (h p) ∧ start_bit pk a (h p) = Ok e.2)
    (filter (fun p => occurs a (h p) frame = true) ps) es.
Proof.
  revert es. induction ps as [|q ps IH]; intros es H; simpl in H.
  - injection H as <-. constructor.
  - inv_bind H as sb Hsb. inv_bind H as fl Hfl. inv_bind H as tl Htl.
    injection H as <-. specialize (IH tl Htl). destruct fl.
    + rewrite filter_cons_True by (unfold occurs; by rewrite Hfl).
      by constructor.
    + rewrite filter_cons_False; [done|]. unfold occurs. by rewrite Hfl.
Qed.

(** The entries of a frame in [self.framesummary] are one pair of name
    and start bit for each object that occurs in the frame, no more and no
    fewer, rearranged into ascending order of start bit; entries with the
    same start bit keep the order of [self.objects].  The FrameOrder list
    of the frame is the names of these entries, in that order. *)
Theorem frame_entries_sorted_and_complete
    (pk : FormatPacker) (pd : Packed) (fs : list (list (string * Z)))
    (f : nat) (row : list (string * Z)) :
  framesummary pk pd = Ok fs ->
  fs !! f = Some row ->
  (∃ es,
     Forall2 (fun p e => e.1 = Name (store pd p) ∧
                         start_bit pk (Value pd) (store pd p) = Ok e.2)
       (filter (fun p => occurs (Value pd) (store pd p) (Z.of_nat f) = true)
          (objects pk)) es ∧
     row ≡ₚ es ∧
     ∀ s, StronglySorted (key_le snd) s -> s `sublist_of` es ->
          s `sublist_of` row) ∧
  StronglySorted (key_le snd) row ∧
  (∀ name b,
     (name, b) ∈ row <->
     ∃ p, p ∈ objects pk ∧
          in_frame (Value pd) (store pd p) (Z.of_nat f) = Ok true ∧
          Name (store pd p) = name ∧
          start_bit pk (Value pd) (store pd p) = Ok b) ∧
  ∃ table, frameorder pk pd = Ok table ∧ table !! f = Some (map fst row).
Proof.
  intros Hfs Hrow. unfold frameorder. rewrite Hfs. simpl.
  unfold framesummary in Hfs.
  destruct (mapM_lookup_r _ _ _ _ _ Hfs Hrow) as (frame & Hframe & Hes).
  apply range_lookup in Hframe as ->. inv_bind Hes as es Hentries.
  injection Hes as <-. split_and!.
  - exists es. split_and!.
    + by apply frame_entries_filter.
    + apply sort_by_Permutation.
    + intros s Hsorted Hsub. by apply sort_by_stable.
  - apply sort_by_sorted.
  - intros name b. rewrite <- (frame_entries_iff _ _ _ _ _ _ name b Hentries).
    by rewrite (sort_by_Permutation snd es).
  - eexists. split; [done|]. by rewrite list_lookup_fmap, Hrow.
Qed.

Lemma frame_entries_sorted_and_complete_witness :
  (∃ es,
     Forall2 (fun p e => e.1 = Name (store s5_packed p) ∧
                         start_bit s5_packer' (Value s5_packed)
                           (store s5_packed p) = Ok e.2)
       (filter (fun p => occurs (Value s5_packed) (store s5_packed p)
                           (Z.of_nat 1) = true)
          (objects s5_packer')) es ∧
     [("A", 64); ("B", 80); ("C", 112)] ≡ₚ es ∧
     ∀ s, StronglySorted (key_le snd) s -> s `sublist_of` es ->
          s `sublist_of` [("A", 64); ("B", 80); ("C", 112)]) ∧
  StronglySorted (key_le snd) [("A", 64); ("B", 80); ("C", 112)] ∧
  (∀ name b,
     (name, b) ∈ [("A", 64); ("B", 80); ("C", 112)] <->
     ∃ p, p ∈ objects s5_packer' ∧
          in_frame (Value s5_packed) (store s5_packed p) (Z.of_nat 1) = Ok true ∧
          Name (store s5_packed p) = name ∧
          start_bit s5_packer' (Value s5_packed) (store s5_packed p) = Ok b) ∧
  ∃ table, frameorder s5_packer' s5_packed = Ok table ∧
           table !! 1%nat = Some (map fst [("A", 64); ("B", 80); ("C", 112)]).
Proof.
  apply (frame_entries_sorted_and_complete s5_packer' s5_packed
           (from_Ok [] (framesummary s5_packer' s5_packed)) 1%nat).
  - vm_compute. reflexivity.
  - vm_compute. reflexivity.
Defined.

(** The Schedule row of an object without phase variables (its start
    frame is set, or its period is at most 1) does not depend on the
    solver: the cell of frame [f] holds the object's name when
    [f >= sf] and [(f - sf) % Period == 0], with [sf] the start frame or
    0, and the empty string otherwise. *)
Theorem schedule_of_pinned_object
    (Solve : CpSolver) (pk : FormatPacker) (h : heap) (pd : Packed)
    (sched : list (list string)) (i : nat) (p : loc) (row : list string)
    (f : nat) :
  pack Solve pk h = Ok pd ->
  schedule_df pk pd = Ok sched ->
  objects pk !! i = Some p ->
  Start_Frame (h p) ≠ None ∨ Period (h p) <= 1 ->
  sched !! i = Some row ->
  Z.of_nat f < NUM_FRAMES pk ->
  row !! f
  = Some (if every (or_zero (Start_Frame (h p))) (Period (h p)) (Z.of_nat f)
          then Name (h p) else "").
Proof.
  intros Hpack Hsched Hi Hpin Hrow Hf.
  apply packed_facts in Hpack as (Hsame & Hdecl & _ & Hper & _).
  assert (p ∈ objects pk) as Hp by (by eapply list_elem_of_lookup_2).
  destruct (Hsame p) as (Hname & _ & Hperiod & Hsf & _).
  unfold schedule_df in Hsched.
  destruct (mapM_lookup _ _ _ _ _ Hsched Hi) as (row' & Hrow' & Hr).
  rewrite Hrow in Hrow'. injection Hrow' as <-.
  unfold schedule_row, schedule_flags in Hr. inv_bind Hr as flags Hflags.
  injection Hr as <-.
  assert (range (NUM_FRAMES pk) !! f = Some (Z.of_nat f)) as Hfr.
  { unfold range. apply lookup_seqZ. lia. }
  destruct (mapM_lookup _ _ _ _ _ Hflags Hfr) as (b & Hb & Hin).
  rewrite list_lookup_fmap, Hb. simpl. f_equal.
  rewrite in_frame_pinned in Hin.
  - injection Hin as <-. by rewrite Hname, Hperiod, Hsf.
  - destruct (Hdecl p Hp) as (su & _ & _ & Hph).
    rewrite decide_False in Hph; [done|].
    unfold has_phases. rewrite Hperiod, Hsf. intros [? ?].
    destruct Hpin; [done|lia].
  - by apply Hper.
Qed.

Lemma schedule_of_pinned_object_witness :
  ("" :: replicate 31 "H") !! 1%nat
  = Some (if every (or_zero (Start_Frame (c2_store 0%nat)))
               (Period (c2_store 0%nat)) (Z.of_nat 1)
          then Name (c2_store 0%nat) else "").
Proof.
  apply (schedule_of_pinned_object c2_solver c2_packer c2_store c2_packed
           (from_Ok [] (schedule_df c2_packer c2_packed)) 0%nat 0%nat
           ("" :: replicate 31 "H") 1%nat).
  - vm_compute. reflexivity.
  - vm_compute. reflexivity.
  - vm_compute. reflexivity.
  - left. vm_compute. discriminate.
  - vm_compute. reflexivity.
  - vm_compute. reflexivity.
Defined.

(** ** The constructor *)

Lemma propagate_from_identity i g ps (h : heap) q :
  same_identity (h q) (propagate_from i g ps h q).
Proof.
  revert i h. induction ps as [|p ps IH]; intros i h; simpl; [done|].
  destruct (IH (S i) (<[p := assign_shared (GroupObjectList.Period g)
                            (GroupObjectList.Start_Frame g)
                            (if decide (i = 0%nat)
                             then GroupObjectList.Offset g else None)
                            (h p)]> h)) as (H1 & H2 & H3 & H4).
  destruct (decide (p = q)) as [->|Hne].
  - rewrite fn_lookup_insert in H1, H2, H3, H4. done.
  - rewrite fn_lookup_insert_ne in H1, H2, H3, H4 by done. done.
Qed.

Lemma add_objects_identity items (h : heap) objs grps q :
  same_identity (h q) ((add_objects items h objs grps).1.1 q).
Proof.
  revert h objs grps. induction items as [|[p|g] items IH];
    intros h objs grps; simpl; [done|apply IH|].
  destruct (IH (propagate g h) (objs ++ GroupObjectList.points g) (grps ++ [g]))
    as (H1 & H2 & H3 & H4).
  destruct (propagate_from_identity 0 g (GroupObjectList.points g) h q)
    as (G1 & G2 & G3 & G4).
  unfold propagate in *. repeat split; congruence.
Qed.

Lemma add_objects_standalone items (h : heap) objs grps q :
  (∀ g, IGroup g ∈ items -> q ∉ GroupObjectList.points g) ->
  (add_objects items h objs grps).1.1 q = h q.
Proof.
  revert h objs grps. induction items as [|[p|g] items IH];
    intros h objs grps Hq; simpl; [done|..].
  - apply IH. intros g Hg. apply Hq. set_solver.
  - rewrite IH by (intros g' Hg'; apply Hq; set_solver).
    apply propagate_other, Hq. set_solver.
Qed.

(** The constructor lists the objects in the order of the input, each
    group expanded in place, and keeps the groups in that order.  It
    changes nothing but [Period], [Start_Frame] and [Offset], and those on
    members of groups only: an object that is in no group is left as it
    was. *)
Theorem constructor_flattens_and_keeps
    (h : heap) (items : list item) (frame_size num_frames : Z)
    (h1 : heap) (pk : FormatPacker) :
  FormatPacker_init h items frame_size num_frames = Ok (h1, pk) ->
  objects pk = concat (map item_points items) ∧
  _groups pk = item_groups items ∧
  (∀ q, same_identity (h q) (h1 q)) ∧
  (∀ q, (∀ g, IGroup g ∈ items -> q ∉ GroupObjectList.points g) -> h1 q = h q).
Proof.
  intros (Hobjs & Hgrps & _ & _ & _ & _ & _ & _ & Hadd)%FormatPacker_init_spec.
  split_and!; [done|done|..].
  - intros q. pose proof (add_objects_identity items h [] [] q) as H.
    by rewrite Hadd in H.
  - intros q Hq. pose proof (add_objects_standalone items h [] [] q Hq) as H.
    by rewrite Hadd in H.
Qed.

Lemma constructor_flattens_and_keeps_witness :
  objects s5_packer' = concat (map item_points [IGroup s5_built.2]) ∧
  _groups s5_packer' = item_groups [IGroup s5_built.2] ∧
  (∀ q, same_identity (s5_built.1 q) (s5_normalized q)) ∧
  (∀ q, (∀ g, IGroup g ∈ [IGroup s5_built.2] -> q ∉ GroupObjectList.points g) ->
        s5_normalized q = s5_built.1 q).
Proof.
  apply (constructor_flattens_and_keeps s5_built.1 [IGroup s5_built.2] 1000 32
           s5_normalized s5_packer').
  vm_compute. reflexivity.
Defined.

(** [UNIT] is the greatest common divisor of the frame width in bits, the
    sizes and the offsets of the objects: it is positive, divides each of
    them, and every common divisor of them divides it.  [CAP] units make
    up the frame exactly. *)
Theorem UNIT_is_greatest_common_divisor
    (h : heap) (items : list item) (frame_size num_frames : Z)
    (h1 : heap) (pk : FormatPacker) :
  FormatPacker_init h items frame_size num_frames = Ok (h1, pk) ->
  0 < UNIT pk ∧
  (UNIT pk | FRAME_SIZE_BITS pk) ∧
  (∀ p, p ∈ objects pk ->
     (UNIT pk | Size (h1 p)) ∧
     ∀ off, Offset (h1 p) = Some off -> (UNIT pk | off)) ∧
  (∀ d, (d | FRAME_SIZE_BITS pk) ->
     (∀ p, p ∈ objects pk ->
        (d | Size (h1 p)) ∧ ∀ off, Offset (h1 p) = Some off -> (d | off)) ->
     (d | UNIT pk)) ∧
  CAP pk * UNIT pk = FRAME_SIZE_BITS pk.
Proof.
  intros Hinit.
  pose proof (UNIT_positive _ _ _ _ _ _ Hinit) as Hpos.
  pose proof (UNIT_divides _ _ _ _ _ _ Hinit) as [Hbits Hdiv].
  apply FormatPacker_init_spec in Hinit
    as (_ & _ & _ & Hfsb & _ & Hunit & _ & Hcap & _).
  split_and!; [done|done|done| |].
  - intros d Hd Hall. rewrite Hunit. apply gcd_all_greatest.
    intros x [Hx|[Hx|Hx]%elem_of_app]%elem_of_app.
    + apply list_elem_of_fmap in Hx as (p & -> & Hp). by apply Hall.
    + apply list_elem_of_omap in Hx as (p & Hp & Hx).
      unfold defined_offset in Hx.
      destruct (Offset (h1 p)) as [off|] eqn:E; [|done].
      case_decide; [done|]. injection Hx as <-.
      by apply (Hall p Hp).
    + apply list_elem_of_singleton in Hx as ->. by rewrite <- Hfsb.
  - rewrite Hcap. apply div_mul_divides; [lia|done].
Qed.

Lemma UNIT_is_greatest_common_divisor_witness :
  0 < UNIT s5_packer' ∧
  (UNIT s5_packer' | FRAME_SIZE_BITS s5_packer') ∧
  (∀ p, p ∈ objects s5_packer' ->
     (UNIT s5_packer' | Size (s5_normalized p)) ∧
     ∀ off, Offset (s5_normalized p) = Some off -> (UNIT s5_packer' | off)) ∧
  (∀ d, (d | FRAME_SIZE_BITS s5_packer') ->
     (∀ p, p ∈ objects s5_packer' ->
        (d | Size (s5_normalized p)) ∧
        ∀ off, Offset (s5_normalized p) = Some off -> (d | off)) ->
     (d | UNIT s5_packer')) ∧
  CAP s5_packer' * UNIT s5_packer' = FRAME_SIZE_BITS s5_packer'.
Proof.
  apply (UNIT_is_greatest_common_divisor s5_built.1 [IGroup s5_built.2] 1000 32
           s5_normalized s5_packer').
  vm_compute. reflexivity.
Defined.

(** The constructor raises exactly when the frame size is 0, every object
    has size 0 and no object is left with an offset other than 0: [UNIT]
    is then 0 and [FRAME_SIZE_BITS // UNIT] a [ZeroDivisionError].  With a
    frame size other than 0 it always returns. *)
Theorem constructor_raises_iff_all_zero
    (h : heap) (items : list item) (frame_size num_frames : Z) (e : exn) :
  FormatPacker_init h items frame_size num_frames = Raise e <->
  e = ZeroDivisionError ∧ frame_size = 0 ∧
  ∀ p, p ∈ all_points items ->
    Size (h p) = 0 ∧
    defined_offset ((add_objects items h [] []).1.1 p) = None.
Proof.
  unfold FormatPacker_init.
  pose proof (add_objects_identity items h [] []) as Hid.
  destruct (add_objects items h [] []) as [[h1 objs] grps] eqn:Hadd.
  apply add_objects_lists in Hadd as [-> ->]. simpl in *.
  set (l := map (fun p => Size (h1 p)) (all_points items)
            ++ omap (fun p => defined_offset (h1 p)) (all_points items)
            ++ [frame_size * 8]).
  assert (gcd_all l = 0 <->
          frame_size = 0 ∧
          ∀ p, p ∈ all_points items ->
            Size (h p) = 0 ∧ defined_offset (h1 p) = None) as Hzero.
  { rewrite gcd_all_zero. unfold l. rewrite !Forall_app, !Forall_forall.
    split.
    - intros (Hs & Ho & Hf). split.
      + specialize (Hf (frame_size * 8)). rewrite list_elem_of_singleton in Hf.
        specialize (Hf eq_refl). lia.
      + intros p Hp. destruct (Hid p) as (_ & <- & _). split.
        * apply Hs, list_elem_of_fmap. by exists p.
        * destruct (defined_offset (h1 p)) as [off|] eqn:E; [|done].
          assert (off = 0) as -> by (apply Ho, list_elem_of_omap; by exists p).
          unfold defined_offset in E. destruct (Offset (h1 p)); [|done].
          case_decide as Hz; [done|]. by injection E as ->.
    - intros (-> & Hall). split_and!.
      + intros x (p & -> & Hp)%list_elem_of_fmap.
        destruct (Hid p) as (_ & -> & _). by apply Hall.
      + intros x (p & Hp & Hx)%list_elem_of_omap.
        destruct (Hall p Hp) as [_ Hnone]. congruence.
      + intros x ->%list_elem_of_singleton. done. }
  unfold floordiv. case_decide as Hz; simpl.
  - apply Hzero in Hz. split; [by intros [= <-]|by intros (-> & _)].
  - split; [done|]. intros (_ & Hfs & Hall). destruct Hz. by apply Hzero.
Qed.

(** ** Where the members of a group are placed *)

Lemma total_size_app (h : heap) l1 l2 :
  total_size h (l1 ++ l2) = total_size h l1 + total_size h l2.
Proof. induction l1 as [|p l1 IH]; simpl; [done|]. rewrite IH. lia. Qed.

(** In a pack that succeeded with a solution of the emitted model, the
    member at index [k] of a group starts where the first member starts
    plus the sizes of the members before it; a group whose offset is set
    starts at exactly that offset. *)
Theorem group_members_are_contiguous
    (Solve : CpSolver) (h : heap) (items : list item) (frame_size num_frames : Z)
    (h1 : heap) (pk : FormatPacker) (pd : Packed) (g : GroupObjectList.t)
    (k : nat) (p0 p : loc) :
  FormatPacker_init h items frame_size num_frames = Ok (h1, pk) ->
  pack Solve pk h1 = Ok pd ->
  satisfies (Value pd) (solved_model pd) = true ->
  NoDup (all_points items) ->
  IGroup g ∈ items ->
  GroupObjectList.points g !! 0%nat = Some p0 ->
  GroupObjectList.points g !! k = Some p ->
  ∃ b0, start_bit pk (Value pd) (store pd p0) = Ok b0 ∧
        start_bit pk (Value pd) (store pd p)
        = Ok (b0 + total_size h1 (take k (GroupObjectList.points g))) ∧
        ∀ off, GroupObjectList.Offset g = Some off -> b0 = off.
Proof.
  intros Hinit Hpack Hsat Hnd Hg H0 Hk.
  pose proof (packed_facts _ _ _ _ Hpack) as (Hsame & Hdecl & _).
  assert (p0 ∈ objects pk) as Hp0.
  { eapply member_in_objects; [done|done|by eapply list_elem_of_lookup_2]. }
  destruct (Hdecl p0 Hp0) as (su & Hsu & Hpin & _).
  exists (Value pd su * UNIT pk).
  assert (start_bit pk (Value pd) (store pd p0) = Ok (Value pd su * UNIT pk))
    as Hb0 by (unfold start_bit, get_start_unit; by rewrite Hsu).
  split_and!; [done| |].
  - clear Hsu Hpin. revert p Hk. induction k as [|k IH]; intros p Hk.
    + rewrite H0 in Hk. injection Hk as <-. rewrite take_0. simpl.
      by rewrite Z.add_0_r.
    + destruct (lookup_lt_is_Some_2 (GroupObjectList.points g) k) as [q Hq].
      { apply lookup_lt_Some in Hk. lia. }
      destruct (consecutive_start_bits _ _ _ _ _ _ _ _ g Hinit Hpack Hsat Hg
                  k q p Hq Hk) as (b & Hb & Hnext).
      rewrite (IH q Hq) in Hb. injection Hb as <-. rewrite Hnext.
      rewrite (take_S_r _ _ q) by done.
      rewrite total_size_app. simpl.
      destruct (Hsame q) as (_ & -> & _). f_equal. lia.
  - intros off Hoff.
    destruct (FormatPacker_init_group _ _ _ _ _ _ g 0%nat p0 Hinit Hnd Hg H0)
      as (_ & _ & Ho).
    rewrite decide_True, Hoff in Ho by done.
    destruct (Hsame p0) as (_ & _ & _ & _ & Ho').
    rewrite Ho in Ho'. specialize (Hpin off Ho').
    apply (satisfies_holds _ _ _ Hsat) in Hpin. simpl in Hpin.
    apply Z.eqb_eq in Hpin. rewrite Hpin.
    pose proof (UNIT_positive _ _ _ _ _ _ Hinit) as Hpos.
    pose proof (UNIT_divides _ _ _ _ _ _ Hinit) as [_ Hdiv].
    destruct (Hdiv p0 Hp0) as [_ Hd]. apply div_mul_divides; [lia|by apply Hd].
Qed.

Lemma group_members_are_contiguous_witness :
  ∃ b0, start_bit s5_packer' (Value s5_packed) (store s5_packed 0%nat) = Ok b0 ∧
        start_bit s5_packer' (Value s5_packed) (store s5_packed 2%nat)
        = Ok (b0 + total_size s5_normalized
                     (take 2 (GroupObjectList.points s5_built.2))) ∧
        ∀ off, GroupObjectList.Offset s5_built.2 = Some off -> b0 = off.
Proof.
  apply (group_members_are_contiguous s5_solver s5_built.1 [IGroup s5_built.2]
           1000 32 s5_normalized s5_packer' s5_packed s5_built.2 2%nat
           0%nat 2%nat).
  - vm_compute. reflexivity.
  - vm_compute. reflexivity.
  - vm_compute. reflexivity.
  - apply (bool_decide_unpack _). vm_compute. exact I.
  - by apply list_elem_of_singleton.
  - vm_compute. reflexivity.
  - vm_compute. reflexivity.
Defined.

(** ** The MemoryMap table *)

Lemma cell_at_alter grid (bn fr : nat) name (b f : nat) c :
  cell_at grid b f = Some c ->
  cell_at (alter (<[fr := name]>) bn grid) b f
  = Some (if bool_decide (b = bn ∧ f = fr) then name else c).
Proof.
  unfold cell_at. intros H.
  destruct (grid !! b) as [row|] eqn:Hrow; [|done]. simpl in H.
  destruct (decide (b = bn)) as [->|Hne].
  - rewrite list_lookup_alter_eq, Hrow. simpl.
    destruct (decide (f = fr)) as [->|Hf].
    + rewrite list_lookup_insert_eq by (by eapply lookup_lt_Some).
      by rewrite bool_decide_eq_true_2.
    + rewrite list_lookup_insert_ne by done.
      rewrite bool_decide_eq_false_2 by (intros [_ ?]; done). done.
  - rewrite list_lookup_alter_ne, Hrow by done. simpl.
    rewrite bool_decide_eq_false_2 by (intros [? _]; done). done.
Qed.

(** Within the rows, [iat] writes one cell and nothing else. *)
Lemma iat_set_spec bz frame name grid :
  0 <= bz < Z.of_nat (length grid) -> 0 <= frame ->
  ∃ grid', iat_set bz frame name grid = Ok grid' ∧
    length grid' = length grid ∧
    ∀ (b f : nat) c, cell_at grid b f = Some c ->
      cell_at grid' b f
      = Some (if bool_decide (Z.of_nat b = bz ∧ Z.of_nat f = frame)
              then name else c).
Proof.
  intros Hb Hf. unfold iat_set. rewrite decide_True by done.
  eexists. split; [done|]. split; [by rewrite length_alter|].
  intros b f c Hc. rewrite (cell_at_alter _ _ _ _ _ _ c Hc).
  by rewrite (bool_decide_ext (b = Z.to_nat bz ∧ f = Z.to_nat frame)
                (Z.of_nat b = bz ∧ Z.of_nat f = frame)) by lia.
Qed.

Lemma bind_ret {A B} (f : A -> result B) (x : A) : (Ok x ≫= f) = f x.
Proof. reflexivity. Qed.

Lemma write_bits_spec bs frame name grid :
  (∀ bz, bz ∈ bs -> 0 <= bz < Z.of_nat (length grid)) -> 0 <= frame ->
  ∃ grid', write_bits bs frame name grid = Ok grid' ∧
    length grid' = length grid ∧
    ∀ (b f : nat) c, cell_at grid b f = Some c ->
      cell_at grid' b f
      = Some (if bool_decide (Z.of_nat b ∈ bs ∧ Z.of_nat f = frame)
              then name else c).
Proof.
  intros Hbs Hf. revert grid Hbs.
  induction bs as [|bz bs IH]; intros grid Hbs; cbn [write_bits].
  - eexists. split; [done|]. split; [done|]. intros b f c Hc.
    rewrite bool_decide_eq_false_2; [done|]. intros [?%elem_of_nil _]. done.
  - destruct (iat_set_spec bz frame name grid) as (g1 & -> & Hlen1 & Hc1);
      [apply Hbs; set_solver|done|].
    rewrite bind_ret. destruct (IH g1) as (g2 & -> & Hlen2 & Hc2).
    { intros b' Hb'. rewrite Hlen1. apply Hbs. set_solver. }
    eexists. split; [done|]. split; [congruence|].
    intros b f c Hc. rewrite (Hc2 _ _ _ (Hc1 _ _ _ Hc)). f_equal.
    repeat case_bool_decide; try done; exfalso; set_solver.
Qed.

Lemma write_frames_spec a o sb frames grid :
  (∀ fr, fr ∈ frames -> 0 <= fr ∧ ∃ fl, in_frame a o fr = Ok fl) ->
  0 <= sb -> sb + Size o <= Z.of_nat (length grid) ->
  ∃ grid', write_frames a o sb frames grid = Ok grid' ∧
    length grid' = length grid ∧
    ∀ (b f : nat) c, cell_at grid b f = Some c ->
      cell_at grid' b f
      = Some (if bool_decide (Z.of_nat f ∈ frames)
                 && covers a o sb (Z.of_nat f) (Z.of_nat b)
              then Name o else c).
Proof.
  intros Hfr Hsb Hend. revert grid Hend Hfr.
  induction frames as [|fr frames IH]; intros grid Hend Hfr;
    cbn [write_frames].
  - eexists. split; [done|]. split; [done|]. intros b f c Hc.
    rewrite bool_decide_eq_false_2; [done|]. by intros ?%elem_of_nil.
  - destruct (Hfr fr) as [Hnn [fl Hfl]]; [set_solver|].
    rewrite Hfl, bind_ret.
    assert (∃ g1, (if fl then write_bits (seqZ sb (Size o)) fr (Name o) grid
                   else Ok grid) = Ok g1 ∧
              length g1 = length grid ∧
              ∀ (b f : nat) c, cell_at grid b f = Some c ->
                cell_at g1 b f
                = Some (if bool_decide (Z.of_nat f = fr)
                           && covers a o sb (Z.of_nat f) (Z.of_nat b)
                        then Name o else c)) as (g1 & -> & Hlen1 & Hc1).
    { destruct fl.
      - destruct (write_bits_spec (seqZ sb (Size o)) fr (Name o) grid)
          as (g1 & -> & Hlen1 & Hc1); [|done|].
        { intros bz Hbz%elem_of_seqZ. lia. }
        exists g1. split; [done|]. split; [done|].
        intros b f c Hc. rewrite (Hc1 _ _ _ Hc). f_equal.
        unfold covers. destruct (decide (Z.of_nat f = fr)) as [<-|Hne].
        + rewrite Hfl, (bool_decide_eq_true_2 (Z.of_nat f = Z.of_nat f)) by done.
          rewrite andb_true_l.
          by rewrite (bool_decide_ext (Z.of_nat b ∈ seqZ sb (Size o) ∧
                                       Z.of_nat f = Z.of_nat f)
                        (sb <= Z.of_nat b < sb + Size o))
            by (rewrite elem_of_seqZ; tauto).
        + rewrite (bool_decide_eq_false_2 (Z.of_nat f = fr)) by done.
          rewrite bool_decide_eq_false_2 by tauto. done.
      - exists grid. split; [done|]. split; [done|].
        intros b f c Hc. rewrite Hc. f_equal. unfold covers.
        destruct (decide (Z.of_nat f = fr)) as [<-|Hne].
        + rewrite Hfl. by rewrite andb_false_r.
        + by rewrite (bool_decide_eq_false_2 (Z.of_nat f = fr)) by done. }
    rewrite bind_ret. destruct (IH g1) as (g2 & -> & Hlen2 & Hc2).
    { by rewrite Hlen1. }
    { intros fr' Hfr'. apply Hfr. set_solver. }
    exists g2. split; [done|]. split; [congruence|].
    intros b f c Hc. rewrite (Hc2 _ _ _ (Hc1 _ _ _ Hc)). f_equal.
    destruct (covers a o sb (Z.of_nat f) (Z.of_nat b));
      rewrite ?andb_true_r, ?andb_false_r; [|done].
    repeat case_bool_decide; try done; exfalso; set_solver.
Qed.

Lemma painted_cons pk a (h : heap) p ps f b c :
  painted pk a h (p :: ps) f b c
  = painted pk a h ps f b (if occupies pk a (h p) f b then Name (h p) else c).
Proof. reflexivity. Qed.

Lemma write_objects_spec pk a (h : heap) ps grid :
  (∀ p, p ∈ ps ->
     ∃ sb, start_bit pk a (h p) = Ok sb ∧ 0 <= sb ∧
           sb + Size (h p) <= Z.of_nat (length grid)) ->
  (∀ p fr, p ∈ ps -> fr ∈ range (NUM_FRAMES pk) ->
     ∃ fl, in_frame a (h p) fr = Ok fl) ->
  ∃ grid', write_objects pk a h ps grid = Ok grid' ∧
    length grid' = length grid ∧
    ∀ (b f : nat) c, Z.of_nat f < NUM_FRAMES pk ->
      cell_at grid b f = Some c ->
      cell_at grid' b f = Some (painted pk a h ps (Z.of_nat f) (Z.of_nat b) c).
Proof.
  revert grid. induction ps as [|p ps IH]; intros grid Hsb Hin;
    cbn [write_objects].
  - eexists. split; [done|]. split; [done|]. by intros b f c _ Hc.
  - destruct (Hsb p) as (sb & Hp & Hlo & Hhi); [set_solver|].
    rewrite Hp, bind_ret.
    destruct (write_frames_spec a (h p) sb (range (NUM_FRAMES pk)) grid)
      as (g1 & -> & Hlen1 & Hc1); [|done|done|].
    { intros fr Hfr. split; [apply elem_of_range in Hfr; lia|].
      apply Hin; [set_solver|done]. }
    rewrite bind_ret. destruct (IH g1) as (g2 & -> & Hlen2 & Hc2).
    { intros q Hq. rewrite Hlen1. apply Hsb. set_solver. }
    { intros q fr Hq. apply Hin. set_solver. }
    exists g2. split; [done|]. split; [congruence|].
    intros b f c Hf Hc. rewrite (Hc2 _ _ _ Hf (Hc1 _ _ _ Hc)). f_equal.
    rewrite painted_cons. unfold occupies. rewrite Hp.
    rewrite bool_decide_eq_true_2 by (apply range_elem; lia). done.
Qed.

Lemma painted_none pk a (h : heap) ps f b c :
  (∀ p, p ∈ ps -> occupies pk a (h p) f b = false) ->
  painted pk a h ps f b c = c.
Proof.
  revert c. induction ps as [|p ps IH]; intros c H; [done|].
  rewrite painted_cons, (H p) by set_solver. apply IH.
  intros q Hq. apply H. set_solver.
Qed.

Lemma painted_only pk a (h : heap) ps f b c (i : nat) p :
  ps !! i = Some p -> occupies pk a (h p) f b = true ->
  (∀ (j : nat) q, j ≠ i -> ps !! j = Some q -> occupies pk a (h q) f b = false) ->
  painted pk a h ps f b c = Name (h p).
Proof.
  revert c i. induction ps as [|q ps IH]; intros c i Hi Hp Hothers; [done|].
  rewrite painted_cons. destruct i as [|i]; simpl in Hi.
  - injection Hi as ->. rewrite Hp. apply painted_none.
    intros r [k Hk]%list_elem_of_lookup. by apply (Hothers (S k)).
  - apply (IH _ i); [done|done|].
    intros j r Hj Hr. apply (Hothers (S j)); [lia|done].
Qed.

Lemma occupies_true pk a o f b :
  occupies pk a o f b = true ->
  ∃ su, start_unit o = Some su ∧ in_frame a o f = Ok true ∧
        a su * UNIT pk <= b < a su * UNIT pk + Size o.
Proof.
  unfold occupies, start_bit, get_start_unit, covers.
  destruct (start_unit o) as [su|]; [|done]. simpl.
  destruct (in_frame a o f) as [[]|]; [|done|done].
  intros H%bool_decide_eq_true. by exists su.
Qed.

(** After a pack that succeeded with a solution of the emitted model, the
    MemoryMap table is produced without an exception, with one row per bit
    of a frame.  The cell of bit [b] and frame [f] holds the name of the
    object that occupies the bit in that frame (it occurs in the frame and
    [start_bit <= b < start_bit + Size]) and the empty string when no
    object does.  Every object has a start frame or a positive period. *)
Theorem memorymap_shows_the_objects
    (Solve : CpSolver) (h : heap) (items : list item) (frame_size num_frames : Z)
    (h1 : heap) (pk : FormatPacker) (pd : Packed) :
  FormatPacker_init h items frame_size num_frames = Ok (h1, pk) ->
  pack Solve pk h1 = Ok pd ->
  satisfies (Value pd) (solved_model pd) = true ->
  (∀ p, p ∈ objects pk -> Start_Frame (h1 p) ≠ None ∨ 0 < Period (h1 p)) ->
  ∃ grid, memorymap_df pk pd = Ok grid ∧
    length grid = Z.to_nat (FRAME_SIZE_BITS pk) ∧
    ∀ (b f : nat),
      Z.of_nat b < FRAME_SIZE_BITS pk -> Z.of_nat f < NUM_FRAMES pk ->
      ∃ c, cell_at grid b f = Some c ∧
           (∀ p, p ∈ objects pk ->
              occupies pk (Value pd) (store pd p) (Z.of_nat f) (Z.of_nat b) = true ->
              c = Name (store pd p)) ∧
           ((∀ p, p ∈ objects pk ->
               occupies pk (Value pd) (store pd p) (Z.of_nat f) (Z.of_nat b)
               = false) ->
            c = "").
Proof.
  intros Hinit Hpack Hsat Hper.
  pose proof (UNIT_positive _ _ _ _ _ _ Hinit) as Hpos.
  pose proof (UNIT_divides _ _ _ _ _ _ Hinit) as [_ Hdiv].
  pose proof (packed_facts _ _ _ _ Hpack) as (Hsame & Hdecl & _ & Hnz & _).
  destruct (write_objects_spec pk (Value pd) (store pd) (objects pk)
              (empty_memorymap pk)) as (grid & Hgrid & Hlen & Hcells).
  { intros p Hp.
    destruct (start_bit_bounds _ _ _ _ _ _ _ _ _ Hinit Hpack Hsat Hp)
      as (su & Hsu & Hlo & Hhi).
    exists (Value pd su * UNIT pk). unfold start_bit, get_start_unit.
    rewrite Hsu. split; [done|]. split; [done|].
    unfold empty_memorymap. rewrite length_replicate. lia. }
  { intros p fr Hp _. eapply in_frame_returns; [by apply Hdecl|done|].
    by apply Hnz. }
  exists grid. split; [done|].
  split; [by rewrite Hlen; unfold empty_memorymap; rewrite length_replicate|].
  intros b f Hb Hf.
  assert (cell_at (empty_memorymap pk) b f = Some "") as Hempty.
  { unfold cell_at, empty_memorymap.
    rewrite lookup_replicate_2 by lia. simpl.
    by rewrite lookup_replicate_2 by lia. }
  eexists. split; [exact (Hcells b f _ Hf Hempty)|]. split.
  - intros p [i Hi]%list_elem_of_lookup Hocc.
    apply (painted_only _ _ _ _ _ _ _ i p Hi Hocc).
    intros j q Hji Hj.
    destruct (occupies pk (Value pd) (store pd q) (Z.of_nat f) (Z.of_nat b))
      eqn:Hq; [exfalso|done].
    apply occupies_true in Hocc as (sup & Hsup & Hinp & Hbp).
    apply occupies_true in Hq as (suq & Hsuq & Hinq & Hbq).
    assert (p ∈ objects pk) as Hp by (by eapply list_elem_of_lookup_2).
    assert (q ∈ objects pk) as Hq by (by eapply list_elem_of_lookup_2).
    destruct (Hsame p) as (_ & Hsp & Hperp & Hsfp & _).
    destruct (Hsame q) as (_ & Hsq & Hperq & Hsfq & _).
    destruct (objects_apart Solve pk h1 pd i j p q (Z.of_nat f))
      as (sup' & suq' & Hsup' & Hsuq' & Hap); try done.
    { lia. }
    { rewrite Hsfp, Hperp. by apply Hper. }
    { rewrite Hsfq, Hperq. by apply Hper. }
    rewrite Hsup in Hsup'. injection Hsup' as <-.
    rewrite Hsuq in Hsuq'. injection Hsuq' as <-.
    destruct (Hdiv p Hp) as [Hdp _]. destruct (Hdiv q Hq) as [Hdq _].
    rewrite <- Hsp in Hdp. rewrite <- Hsq in Hdq.
    pose proof (div_mul_divides (UNIT pk) _ ltac:(lia) Hdp) as Hep.
    pose proof (div_mul_divides (UNIT pk) _ ltac:(lia) Hdq) as Heq.
    destruct Hap as [Hap|Hap]; nia.
  - intros Hnone. by apply painted_none.
Qed.

Lemma memorymap_shows_the_objects_witness :
  ∃ grid, memorymap_df c4_packer c4_packed = Ok grid ∧
    length grid = Z.to_nat (FRAME_SIZE_BITS c4_packer) ∧
    ∀ (b f : nat),
      Z.of_nat b < FRAME_SIZE_BITS c4_packer ->
      Z.of_nat f < NUM_FRAMES c4_packer ->
      ∃ c, cell_at grid b f = Some c ∧
           (∀ p, p ∈ objects c4_packer ->
              occupies c4_packer (Value c4_packed) (store c4_packed p)
                (Z.of_nat f) (Z.of_nat b) = true ->
              c = Name (store c4_packed p)) ∧
           ((∀ p, p ∈ objects c4_packer ->
               occupies c4_packer (Value c4_packed) (store c4_packed p)
                 (Z.of_nat f) (Z.of_nat b) = false) ->
            c = "").
Proof.
  apply (memorymap_shows_the_objects c4_solver c4_store
           [IPoint 0%nat; IPoint 1%nat] 2 2 c4_store c4_packer c4_packed).
  - vm_compute. reflexivity.
  - vm_compute. reflexivity.
  - vm_compute. reflexivity.
  - intros p Hp. vm_compute in Hp.
    repeat (apply elem_of_cons in Hp as [->|Hp]; [left; by vm_compute|]).
    by apply elem_of_nil in Hp.
Defined.

(** ** The cells of the FrameSummary table *)

Lemma cell_snoc name es e :
  cell name (es ++ [e]) = if decide (e.1 = name) then Some e.2 else cell name es.
Proof. unfold cell. by rewrite foldl_app. Qed.

(** The cell is empty when the name is not among the entries, and holds
    the bit of the last entry of that name otherwise. *)
Lemma cell_last name es :
  match cell name es with
  | None => name ∉ es.*1
  | Some b => ∃ l1 l2, es = l1 ++ (name, b) :: l2 ∧ name ∉ l2.*1
  end.
Proof.
  induction es as [|[n b] es IH] using rev_ind.
  - simpl. by intros ?%elem_of_nil.
  - rewrite cell_snoc. simpl. case_decide as Hn.
    + subst n. exists es, []. split; [done|]. by intros ?%elem_of_nil.
    + destruct (cell name es) as [b'|].
      * destruct IH as (l1 & l2 & -> & Hl2). exists l1, (l2 ++ [(n, b)]).
        split; [by rewrite <- app_assoc|].
        rewrite fmap_app. simpl. set_solver.
      * rewrite fmap_app. simpl. set_solver.
Qed.

Lemma StronglySorted_before {A} (R : relation A) l1 x l2 y :
  StronglySorted R (l1 ++ x :: l2) -> y ∈ l1 -> R y x.
Proof.
  induction l1 as [|z l1 IH]; simpl; intros Hs Hy; [by apply elem_of_nil in Hy|].
  apply StronglySorted_inv in Hs as [Hs Hall].
  apply elem_of_cons in Hy as [->|Hy]; [|by apply IH].
  rewrite Forall_forall in Hall. apply Hall. set_solver.
Qed.

(** In the FrameSummary table, the cell of a name and a frame is empty
    when no entry of the frame bears the name; otherwise it holds the
    start bit of such an entry, the largest one if several entries bear
    the name. *)
Theorem framesummary_cells
    (pk : FormatPacker) (pd : Packed) (table : list (string * list (option Z)))
    (fs : list (list (string * Z))) (name : string) (cells : list (option Z))
    (f : nat) (row : list (string * Z)) :
  framesummary_df pk pd = Ok table ->
  framesummary pk pd = Ok fs ->
  (name, cells) ∈ table ->
  fs !! f = Some row ->
  ∃ c, cells !! f = Some c ∧
       (name ∉ row.*1 -> c = None) ∧
       (∀ b, (name, b) ∈ row ->
          ∃ bmax, c = Some bmax ∧ (name, bmax) ∈ row ∧ b <= bmax).
Proof.
  intros Htable Hfs Hin Hrow. unfold framesummary_df in Htable.
  rewrite Hfs in Htable. simpl in Htable. injection Htable as <-.
  apply list_elem_of_fmap in Hin as (name' & [= <- ->] & _).
  exists (cell name row). split; [by rewrite list_lookup_fmap, Hrow|].
  assert (StronglySorted (key_le snd) row) as Hsorted.
  { unfold framesummary in Hfs.
    destruct (mapM_lookup_r _ _ _ _ _ Hfs Hrow) as (frame & _ & Hes).
    inv_bind Hes as es Hentries. injection Hes as <-. apply sort_by_sorted. }
  pose proof (cell_last name row) as Hcell.
  destruct (cell name row) as [bmax|].
  - destruct Hcell as (l1 & l2 & -> & Hl2). split.
    + intros Hnot. destruct Hnot. rewrite fmap_app. set_solver.
    + intros b Hb. exists bmax. split; [done|]. split; [set_solver|].
      apply elem_of_app in Hb as [Hb|Hb].
      * apply (StronglySorted_before _ _ _ _ _ Hsorted Hb).
      * apply elem_of_cons in Hb as [[= ->]|Hb]; [done|].
        destruct Hl2. apply list_elem_of_fmap. by exists (name, b).
  - split; [done|]. intros b Hb. destruct Hcell.
    apply list_elem_of_fmap. by exists (name, b).
Qed.

Lemma framesummary_cells_witness :
  ∃ c, [None; Some 0] !! 1%nat = Some c ∧
       ("B" ∉ [("B", 0)].*1 -> c = None) ∧
       (∀ b, ("B", b) ∈ [("B", 0)] ->
          ∃ bmax, c = Some bmax ∧ ("B", bmax) ∈ [("B", 0)] ∧ b <= bmax).
Proof.
  apply (framesummary_cells c4_packer c4_packed
           [("B", [None; Some 0]); ("A", [Some 8; None])]
           [[("A", 8)]; [("B", 0)]] "B" [None; Some 0] 1%nat).
  - vm_compute. reflexivity.
  - vm_compute. reflexivity.
  - apply (bool_decide_unpack _). vm_compute. exact I.
  - vm_compute. reflexivity.
Defined.

(** ** All the tables *)

(** After a pack that succeeded with a solution of the emitted model, the
    Schedule, MemoryMap, FrameOrder and FrameSummary tables are all
    produced without an exception: [next] finds a phase for every object
    that has phase variables, and every bit written to the MemoryMap is a
    row of it.  The Schedule has one row per object and one cell per
    frame, the MemoryMap one row per bit of a frame, the FrameOrder and
    the frame summary one entry list per frame. *)
Theorem tables_are_produced
    (Solve : CpSolver) (h : heap) (items : list item) (frame_size num_frames : Z)
    (h1 : heap) (pk : FormatPacker) (pd : Packed) :
  FormatPacker_init h items frame_size num_frames = Ok (h1, pk) ->
  pack Solve pk h1 = Ok pd ->
  satisfies (Value pd) (solved_model pd) = true ->
  ∃ sched grid fs table,
    schedule_df pk pd = Ok sched ∧
    memorymap_df pk pd = Ok grid ∧
    framesummary pk pd = Ok fs ∧
    frameorder pk pd = Ok (map (map fst) fs) ∧
    framesummary_df pk pd = Ok table ∧
    length sched = length (objects pk) ∧
    (∀ row, row ∈ sched -> length row = Z.to_nat (NUM_FRAMES pk)) ∧
    length grid = Z.to_nat (FRAME_SIZE_BITS pk) ∧
    length fs = Z.to_nat (NUM_FRAMES pk).
Proof.
  intros Hinit Hpack Hsat.
  pose proof (packed_facts _ _ _ _ Hpack) as (_ & Hdecl & _ & Hper & _).
  assert (∀ p frame, p ∈ objects pk ->
            ∃ b, in_frame (Value pd) (store pd p) frame = Ok b) as Hin.
  { intros p frame Hp. eapply in_frame_returns; [by apply Hdecl|done|].
    by apply Hper. }
  assert (range_length : length (range (NUM_FRAMES pk))
                         = Z.to_nat (NUM_FRAMES pk)).
  { unfold range. by rewrite length_seqZ. }
  destruct (mapM_returns
    (fun p => schedule_row (Value pd) (store pd p) (range (NUM_FRAMES pk)))
    (objects pk)) as [sched Hsched].
  { intros p Hp. unfold schedule_row, schedule_flags.
    destruct (mapM_returns (in_frame (Value pd) (store pd p))
                (range (NUM_FRAMES pk))) as [flags ->].
    - intros f _. by apply Hin.
    - simpl. by eexists. }
  destruct (write_objects_spec pk (Value pd) (store pd) (objects pk)
              (empty_memorymap pk)) as (grid & Hgrid & Hlen & _).
  { intros p Hp.
    destruct (start_bit_bounds _ _ _ _ _ _ _ _ _ Hinit Hpack Hsat Hp)
      as (su & Hsu & Hlo & Hhi).
    exists (Value pd su * UNIT pk). unfold start_bit, get_start_unit.
    rewrite Hsu. split; [done|]. split; [done|].
    unfold empty_memorymap. rewrite length_replicate. lia. }
  { intros p fr Hp _. by apply Hin. }
  destruct (mapM_returns
    (fun frame =>
       entries ← frame_entries pk (Value pd) (store pd) (objects pk) frame;
       Ok (sort_by snd entries)) (range (NUM_FRAMES pk))) as [fs Hfs].
  { intros f _.
    destruct (frame_entries_returns pk (Value pd) (store pd) (objects pk) f)
      as [es ->].
    - intros p Hp. destruct (Hdecl p Hp) as (su & Hsu & _). by exists su.
    - intros p Hp. by apply Hin.
    - simpl. by eexists. }
  exists sched, grid, fs. eexists.
  unfold schedule_df, memorymap_df, frameorder, framesummary_df.
  fold (framesummary pk pd) in Hfs. rewrite Hsched, Hgrid, Hfs. simpl.
  split_and!; try done.
  - by rewrite (mapM_length _ _ _ Hsched).
  - intros row [i Hi]%list_elem_of_lookup.
    destruct (mapM_lookup_r _ _ _ _ _ Hsched Hi) as (p & _ & Hrow).
    unfold schedule_row, schedule_flags in Hrow. inv_bind Hrow as flags Hfl.
    injection Hrow as <-. rewrite length_map, (mapM_length _ _ _ Hfl).
    exact range_length.
  - rewrite Hlen. unfold empty_memorymap. by rewrite length_replicate.
  - unfold framesummary in Hfs. by rewrite (mapM_length _ _ _ Hfs).
Qed.

Lemma tables_are_produced_witness :
  ∃ sched grid fs table,
    schedule_df c4_packer c4_packed = Ok sched ∧
    memorymap_df c4_packer c4_packed = Ok grid ∧
    framesummary c4_packer c4_packed = Ok fs ∧
    frameorder c4_packer c4_packed = Ok (map (map fst) fs) ∧
    framesummary_df c4_packer c4_packed = Ok table ∧
    length sched = length (objects c4_packer) ∧
    (∀ row, row ∈ sched -> length row = Z.to_nat (NUM_FRAMES c4_packer)) ∧
    length grid = Z.to_nat (FRAME_SIZE_BITS c4_packer) ∧
    length fs = Z.to_nat (NUM_FRAMES c4_packer).
Proof.
  apply (tables_are_produced c4_solver c4_store [IPoint 0%nat; IPoint 1%nat]
           2 2 c4_store c4_packer c4_packed).
  - vm_compute. reflexivity.
  - vm_compute. reflexivity.
  - vm_compute. reflexivity.
Defined.

(** ** No frame is filled beyond its size *)

Section packing.
Context {A : Type} (on : A -> bool) (start size : A -> Z).

Lemma load_filter (P : A -> Prop) `{!∀ x, Decision (P x)} (l : list A) :
  load on size l
  = load on size (filter P l) + load on size (filter (fun x => ¬ P x) l).
Proof.
  induction l as [|x l IH]; [done|]. cbn [load foldr].
  fold (load on size l). rewrite IH.
  destruct (decide (P x)) as [Hx|Hx].
  - rewrite (filter_cons_True P) by done.
    rewrite (filter_cons_False (fun x => ¬ P x)) by tauto.
    cbn [load foldr]. fold (load on size (filter P l)). lia.
  - rewrite (filter_cons_False P) by done.
    rewrite (filter_cons_True (fun x => ¬ P x)) by done.
    cbn [load foldr]. fold (load on size (filter (fun x => ¬ P x) l)). lia.
Qed.

(** Intervals that are pairwise apart and lie between [lo] and [hi] take
    no more than [hi - lo] together. *)
Lemma load_bound (n : nat) (l : list A) (lo hi : Z) :
  (length l <= n)%nat -> lo <= hi ->
  (∀ x y, [x; y] `sublist_of` l -> on x = true -> on y = true ->
     start x + size x <= start y ∨ start y + size y <= start x) ->
  (∀ x, x ∈ l -> on x = true ->
     0 <= size x ∧ lo <= start x ∧ start x + size x <= hi) ->
  load on size l <= hi - lo.
Proof.
  revert l lo hi. induction n as [|n IH]; intros l lo hi Hlen Hle Hap Hin.
  - destruct l; [simpl; lia|simpl in Hlen; lia].
  - destruct l as [|x l]; [simpl; lia|]. simpl in Hlen.
    cbn [load foldr]. fold (load on size l).
    destruct (on x) eqn:Hx.
    + destruct (Hin x) as (Hsz & Hlo & Hhi); [set_solver|done|].
      rewrite (load_filter (fun y => start y + size y <= start x) l).
      assert (load on size (filter (fun y => start y + size y <= start x) l)
              <= start x - lo) as HL.
      { apply IH; [|done|..].
        - pose proof (length_filter (fun y => start y + size y <= start x) l).
          lia.
        - intros y z Hyz. apply Hap. apply sublist_cons.
          etrans; [done|apply sublist_filter].
        - intros y [Hend Hy]%list_elem_of_filter Hon.
          destruct (Hin y) as (? & ? & ?); [set_solver|done|]. lia. }
      assert (load on size
                (filter (fun y => ¬ start y + size y <= start x) l)
              <= hi - (start x + size x)) as HR.
      { apply IH; [|lia|..].
        - pose proof (length_filter
                        (fun y => ¬ start y + size y <= start x) l). lia.
        - intros y z Hyz. apply Hap. apply sublist_cons.
          etrans; [done|apply sublist_filter].
        - intros y [Hend Hy]%list_elem_of_filter Hon.
          destruct (Hin y) as (? & ? & ?); [set_solver|done|].
          destruct (Hap x y) as [?|?]; [|done|done|lia|lia].
          apply sublist_skip. by apply singleton_sublist_l. }
      lia.
    + assert (load on size l <= hi - lo); [|lia].
      apply IH; [lia|done|..].
      * intros y z Hyz. apply Hap. by apply sublist_cons.
      * intros y Hy. apply Hin. set_solver.
Qed.
End packing.

(** In a pack that succeeded with a solution of the emitted model, the
    objects that occur in a frame of the schedule take no more bits
    together than the frame has.  The sizes are not negative, and every
    object has a start frame or a positive period. *)
Theorem frame_is_not_overfilled
    (Solve : CpSolver) (h : heap) (items : list item) (frame_size num_frames : Z)
    (h1 : heap) (pk : FormatPacker) (pd : Packed) (frame : Z) :
  FormatPacker_init h items frame_size num_frames = Ok (h1, pk) ->
  pack Solve pk h1 = Ok pd ->
  satisfies (Value pd) (solved_model pd) = true ->
  (∀ p, p ∈ objects pk -> 0 <= Size (h1 p)) ->
  (∀ p, p ∈ objects pk -> Start_Frame (h1 p) ≠ None ∨ 0 < Period (h1 p)) ->
  0 <= frame < NUM_FRAMES pk ->
  frame_load (Value pd) (store pd) (objects pk) frame <= FRAME_SIZE_BITS pk.
Proof.
  intros Hinit Hpack Hsat Hsize Hper Hframe.
  pose proof (UNIT_positive _ _ _ _ _ _ Hinit) as Hpos.
  pose proof (UNIT_divides _ _ _ _ _ _ Hinit) as [_ Hdiv].
  pose proof (packed_facts _ _ _ _ Hpack) as (Hsame & _).
  set (start := fun p => from_Ok 0 (start_bit pk (Value pd) (store pd p))).
  assert (∀ p su, start_unit (store pd p) = Some su ->
            start p = Value pd su * UNIT pk) as Hstart.
  { intros p su Hsu. unfold start, start_bit, get_start_unit. by rewrite Hsu. }
  unfold frame_load. rewrite <- (Z.sub_0_r (FRAME_SIZE_BITS pk)).
  apply (load_bound _ start _ (length (objects pk))); [done| |..].
  - pose proof (UNIT_divides _ _ _ _ _ _ Hinit) as [Hbits _].
    apply FormatPacker_init_spec in Hinit as (_&_&_&_&_&_&_& Hcap &_).
    apply pack_model in Hpack as (bm & Hbm & Hv & _).
    apply _build_model_more in Hbm as (_ & _ & _ & ebs & _ & Hdom & _).
    rewrite <- Hv in Hdom.
    pose proof (satisfies_domain _ _ _ _ _ Hsat Hdom) as Hme.
    pose proof (div_mul_divides (UNIT pk) _ ltac:(lia) Hbits) as Hb.
    rewrite <- Hcap in Hb. nia.
  - intros p q Hpq Hp Hq.
    apply sublist_pair_before in Hpq as (i & j & Hij & Hi & Hj).
    unfold occurs in Hp, Hq.
    destruct (in_frame (Value pd) (store pd p) frame) as [[]|] eqn:Hinp;
      [|done|done].
    destruct (in_frame (Value pd) (store pd q) frame) as [[]|] eqn:Hinq;
      [|done|done].
    assert (p ∈ objects pk) as Hpo by (by eapply list_elem_of_lookup_2).
    assert (q ∈ objects pk) as Hqo by (by eapply list_elem_of_lookup_2).
    destruct (Hsame p) as (_ & Hsp & Hperp & Hsfp & _).
    destruct (Hsame q) as (_ & Hsq & Hperq & Hsfq & _).
    destruct (objects_apart Solve pk h1 pd i j p q frame)
      as (sup & suq & Hsup & Hsuq & Hap); try done.
    { lia. }
    { rewrite Hsfp, Hperp. by apply Hper. }
    { rewrite Hsfq, Hperq. by apply Hper. }
    rewrite (Hstart p sup Hsup), (Hstart q suq Hsuq).
    destruct (Hdiv p Hpo) as [Hdp _]. destruct (Hdiv q Hqo) as [Hdq _].
    rewrite <- Hsp in Hdp. rewrite <- Hsq in Hdq.
    pose proof (div_mul_divides (UNIT pk) _ ltac:(lia) Hdp) as Hep.
    pose proof (div_mul_divides (UNIT pk) _ ltac:(lia) Hdq) as Heq.
    destruct Hap as [Hap|Hap]; [left|right]; nia.
  - intros p Hp _.
    destruct (start_bit_bounds _ _ _ _ _ _ _ _ p Hinit Hpack Hsat Hp)
      as (su & Hsu & Hlo & Hhi).
    rewrite (Hstart p su Hsu). destruct (Hsame p) as (_ & -> & _).
    split; [by apply Hsize|]. destruct (Hsame p) as (_ & Hsz & _).
    rewrite Hsz in Hhi. lia.
Qed.

Lemma frame_is_not_overfilled_witness :
  frame_load (Value s5_packed) (store s5_packed) (objects s5_packer') 1
  <= FRAME_SIZE_BITS s5_packer'.
Proof.
  apply (frame_is_not_overfilled s5_solver s5_built.1 [IGroup s5_built.2]
           1000 32 s5_normalized s5_packer' s5_packed 1).
  - vm_compute. reflexivity.
  - vm_compute. reflexivity.
  - vm_compute. reflexivity.
  - intros p Hp. vm_compute in Hp.
    repeat (apply elem_of_cons in Hp as [->|Hp]; [by vm_compute|]).
    by apply elem_of_nil in Hp.
  - intros p Hp. vm_compute in Hp.
    repeat (apply elem_of_cons in Hp as [->|Hp]; [left; by vm_compute|]).
    by apply elem_of_nil in Hp.
  - replace (NUM_FRAMES s5_packer') with 32 by (vm_compute; reflexivity). lia.
Defined.
